(** * Commands of the sprotty client: moving and selecting model elements

    A shallow embedding of [client/src/features/move/move.tsx] (the move
    command, its merge and its animation), of the match construction of
    [LocalModelSource.removeElements], and of the select command that
    [client/src/base/intent/select.spec.ts] exercises.

    The scene graph is a heap of element objects addressed by reference;
    the index maps element ids to references.  A method takes the state
    it can mutate (the receiver's fields, the heap) and returns the new
    one; where a call is given command objects by reference, they live in
    a store next to the heap. *)

From Stdlib Require Import ZArith Bool.
From Stdlib Require Import Floats.SpecFloat.
From stdpp Require Import gmap strings list fin_maps.

(** ** JavaScript numbers

    A [number] is an IEEE 754 binary64 value; the arithmetic is the
    specification of binary64 arithmetic with rounding to nearest even. *)

Module Number.

Definition prec : Z := 53.
Definition emax : Z := 1024.

Definition number : Type := spec_float.

Definition add : number → number → number := SFadd prec emax.
Definition sub : number → number → number := SFsub prec emax.
Definition mul : number → number → number := SFmul prec emax.

(** The literal [1]. *)
Definition one : number := S754_finite false 4503599627370496 (-52).

(** [a === b] on numbers: [NaN] differs from itself, [+0 === -0]. *)
Definition strictEquals (a b : number) : bool := SFeqb a b.

(** Every number a program holds is a canonical binary64 value. *)
Definition representable (a : number) : bool := valid_binary prec emax a.

(** [Number.isFinite]. *)
Definition isFinite (a : number) : bool :=
  match a with
  | S754_zero _ | S754_finite _ _ _ => true
  | S754_infinity _ | S754_nan => false
  end.

Definition negativeZero : number := S754_zero true.

End Number.

Declare Scope number_scope.
Delimit Scope number_scope with num.
Infix "+" := Number.add : number_scope.
Infix "-" := Number.sub : number_scope.
Infix "*" := Number.mul : number_scope.

Abbreviation number := Number.number.

(** ** utils/geometry: [Point]

    A point is only ever built and replaced as a whole ([{x: .., y: ..}],
    [element.position = ..]), never updated in place: it is a value. *)

Module Point.
Record t : Type := mk { x : number; y : number }.
End Point.

(** ** The scene graph *)

(** The identity of an element object. *)
Definition loc : Type := nat.

(** Modelled from the spec: the declarations of base/model/smodel are not
    among the sources.  An element has a "unique string identifier", an
    "ordered sequence of child elements", a single owning parent (none for
    the root), and feature data, of which the commands use the position
    and the selection.  [MoveCommand.resolve] reads what the index returns
    at the type [SModelElement & Locateable], whose [position] is a
    [Point]. *)
Module SModelElement.
Record t : Type := mk {
  id : string;
  position : Point.t;
  selected : bool;
  parent : option loc;
  children : list loc
}.

Definition set_position (p : Point.t) (e : t) : t :=
  mk (id e) p (selected e) (parent e) (children e).

Definition set_selected (b : bool) (e : t) : t :=
  mk (id e) (position e) b (parent e) (children e).

Definition set_children (cs : list loc) (e : t) : t :=
  mk (id e) (position e) (selected e) (parent e) cs.
End SModelElement.

(** The element objects, by reference. *)
Abbreviation Heap := (gmap loc SModelElement.t).

(** Modelled from the spec: the scene index is "a mapping from element
    identifier to element object". *)
Abbreviation SModelIndex := (gmap string loc).

(** Modelled from the spec: [getById(id) -> Element | undefined]: the
    element object registered under [id], here with its current fields,
    or [undefined]. *)
Definition getById (index : SModelIndex) (h : Heap) (id : string)
  : option (loc * SModelElement.t) :=
  match index !! id with
  | Some element =>
      match h !! element with
      | Some obj => Some (element, obj)
      | None => None
      end
  | None => None
  end.

(** Modelled from the spec: the root is "the distinguished element with no
    parent" and "owns an Index"; the commands read [model.index]. *)
Module SModelRoot.
Record t : Type := mk { root : loc; index : SModelIndex }.
End SModelRoot.

(** The context a command operation is given, as select.spec.ts builds it;
    of its fields the commands here read [root] (and pass the context on
    to the animation, whose ticks [duration] times). *)
Module CommandExecutionContext.
Record t : Type := mk { root : SModelRoot.t; duration : number }.
End CommandExecutionContext.

(** ** JavaScript [Map] with string keys

    A [Map] iterates in insertion order, and [set] on a present key keeps
    the key's place. *)

Module JSMap.
Section JSMap.
Context {V : Type}.

Definition t : Type := list (string * V).

Fixpoint get (k : string) (m : t) : option V :=
  match m with
  | [] => None
  | (k', v) :: m' => if decide (k' = k) then Some v else get k m'
  end.

Fixpoint set (k : string) (v : V) (m : t) : t :=
  match m with
  | [] => [(k, v)]
  | (k', v') :: m' =>
      if decide (k' = k) then (k', v) :: m' else (k', v') :: set k v m'
  end.

Definition forEach {S : Type} (f : S → V → S) (m : t) (s : S) : S :=
  foldl (λ s kv, f s kv.2) s m.

End JSMap.
Arguments t : clear implicits.
End JSMap.

(** ** move.tsx: actions and command state *)

Module ElementMove.
Record t : Type := mk {
  fromPosition : option Point.t;
  elementId : string;
  toPosition : Point.t
}.
End ElementMove.

Module ResolvedElementMove.
Record t : Type := mk {
  fromPosition : Point.t;
  elementId : string;
  element : loc;
  toPosition : Point.t
}.

(** [move.toPosition = p] *)
Definition set_toPosition (p : Point.t) (m : t) : t :=
  mk (fromPosition m) (elementId m) (element m) p.
End ResolvedElementMove.

Module MoveAction.
Record t : Type := mk { moves : list ElementMove.t; animate : bool }.
End MoveAction.

Module MoveCommand.
Record t : Type := mk {
  action : MoveAction.t;
  resolvedMoves : JSMap.t ResolvedElementMove.t
}.
End MoveCommand.

(** The fields of a [MoveAnimation]; [elementMoves] is the command's map as
    it is when the animation is made (no command operation runs between
    the making and the ticks stated here). *)
Module MoveAnimation.
Record t : Type := mk {
  model : SModelRoot.t;
  elementMoves : JSMap.t ResolvedElementMove.t;
  context : CommandExecutionContext.t;
  reverse : bool
}.
End MoveAnimation.

(** Modelled from the spec: [Animation.start] of base/animations/animation,
    which is not among the sources.  It "begins the schedule and returns a
    handle whose completion resolves to the final model state"; nothing is
    mutated by the call itself, the ticks come later. *)
Inductive Promise : Type :=
  | Started (animation : MoveAnimation.t).

Definition start (animation : MoveAnimation.t) : Promise := Started animation.

(** What [execute], [undo] and [redo] hand back: the model, or the promise
    of a started animation. *)
Inductive CommandResult : Type :=
  | Model (model : SModelRoot.t)
  | Animated (promise : Promise).

(** ** The select command's state *)

(** Modelled from the spec: the select command (base/intent/select) is not
    among the sources, only its test is.  A [SelectAction] carries the ids
    to select and the ids to deselect. *)
Module SelectAction.
Record t : Type := mk { selectedIds : list string; deselectedIds : list string }.
End SelectAction.

(** Modelled from the spec: the "prior state" the select command records
    for one touched element: its selected flag and, for an element that
    was moved to the end of its parent's children, the parent and the
    index it had there. *)
Module Selection.
Record t : Type := mk {
  element : loc;
  wasSelected : bool;
  place : option (loc * nat)
}.
End Selection.

(** Modelled from the spec: the select command's state is its action and
    the cached resolution, in the order execute touched the elements. *)
Module SelectCommand.
Record t : Type := mk {
  action : SelectAction.t;
  touched : list Selection.t
}.
End SelectCommand.

(** ** Commands as objects *)

(** [ICommand] is the interface of the two command classes;
    [command instanceof MoveCommand] is a match on the constructor. *)
Inductive ICommand : Type :=
  | AMoveCommand (c : MoveCommand.t)
  | ASelectCommand (c : SelectCommand.t).

Definition instanceofMoveCommand (command : ICommand) : option MoveCommand.t :=
  match command with
  | AMoveCommand c => Some c
  | ASelectCommand _ => None
  end.

(** ** move.tsx: [MoveCommand] and [MoveAnimation] *)

Module Move.
Import Number.

(** [MoveCommand.resolve] *)
Definition resolve (move : ElementMove.t) (index : SModelIndex) (h : Heap)
  : option ResolvedElementMove.t :=
  match getById index h (ElementMove.elementId move) with
  | Some (element, obj) =>
      let fromPosition :=
        match ElementMove.fromPosition move with
        | Some p => p
        | None =>
            Point.mk (Point.x (SModelElement.position obj))
                     (Point.y (SModelElement.position obj))
        end in
      Some (ResolvedElementMove.mk fromPosition (ElementMove.elementId move)
              element (ElementMove.toPosition move))
  | None => None
  end.

(** The body of the [forEach] in [MoveCommand.execute], on the state it
    mutates: the command's [resolvedMoves] and the heap. *)
Definition execute_move (animate : bool) (index : SModelIndex)
    (st : JSMap.t ResolvedElementMove.t * Heap) (move : ElementMove.t)
  : JSMap.t ResolvedElementMove.t * Heap :=
  match resolve move index st.2 with
  | Some resolvedMove =>
      let resolvedMoves :=
        JSMap.set (ResolvedElementMove.elementId resolvedMove) resolvedMove st.1 in
      if negb animate
      then (resolvedMoves,
            alter (SModelElement.set_position (ElementMove.toPosition move))
                  (ResolvedElementMove.element resolvedMove) st.2)
      else (resolvedMoves, st.2)
  | None => st
  end.

(** [this.action.moves.forEach(..)] of [execute]. *)
Definition execute_moves (animate : bool) (index : SModelIndex)
    (moves : list ElementMove.t) (st : JSMap.t ResolvedElementMove.t * Heap)
  : JSMap.t ResolvedElementMove.t * Heap :=
  foldl (execute_move animate index) st moves.

(** [MoveCommand.execute] *)
Definition execute (this : MoveCommand.t) (context : CommandExecutionContext.t)
    (h : Heap) : CommandResult * MoveCommand.t * Heap :=
  let model := CommandExecutionContext.root context in
  let animate := MoveAction.animate (MoveCommand.action this) in
  let st := execute_moves animate (SModelRoot.index model)
              (MoveAction.moves (MoveCommand.action this))
              (MoveCommand.resolvedMoves this, h) in
  let this' := MoveCommand.mk (MoveCommand.action this) st.1 in
  if animate
  then (Animated (start (MoveAnimation.mk model st.1 context false)), this', st.2)
  else (Model model, this', st.2).

(** [MoveCommand.undo] *)
Definition undo (this : MoveCommand.t) (context : CommandExecutionContext.t)
    (h : Heap) : CommandResult * MoveCommand.t * Heap :=
  (Animated (start (MoveAnimation.mk (CommandExecutionContext.root context)
                      (MoveCommand.resolvedMoves this) context true)),
   this, h).

(** [MoveCommand.redo] *)
Definition redo (this : MoveCommand.t) (context : CommandExecutionContext.t)
    (h : Heap) : CommandResult * MoveCommand.t * Heap :=
  (Animated (start (MoveAnimation.mk (CommandExecutionContext.root context)
                      (MoveCommand.resolvedMoves this) context false)),
   this, h).

(** The body of the [forEach] in [MoveCommand.merge]. *)
Definition merge_move (index : SModelIndex) (h : Heap)
    (resolvedMoves : JSMap.t ResolvedElementMove.t) (otherMove : ElementMove.t)
  : JSMap.t ResolvedElementMove.t :=
  match JSMap.get (ElementMove.elementId otherMove) resolvedMoves with
  | Some existingMove =>
      JSMap.set (ElementMove.elementId otherMove)
        (ResolvedElementMove.set_toPosition (ElementMove.toPosition otherMove)
           existingMove)
        resolvedMoves
  | None =>
      match resolve otherMove index h with
      | Some resolvedMove =>
          JSMap.set (ResolvedElementMove.elementId resolvedMove) resolvedMove
            resolvedMoves
      | None => resolvedMoves
      end
  end.

(** [command.action.moves.forEach(..)] of [merge]. *)
Definition merge_moves (index : SModelIndex) (h : Heap)
    (otherMoves : list ElementMove.t)
    (resolvedMoves : JSMap.t ResolvedElementMove.t)
  : JSMap.t ResolvedElementMove.t :=
  foldl (merge_move index h) resolvedMoves otherMoves.

(** [MoveCommand.merge]: the result and the receiver's new state. *)
Definition merge (this : MoveCommand.t) (command : ICommand)
    (context : CommandExecutionContext.t) (h : Heap) : bool * MoveCommand.t :=
  match MoveAction.animate (MoveCommand.action this),
        instanceofMoveCommand command with
  | false, Some other =>
      (true,
       MoveCommand.mk (MoveCommand.action this)
         (merge_moves (SModelRoot.index (CommandExecutionContext.root context)) h
            (MoveAction.moves (MoveCommand.action other))
            (MoveCommand.resolvedMoves this)))
  | _, _ => (false, this)
  end.

(** The two interpolations of [MoveAnimation.tween]. *)
Definition tween_position (reverse : bool) (t : number)
    (elementMove : ResolvedElementMove.t) : Point.t :=
  let fromPosition := ResolvedElementMove.fromPosition elementMove in
  let toPosition := ResolvedElementMove.toPosition elementMove in
  if reverse
  then Point.mk ((one - t) * Point.x toPosition + t * Point.x fromPosition)%num
                ((one - t) * Point.y toPosition + t * Point.y fromPosition)%num
  else Point.mk ((one - t) * Point.x fromPosition + t * Point.x toPosition)%num
                ((one - t) * Point.y fromPosition + t * Point.y toPosition)%num.

(** [MoveAnimation.tween] *)
Definition tween (this : MoveAnimation.t) (t : number) (h : Heap)
  : SModelRoot.t * Heap :=
  (MoveAnimation.model this,
   JSMap.forEach
     (λ h elementMove,
        alter (SModelElement.set_position
                 (tween_position (MoveAnimation.reverse this) t elementMove))
              (ResolvedElementMove.element elementMove) h)
     (MoveAnimation.elementMoves this) h).

End Move.

(** ** The select command *)

Module Select.

(** [children.indexOf(element)] *)
Fixpoint indexOf (element : loc) (children : list loc) : option nat :=
  match children with
  | [] => None
  | c :: cs => if decide (c = element) then Some 0 else S <$> indexOf element cs
  end.

(** Modelled from the spec: "move-to-end" of the scene graph's child
    ordering operations. *)
Definition moveToEnd (element : loc) (children : list loc) : list loc :=
  filter (λ c, c ≠ element) children ++ [element].

(** Modelled from the spec: putting a child back at an index ("insert-at"
    after "remove"). *)
Definition moveTo (element : loc) (i : nat) (children : list loc) : list loc :=
  let rest := filter (λ c, c ≠ element) children in
  take i rest ++ element :: drop i rest.

(** Modelled from the spec: execute, for one id of [selectedIds]: "resolve
    via Index; if resolved and not already selected, record prior state,
    set selected=true, and move the element to the end of its parent's
    children".  An element without a parent, the root, has no sequence to
    be moved in. *)
Definition select_one (index : SModelIndex)
    (st : list Selection.t * Heap) (id : string) : list Selection.t * Heap :=
  match getById index st.2 id with
  | Some (element, obj) =>
      if SModelElement.selected obj then st
      else
        let h := alter (SModelElement.set_selected true) element st.2 in
        let unmoved := (st.1 ++ [Selection.mk element false None], h) in
        match SModelElement.parent obj with
        | Some p =>
            match h !! p with
            | Some pobj =>
                match indexOf element (SModelElement.children pobj) with
                | Some i =>
                    (st.1 ++ [Selection.mk element false (Some (p, i))],
                     alter (SModelElement.set_children
                              (moveToEnd element (SModelElement.children pobj)))
                           p h)
                | None => unmoved
                end
            | None => unmoved
            end
        | None => unmoved
        end
  | None => st
  end.

(** Modelled from the spec: execute, for one id of [deselectedIds]:
    "resolve; if resolved and selected, record prior state, set
    selected=false (no reorder on deselect)". *)
Definition deselect_one (index : SModelIndex)
    (st : list Selection.t * Heap) (id : string) : list Selection.t * Heap :=
  match getById index st.2 id with
  | Some (element, obj) =>
      if SModelElement.selected obj
      then (st.1 ++ [Selection.mk element true None],
            alter (SModelElement.set_selected false) element st.2)
      else st
  | None => st
  end.

(** Modelled from the spec: [SelectCommand.execute(model)]: the ids to
    select first, then the ids to deselect; "returns the mutated model
    (same identity)". *)
Definition execute (this : SelectCommand.t) (model : SModelRoot.t) (h : Heap)
  : SModelRoot.t * SelectCommand.t * Heap :=
  let index := SModelRoot.index model in
  let st1 := foldl (select_one index) (SelectCommand.touched this, h)
               (SelectAction.selectedIds (SelectCommand.action this)) in
  let st2 := foldl (deselect_one index) st1
               (SelectAction.deselectedIds (SelectCommand.action this)) in
  (model, SelectCommand.mk (SelectCommand.action this) st2.1, st2.2).

(** Modelled from the spec: undoing one recorded entry restores the prior
    child order and the prior selected flag. *)
Definition undo_one (h : Heap) (s : Selection.t) : Heap :=
  let h' :=
    match Selection.place s with
    | Some (p, i) =>
        alter (λ pobj, SModelElement.set_children
                         (moveTo (Selection.element s) i
                            (SModelElement.children pobj)) pobj) p h
    | None => h
    end in
  alter (SModelElement.set_selected (Selection.wasSelected s))
        (Selection.element s) h'.

(** Modelled from the spec: [SelectCommand.undo(model)] "restores prior
    selected flags and prior child order for every element touched, in
    reverse of execute's effects". *)
Definition undo (this : SelectCommand.t) (model : SModelRoot.t) (h : Heap)
  : SModelRoot.t * SelectCommand.t * Heap :=
  (model, this, foldl undo_one h (reverse (SelectCommand.touched this))).

(** Modelled from the spec: redoing one recorded entry: the flag is set
    to the opposite of the recorded one, and an element that execute moved
    is moved to the end of its parent's children again. *)
Definition redo_one (h : Heap) (s : Selection.t) : Heap :=
  let h' :=
    alter (SModelElement.set_selected (negb (Selection.wasSelected s)))
          (Selection.element s) h in
  match Selection.place s with
  | Some (p, _) =>
      alter (λ pobj, SModelElement.set_children
                       (moveToEnd (Selection.element s)
                          (SModelElement.children pobj)) pobj) p h'
  | None => h'
  end.

(** Modelled from the spec: [SelectCommand.redo(model)] is "equivalent to
    re-running execute using the cached resolution from the initial
    execute". *)
Definition redo (this : SelectCommand.t) (model : SModelRoot.t) (h : Heap)
  : SModelRoot.t * SelectCommand.t * Heap :=
  (model, this, foldl redo_one h (SelectCommand.touched this)).

(** Modelled from the spec: [SelectCommand.merge(other, context)] "always
    returns false"; it touches neither command nor model. *)
Definition merge (this : SelectCommand.t) (command : ICommand)
    (context : CommandExecutionContext.t) (h : Heap)
  : bool * SelectCommand.t * Heap :=
  (false, this, h).

(** A fresh command for an action. *)
Definition new (action : SelectAction.t) : SelectCommand.t :=
  SelectCommand.mk action [].

(** The test's [getNodeIndex]: the index of an element among the children
    of a parent object. *)
Definition childIndex (h : Heap) (p element : loc) : option nat :=
  match h !! p with
  | Some pobj => indexOf element (SModelElement.children pobj)
  | None => None
  end.

(** The index of an element in its own parent's child sequence. *)
Definition indexInParent (h : Heap) (element : loc) : option nat :=
  match h !! element with
  | Some obj =>
      match SModelElement.parent obj with
      | Some p => childIndex h p element
      | None => None
      end
  | None => None
  end.

(** The test's [isNodeSelected]. *)
Definition isSelected (h : Heap) (element : loc) : option bool :=
  SModelElement.selected <$> h !! element.

(** Ownership in the scene graph: a child sequence holds each child once. *)
Definition children_once (h : Heap) : Prop :=
  map_Forall (λ _ obj, NoDup (SModelElement.children obj)) h.

End Select.

(** ** The object store

    Command objects live in a store next to the element heap, so that a
    method call can be given the receiver and the argument by reference
    (they may be one and the same object). *)

(** The identity of a command object. *)
Definition cref : Type := nat.

Module World.
Record t : Type := mk { elements : Heap; commands : gmap cref ICommand }.
End World.

(** [receiver.merge(command, context)] on two live command objects. *)
Definition call_merge (receiver command : cref)
    (context : CommandExecutionContext.t) (w : World.t)
  : option (bool * World.t) :=
  match World.commands w !! receiver, World.commands w !! command with
  | Some (AMoveCommand this), Some other =>
      let r := Move.merge this other context (World.elements w) in
      Some (r.1, World.mk (World.elements w)
                   (<[receiver := AMoveCommand r.2]> (World.commands w)))
  | Some (ASelectCommand this), Some other =>
      let r := Select.merge this other context (World.elements w) in
      Some (r.1.1, World.mk r.2
                     (<[receiver := ASelectCommand r.1.2]> (World.commands w)))
  | _, _ => None
  end.

(** ** local-model-source.ts: the matches of [removeElements] *)

Module LocalModelSource.

(** An entry of the argument: an id, or an id with its parent's id. *)
Inductive Removal : Type :=
  | ById (elementId : string)
  | ByIdAndParent (elementId parentId : string).

Module Match.
Record t : Type := mk { left : loc; leftParentId : string }.
End Match.

(** The body of the loop of [removeElements]; [index] is the index built
    from the current root, [rootId] is [this.currentRoot.id]. *)
Definition removeElement (index : SModelIndex) (rootId : string)
    (matches : list Match.t) (e : Removal) : list Match.t :=
  match e with
  | ByIdAndParent elementId parentId =>
      match index !! elementId with
      | Some element => matches ++ [Match.mk element parentId]
      | None => matches
      end
  | ById elementId =>
      match index !! elementId with
      | Some element => matches ++ [Match.mk element rootId]
      | None => matches
      end
  end.

(** The matches [removeElements] hands to [applyMatches]. *)
Definition removeElements (index : SModelIndex) (rootId : string)
    (elements : list Removal) : list Match.t :=
  foldl (removeElement index rootId) [] elements.

End LocalModelSource.

(** ** Vocabulary of the statements *)

(** The moves of a batch that name the element id [id], in order. *)
Definition movesFor (id : string) (moves : list ElementMove.t) : list ElementMove.t :=
  filter (λ m, ElementMove.elementId m = id) moves.

(** The last entry, in iteration order, of a [resolvedMoves] map that
    refers to the element object [l]: the one whose write to [l] stays. *)
Definition lastWriter (m : JSMap.t ResolvedElementMove.t) (l : loc)
  : option ResolvedElementMove.t :=
  last (filter (λ r, ResolvedElementMove.element r = l) m.*2).

(** The last move of a batch whose id the index maps to the element [l]. *)
Definition lastMoveTo (index : SModelIndex) (moves : list ElementMove.t) (l : loc)
  : option ElementMove.t :=
  last (filter (λ m, index !! ElementMove.elementId m = Some l) moves).

(** A point whose two coordinates are finite binary64 numbers. *)
Definition finitePoint (p : Point.t) : bool :=
  Number.isFinite (Point.x p) && Number.representable (Point.x p)
  && Number.isFinite (Point.y p) && Number.representable (Point.y p).

(** The child sequence of the element object [p]. *)
Definition childrenOf (h : Heap) (p : loc) : option (list loc) :=
  SModelElement.children <$> h !! p.

(** Some id of [ids] is registered for the element object [l]. *)
Definition targets (index : SModelIndex) (ids : list string) (l : loc) : Prop :=
  Exists (λ id, index !! id = Some l) ids.

Global Instance targets_dec index ids l : Decision (targets index ids l) :=
  Exists_dec _ ids.

(** What one step of [Select.execute] leaves behind: the entries [ext] it
    appended to the log undo it, and redo it. *)
Definition step_recorded
    (step : list Selection.t * Heap → string → list Selection.t * Heap) : Prop :=
  ∀ log h id, Select.children_once h →
    ∃ ext, (step (log, h) id).1 = log ++ ext
      ∧ foldl Select.undo_one (step (log, h) id).2 (reverse ext) = h
      ∧ foldl Select.redo_one h ext = (step (log, h) id).2
      ∧ Select.children_once (step (log, h) id).2.

(** ** The test model of select.spec.ts, and a drag

    The graph owns [node1] and [node0], in this order; [node0] is
    selected.  References: 0 is the graph, 1 is [node0], 2 is [node1]. *)

Definition ofZ (z : Z) : number :=
  binary_normalize Number.prec Number.emax z 0 false.

Definition infinity : number := S754_infinity false.

Definition point (a b : Z) : Point.t := Point.mk (ofZ a) (ofZ b).

Definition graph : SModelElement.t :=
  SModelElement.mk "graph" (point 0 0) false None [2; 1].
Definition node0 : SModelElement.t :=
  SModelElement.mk "node0" (point 100 100) true (Some 0) [].
Definition node1 : SModelElement.t :=
  SModelElement.mk "node1" (point 200 200) false (Some 0) [].

Definition initialHeap : Heap := <[0 := graph]> (<[1 := node0]> (<[2 := node1]> ∅)).
Definition initialIndex : SModelIndex :=
  <["graph" := 0]> (<["node0" := 1]> (<["node1" := 2]> ∅)).
Definition initialModel : SModelRoot.t := SModelRoot.mk 0 initialIndex.
Definition testContext : CommandExecutionContext.t :=
  CommandExecutionContext.mk initialModel (ofZ 0).

(** [new SelectAction(['node1'], ['node0'])] and its command. *)
Definition mySelectAction : SelectAction.t := SelectAction.mk ["node1"] ["node0"].
Definition cmd : SelectCommand.t := Select.new mySelectAction.

(** A drag of [node0]: a first non-animated move to (110, 110), then a
    second one to (120, 120) that also moves [node1] and names an id,
    [ghost], that the index does not hold. *)
Definition firstDrag : MoveCommand.t :=
  MoveCommand.mk (MoveAction.mk [ElementMove.mk None "node0" (point 110 110)] false) [].
Definition secondMoves : list ElementMove.t :=
  [ElementMove.mk None "node0" (point 120 120);
   ElementMove.mk None "ghost" (point 1 1);
   ElementMove.mk None "node1" (point 220 220)].
Definition secondDrag : MoveCommand.t :=
  MoveCommand.mk (MoveAction.mk secondMoves false) [].

Definition dragging : MoveCommand.t := (Move.execute firstDrag testContext initialHeap).1.2.
Definition draggedHeap : Heap := (Move.execute firstDrag testContext initialHeap).2.

(** The objects after the first drag: the three commands and the heap. *)
Definition dragWorld : World.t :=
  World.mk draggedHeap
    (<[0 := AMoveCommand dragging]>
       (<[1 := AMoveCommand secondDrag]> (<[2 := ASelectCommand cmd]> ∅))).

(** An animation whose start has an infinite coordinate. *)
Definition fromInfinity : MoveAnimation.t :=
  MoveAnimation.mk initialModel
    [("node0", ResolvedElementMove.mk (Point.mk infinity (ofZ 0)) "node0" 1 (point 5 5))]
    testContext false.

(** A forward animation between two finite points. *)
Definition finiteAnimation : MoveAnimation.t :=
  MoveAnimation.mk initialModel
    [("node0", ResolvedElementMove.mk (point 100 100) "node0" 1 (point 110 110))]
    testContext false.

(** ** move.tsx: [MoveMouseListener] *)

(** [a / b] on numbers. *)
Definition divide (a b : number) : number := SFdiv Number.prec Number.emax a b.
Infix "/" := divide : number_scope.

(** The fields of the browser's [MouseEvent] that the listener reads. *)
Module MouseEvent.
Record t : Type := mk {
  button : Z;
  buttons : Z;
  clientX : number;
  clientY : number
}.
End MouseEvent.

(** What the model functions that are not among the sources answer when
    the listener calls them: [isMoveable(element)] of features/move/model,
    [isSelectable(element)] of features/select/model, and, for
    [getParent<Viewport>(target, isViewport)], the zoom of the viewport
    found, if one is found. *)
Module Features.
Record t : Type := mk {
  isMoveable : loc → bool;
  isSelectable : loc → bool;
  viewportZoom : loc → option number
}.
End Features.

(** Modelled from the spec: [all() -> sequence of Element], "unordered
    over all registered elements". *)
Definition all (index : SModelIndex) : list loc := (map_to_list index).*2.

Module MoveMouseListener.

Record t : Type := mk {
  hasDragged : bool;
  lastDragPosition : option Point.t
}.

(** The field initialisers. *)
Definition new : t := mk false None.

(** [mouseDown] *)
Definition mouseDown (this : t) (features : Features.t) (target : loc)
    (event : MouseEvent.t) : t * list MoveAction.t :=
  if decide (MouseEvent.button event = 0%Z)
  then
    (mk false
       (if Features.isMoveable features target
        then Some (Point.mk (MouseEvent.clientX event) (MouseEvent.clientY event))
        else None),
     [])
  else (this, []).

(** [mouseUp] *)
Definition mouseUp (this : t) (target : loc) (event : MouseEvent.t)
  : t * list MoveAction.t :=
  (mk false None, []).

(** The test of the [filter] in [mouseMove]. *)
Definition isSelected (features : Features.t) (h : Heap) (element : loc) : bool :=
  Features.isSelectable features element
  && from_option SModelElement.selected false (h !! element).

(** The body of the [forEach] in [mouseMove]: the move pushed for an
    element, if one is.  What the index holds are objects of the heap. *)
Definition nodeMove (features : Features.t) (h : Heap) (dx dy : number)
    (element : loc) : option ElementMove.t :=
  match h !! element with
  | Some obj =>
      if Features.isMoveable features element
      then Some (ElementMove.mk None (SModelElement.id obj)
                   (Point.mk (Point.x (SModelElement.position obj) + dx)%num
                             (Point.y (SModelElement.position obj) + dy)%num))
      else None
  | None => None
  end.

(** [mouseMove]; [model] is [target.root]. *)
Definition mouseMove (this : t) (features : Features.t) (h : Heap)
    (model : SModelRoot.t) (target : loc) (event : MouseEvent.t)
  : t * list MoveAction.t :=
  if decide (MouseEvent.buttons event = 0%Z)
  then ((mouseUp this target event).1, [])
  else
    match lastDragPosition this with
    | Some last =>
        let zoom := default Number.one (Features.viewportZoom features target) in
        let dx := ((MouseEvent.clientX event - Point.x last) / zoom)%num in
        let dy := ((MouseEvent.clientY event - Point.y last) / zoom)%num in
        let nodeMoves :=
          omap (nodeMove features h dx dy)
            (filter (λ element, isSelected features h element = true)
               (all (SModelRoot.index model))) in
        let this' :=
          mk true
            (Some (Point.mk (MouseEvent.clientX event) (MouseEvent.clientY event))) in
        if decide (0 < length nodeMoves)
        then (this', [MoveAction.mk nodeMoves false])
        else (this', [])
    | None => (this, [])
    end.

End MoveMouseListener.

(** A call of one of the listener's methods, with what the model holds and
    answers at the time of the call. *)
Inductive MouseCall : Type :=
  | MouseDown (features : Features.t) (target : loc) (event : MouseEvent.t)
  | MouseMove (features : Features.t) (h : Heap) (model : SModelRoot.t)
      (target : loc) (event : MouseEvent.t)
  | MouseUp (target : loc) (event : MouseEvent.t).

Definition call (this : MoveMouseListener.t) (c : MouseCall)
  : MoveMouseListener.t * list MoveAction.t :=
  match c with
  | MouseDown features target event =>
      MoveMouseListener.mouseDown this features target event
  | MouseMove features h model target event =>
      MoveMouseListener.mouseMove this features h model target event
  | MouseUp target event => MoveMouseListener.mouseUp this target event
  end.

(** A sequence of calls on one listener: its state afterwards, and the
    actions it returned, in order. *)
Definition calls (this : MoveMouseListener.t) (cs : list MouseCall)
  : MoveMouseListener.t * list MoveAction.t :=
  foldl (λ st c, let r := call st.1 c in (r.1, st.2 ++ r.2)) (this, []) cs.

(** A press of the primary button on a moveable element. *)
Definition pressesMoveable (c : MouseCall) : Prop :=
  match c with
  | MouseDown features target event =>
      MouseEvent.button event = 0%Z ∧ Features.isMoveable features target = true
  | _ => False
  end.

(** ** local-model-source.ts: submitting models

    The model source is written against collaborators that are not among
    the sources (dispatcher, layout engine, model providers, model
    matching).  What they are given is recorded as an effect; what they
    answer is an argument of the call. *)

(** A root schema, passed by reference.  Of its fields the model source
    reads [type] and [id], and writes neither. *)
Module SModelRootSchema.
Record t : Type := mk { ref : loc; type : string; id : string }.
End SModelRootSchema.

(** A [Match] of features/update/model-matching, with the fields the model
    source sets. *)
Module ModelMatch.
Record t : Type := mk {
  left : option loc;
  right : option loc;
  leftParentId : option string;
  rightParentId : option string
}.
End ModelMatch.

(** The identity of a [Deferred]. *)
Definition deferred : Type := nat.

(** The [update] argument: [boolean | Match[]]. *)
Inductive Update : Type :=
  | UpdateFlag (b : bool)
  | UpdateMatches (matches : list ModelMatch.t).

(** The input of an [UpdateModelAction]: [Match[]] or a root. *)
Inductive UpdateInput : Type :=
  | InputMatches (matches : list ModelMatch.t)
  | InputRoot (root : SModelRootSchema.t).

(** The actions the model source dispatches. *)
Inductive DispatchedAction : Type :=
  | RequestBoundsAction (newRoot : SModelRootSchema.t)
  | UpdateModelAction (input : UpdateInput)
  | SetModelAction (newRoot : SModelRootSchema.t)
  | SetPopupModelAction (popupRoot : SModelRootSchema.t).

(** What the model source does to its collaborators, in order. *)
Inductive Effect : Type :=
  | Dispatch (action : DispatchedAction)
  | LogError
  | Resolve (d : deferred)
  | SaveAs (fileName : string).

(** [ExpansionState] of model-source/diagram-state, by what was done to
    it. *)
Inductive ExpansionState : Type :=
  | NewExpansionState (root : SModelRootSchema.t)
  | Apply (state : ExpansionState)
  | CollapseAll (state : ExpansionState).

(** What [layoutEngine.layout(newRoot, index)] does: it throws (an error
    that [toString] can or cannot be called on), or returns [undefined], a
    root, or a [Promise]. *)
Inductive LayoutResult : Type :=
  | LayoutThrows (printable : bool)
  | LayoutUndefined
  | LayoutRoot (root : SModelRootSchema.t)
  | LayoutPromise.

(** How an awaited promise settles. *)
Inductive Settled (A : Type) : Type :=
  | Fulfilled (value : A)
  | Rejected (printable : bool).
Arguments Fulfilled {A} value.
Arguments Rejected {A} printable.

(** Where an [async doSubmitModel] waits: for the layout, or for the
    dispatch. *)
Inductive Awaiting : Type :=
  | AwaitLayout (newRoot : SModelRootSchema.t) (update : Update)
  | AwaitDispatch (updates : list deferred).

(** The promise a method returns: that of a [Deferred], or that of a call
    of [doSubmitModel]. *)
Inductive Returned : Type :=
  | DeferredPromise (d : deferred)
  | SubmitPromise.

(** What the collaborators answer during a call: [viewerOptions
    .needsClientLayout]; the layout engine's result, if there is an
    engine; [modelProvider.getModel(..)], if there is a provider;
    [popupModelProvider.getPopupModel(..)], if there is one. *)
Module Answers.
Record t : Type := mk {
  needsClientLayout : bool;
  layout : option LayoutResult;
  getModel : option SModelRootSchema.t;
  getPopupModel : option (option SModelRootSchema.t)
}.
End Answers.

(** An entry of the argument of [addElements], of one of the two shapes of
    its type: a schema, which has an id, or a schema with the id of its
    parent. *)
Inductive Addition : Type :=
  | AddElement (element : loc)
  | AddToParent (element : loc) (parentId : string).

(** The actions [handle] knows, and the others. *)
Inductive IncomingAction : Type :=
  | RequestModelAction
  | ComputedBoundsAction
  | RequestPopupModelAction
  | ExportSvgAction
  | CollapseExpandAction
  | CollapseExpandAllAction (expand : bool)
  | OtherAction.

Module LocalSource.

(** The fields of a [LocalModelSource]; [created] counts the [Deferred]s
    made so far, which gives each its identity. *)
Record t : Type := mk {
  currentRoot : SModelRootSchema.t;
  expansionState : ExpansionState;
  lastSubmittedModelType : option string;
  pendingUpdates : list deferred;
  created : nat
}.

(** The field initialisers. *)
Definition new : t :=
  let currentRoot := SModelRootSchema.mk 0 "NONE" "ROOT" in
  mk currentRoot (NewExpansionState currentRoot) None [] 0.

(** The outcome of a call, up to where it returns or waits. *)
Record Outcome : Type := outcome {
  state : t;
  effects : list Effect;
  awaiting : option Awaiting;
  returned : option Returned
}.

(** [if (update ..)] *)
Definition truthy (update : Update) : bool :=
  match update with
  | UpdateFlag b => b
  | UpdateMatches _ => true
  end.

(** [doSubmitModel], from [const lastSubmittedModelType = ..] to the
    [await] of the dispatch. *)
Definition submit (this : t) (newRoot : SModelRootSchema.t) (update : Update)
  : t * list Effect * option Awaiting :=
  let lastSubmittedModelType := lastSubmittedModelType this in
  let updates := pendingUpdates this in
  let this' :=
    mk (currentRoot this) (expansionState this)
       (Some (SModelRootSchema.type newRoot)) [] (created this) in
  if truthy update
     && bool_decide (Some (SModelRootSchema.type newRoot) = lastSubmittedModelType)
  then
    let input :=
      match update with
      | UpdateMatches matches => InputMatches matches
      | UpdateFlag _ => InputRoot newRoot
      end in
    (this', [Dispatch (UpdateModelAction input)], Some (AwaitDispatch updates))
  else (this', [Dispatch (SetModelAction newRoot)], Some (AwaitDispatch updates)).

(** [doSubmitModel], from its start to where it first waits. *)
Definition doSubmitModel (this : t) (answers : Answers.t)
    (newRoot : SModelRootSchema.t) (update : Update)
  : t * list Effect * option Awaiting :=
  match Answers.layout answers with
  | None => submit this newRoot update
  | Some (LayoutThrows true) =>
      let r := submit this newRoot update in (r.1.1, LogError :: r.1.2, r.2)
  | Some (LayoutThrows false) => (this, [], None)
  | Some LayoutUndefined => submit this newRoot update
  | Some (LayoutRoot layoutResult) => submit this layoutResult update
  | Some LayoutPromise => (this, [], Some (AwaitLayout newRoot update))
  end.

(** [doSubmitModel], from [await layoutResult] on. *)
Definition afterLayout (this : t) (newRoot : SModelRootSchema.t) (update : Update)
    (layoutResult : Settled SModelRootSchema.t)
  : t * list Effect * option Awaiting :=
  match layoutResult with
  | Fulfilled newRoot' => submit this newRoot' update
  | Rejected true =>
      let r := submit this newRoot update in (r.1.1, LogError :: r.1.2, r.2)
  | Rejected false => (this, [], None)
  end.

(** [doSubmitModel], from the [await] of the dispatch on. *)
Definition afterDispatch (updates : list deferred) (dispatched : Settled unit)
  : list Effect :=
  match dispatched with
  | Fulfilled _ => Resolve <$> updates
  | Rejected _ => []
  end.

(** [submitModel] *)
Definition submitModel (this : t) (answers : Answers.t)
    (newRoot : SModelRootSchema.t) (update : Update) : Outcome :=
  if Answers.needsClientLayout answers
  then
    let d : deferred := created this in
    outcome
      (mk (currentRoot this) (expansionState this) (lastSubmittedModelType this)
          (pendingUpdates this ++ [d]) (S (created this)))
      [Dispatch (RequestBoundsAction newRoot)] None (Some (DeferredPromise d))
  else
    let r := doSubmitModel this answers newRoot update in
    outcome r.1.1 r.1.2 r.2 (Some SubmitPromise).

Definition set_currentRoot (root : SModelRootSchema.t) (this : t) : t :=
  mk root (expansionState this) (lastSubmittedModelType this)
     (pendingUpdates this) (created this).

Definition set_expansionState (s : ExpansionState) (this : t) : t :=
  mk (currentRoot this) s (lastSubmittedModelType this)
     (pendingUpdates this) (created this).

(** [setModel] *)
Definition setModel (this : t) (answers : Answers.t) (newRoot : SModelRootSchema.t)
  : Outcome :=
  submitModel
    (set_expansionState (NewExpansionState newRoot) (set_currentRoot newRoot this))
    answers newRoot (UpdateFlag false).

(** [updateModel] *)
Definition updateModel (this : t) (answers : Answers.t)
    (newRoot : option SModelRootSchema.t) : Outcome :=
  match newRoot with
  | None => submitModel this answers (currentRoot this) (UpdateFlag true)
  | Some newRoot =>
      submitModel (set_currentRoot newRoot this) answers newRoot (UpdateFlag true)
  end.

(** [applyMatches]; what [applyMatches(root, matches)] of model-matching
    does to the elements below the root is not stated here. *)
Definition applyMatches (this : t) (answers : Answers.t)
    (matches : list ModelMatch.t) : Outcome :=
  submitModel this answers (currentRoot this) (UpdateMatches matches).

(** The matches of [addElements]. *)
Definition additions (rootId : string) (elements : list Addition)
  : list ModelMatch.t :=
  foldl
    (λ matches e,
       match e with
       | AddToParent element parentId =>
           matches ++ [ModelMatch.mk None (Some element) None (Some parentId)]
       | AddElement element =>
           matches ++ [ModelMatch.mk None (Some element) None (Some rootId)]
       end)
    [] elements.

(** [addElements] *)
Definition addElements (this : t) (answers : Answers.t) (elements : list Addition)
  : Outcome :=
  applyMatches this answers
    (additions (SModelRootSchema.id (currentRoot this)) elements).

(** A match as [removeElements] pushes it. *)
Definition removal (m : LocalModelSource.Match.t) : ModelMatch.t :=
  ModelMatch.mk (Some (LocalModelSource.Match.left m)) None
    (Some (LocalModelSource.Match.leftParentId m)) None.

(** [removeElements]; [index] is the index built from the current root. *)
Definition removeElements (this : t) (answers : Answers.t) (index : SModelIndex)
    (elements : list LocalModelSource.Removal) : Outcome :=
  applyMatches this answers
    (removal <$>
       LocalModelSource.removeElements index
         (SModelRootSchema.id (currentRoot this)) elements).

(** [handleRequestModel] *)
Definition handleRequestModel (this : t) (answers : Answers.t) : Outcome :=
  let this' :=
    match Answers.getModel answers with
    | Some root => set_currentRoot root this
    | None => this
    end in
  let r := submitModel this' answers (currentRoot this') (UpdateFlag false) in
  outcome (state r) (effects r) (awaiting r) None.

(** [handleComputedBounds]; what [applyBounds] and [applyAlignment] write
    to the elements below the root is not stated here. *)
Definition handleComputedBounds (this : t) (answers : Answers.t) : Outcome :=
  let r := doSubmitModel this answers (currentRoot this) (UpdateFlag true) in
  outcome r.1.1 r.1.2 r.2 None.

(** [handleRequestPopupModel] *)
Definition handleRequestPopupModel (this : t) (answers : Answers.t) : Outcome :=
  match Answers.getPopupModel answers with
  | Some (Some popupRoot) =>
      outcome this [Dispatch (SetPopupModelAction popupRoot)] None None
  | _ => outcome this [] None None
  end.

(** [handleExportSvgAction] *)
Definition handleExportSvgAction (this : t) : Outcome :=
  outcome this [SaveAs "diagram.svg"] None None.

(** [handleCollapseExpandAction] *)
Definition handleCollapseExpandAction (this : t) (answers : Answers.t) : Outcome :=
  match Answers.getModel answers with
  | Some expandedModel =>
      let r := updateModel (set_expansionState (Apply (expansionState this)) this)
                 answers (Some expandedModel) in
      outcome (state r) (effects r) (awaiting r) None
  | None => outcome this [] None None
  end.

(** [handleCollapseExpandAllAction] *)
Definition handleCollapseExpandAllAction (this : t) (answers : Answers.t)
    (expand : bool) : Outcome :=
  match Answers.getModel answers with
  | Some expandedModel =>
      let this' :=
        if expand then this
        else set_expansionState (CollapseAll (expansionState this)) this in
      let r := updateModel this' answers (Some expandedModel) in
      outcome (state r) (effects r) (awaiting r) None
  | None => outcome this [] None None
  end.

(** [handle] *)
Definition handle (this : t) (answers : Answers.t) (action : IncomingAction)
  : Outcome :=
  match action with
  | RequestModelAction => handleRequestModel this answers
  | ComputedBoundsAction => handleComputedBounds this answers
  | RequestPopupModelAction => handleRequestPopupModel this answers
  | ExportSvgAction => handleExportSvgAction this
  | CollapseExpandAction => handleCollapseExpandAction this answers
  | CollapseExpandAllAction expand => handleCollapseExpandAllAction this answers expand
  | OtherAction => outcome this [] None None
  end.

End LocalSource.

(** What happens to a model source: a method is called, or the promise
    that the [i]-th waiting call of [doSubmitModel] waits for settles. *)
Inductive SourceEvent : Type :=
  | CallSetModel (answers : Answers.t) (newRoot : SModelRootSchema.t)
  | CallUpdateModel (answers : Answers.t) (newRoot : option SModelRootSchema.t)
  | CallApplyMatches (answers : Answers.t) (matches : list ModelMatch.t)
  | CallAddElements (answers : Answers.t) (elements : list Addition)
  | CallRemoveElements (answers : Answers.t) (index : SModelIndex)
      (elements : list LocalModelSource.Removal)
  | CallHandle (answers : Answers.t) (action : IncomingAction)
  | LayoutSettles (i : nat) (layoutResult : Settled SModelRootSchema.t)
  | DispatchSettles (i : nat) (dispatched : Settled unit).

(** A model source with the calls of [doSubmitModel] that wait, and the
    effects so far. *)
Module Running.
Record t : Type := mk {
  source : LocalSource.t;
  waiting : list Awaiting;
  trace : list Effect
}.
End Running.

Definition started : Running.t := Running.mk LocalSource.new [] [].

(** A call returns, or waits. *)
Definition called (r : Running.t) (o : LocalSource.Outcome) : Running.t :=
  Running.mk (LocalSource.state o)
    (Running.waiting r ++ option_list (LocalSource.awaiting o))
    (Running.trace r ++ LocalSource.effects o).

Definition happen (r : Running.t) (e : SourceEvent) : Running.t :=
  let this := Running.source r in
  match e with
  | CallSetModel answers newRoot => called r (LocalSource.setModel this answers newRoot)
  | CallUpdateModel answers newRoot =>
      called r (LocalSource.updateModel this answers newRoot)
  | CallApplyMatches answers matches =>
      called r (LocalSource.applyMatches this answers matches)
  | CallAddElements answers elements =>
      called r (LocalSource.addElements this answers elements)
  | CallRemoveElements answers index elements =>
      called r (LocalSource.removeElements this answers index elements)
  | CallHandle answers action => called r (LocalSource.handle this answers action)
  | LayoutSettles i layoutResult =>
      match Running.waiting r !! i with
      | Some (AwaitLayout newRoot update) =>
          let o := LocalSource.afterLayout this newRoot update layoutResult in
          Running.mk o.1.1 (delete i (Running.waiting r) ++ option_list o.2)
            (Running.trace r ++ o.1.2)
      | _ => r
      end
  | DispatchSettles i dispatched =>
      match Running.waiting r !! i with
      | Some (AwaitDispatch updates) =>
          Running.mk this (delete i (Running.waiting r))
            (Running.trace r ++ LocalSource.afterDispatch updates dispatched)
      | _ => r
      end
  end.

Definition happened (es : list SourceEvent) : Running.t := foldl happen started es.

(** A model reaches the view: [SetModelAction] or [UpdateModelAction]. *)
Definition submits (e : Effect) : bool :=
  match e with
  | Dispatch (SetModelAction _) | Dispatch (UpdateModelAction _) => true
  | _ => false
  end.

Definition setsModel (e : Effect) : bool :=
  match e with
  | Dispatch (SetModelAction _) => true
  | _ => false
  end.

(** The [Deferred]s a trace resolves, in order. *)
Definition resolved (trace : list Effect) : list deferred :=
  omap (λ e, match e with Resolve d => Some d | _ => None end) trace.

(** The [Deferred]s held by the calls that wait for their dispatch. *)
Definition captured (waiting : list Awaiting) : list deferred :=
  mjoin ((λ w, match w with AwaitDispatch updates => updates | _ => [] end)
         <$> waiting).

(** ** local-model-source.ts: applying computed bounds *)

(** utils/geometry: [Bounds] and [Dimension]. *)
Module Bounds.
Record t : Type := mk { x : number; y : number; width : number; height : number }.
End Bounds.

Module Dimension.
Record t : Type := mk { width : number; height : number }.
End Dimension.

(** An element schema: a plain object.  [applyBounds] and [applyAlignment]
    write its [position], [size] and [alignment], which it may lack. *)
Module SModelElementSchema.
Record t : Type := mk {
  type : string;
  id : string;
  children : list loc;
  position : option Point.t;
  size : option Dimension.t;
  alignment : option Point.t
}.
End SModelElementSchema.

(** The schema objects, by reference. *)
Abbreviation Schemas := (gmap loc SModelElementSchema.t).

Module ElementAndBounds.
Record t : Type := mk { elementId : string; newBounds : Bounds.t }.
End ElementAndBounds.

Module ElementAndAlignment.
Record t : Type := mk { elementId : string; newAlignment : Point.t }.
End ElementAndAlignment.

(** The fields of a [ComputedBoundsAction] that are read. *)
Module ComputedBounds.
Record t : Type := mk {
  bounds : list ElementAndBounds.t;
  alignments : option (list ElementAndAlignment.t)
}.
End ComputedBounds.

(** [applyBounds] *)
Definition applyBounds (element : loc) (newBounds : Bounds.t) (s : Schemas)
  : Schemas :=
  alter
    (λ e, SModelElementSchema.mk (SModelElementSchema.type e)
            (SModelElementSchema.id e) (SModelElementSchema.children e)
            (Some (Point.mk (Bounds.x newBounds) (Bounds.y newBounds)))
            (Some (Dimension.mk (Bounds.width newBounds) (Bounds.height newBounds)))
            (SModelElementSchema.alignment e))
    element s.

(** [applyAlignment] *)
Definition applyAlignment (element : loc) (newAlignment : Point.t) (s : Schemas)
  : Schemas :=
  alter
    (λ e, SModelElementSchema.mk (SModelElementSchema.type e)
            (SModelElementSchema.id e) (SModelElementSchema.children e)
            (SModelElementSchema.position e) (SModelElementSchema.size e)
            (Some (Point.mk (Point.x newAlignment) (Point.y newAlignment))))
    element s.

(** The two loops of [handleComputedBounds]; [index] is the index built
    from the current root. *)
Definition computedBounds (index : SModelIndex) (action : ComputedBounds.t)
    (s : Schemas) : Schemas :=
  let s1 :=
    foldl (λ s b,
             match index !! ElementAndBounds.elementId b with
             | Some element => applyBounds element (ElementAndBounds.newBounds b) s
             | None => s
             end)
          s (ComputedBounds.bounds action) in
  match ComputedBounds.alignments action with
  | Some alignments =>
      foldl (λ s a,
               match index !! ElementAndAlignment.elementId a with
               | Some element =>
                   applyAlignment element (ElementAndAlignment.newAlignment a) s
               | None => s
               end)
            s1 alignments
  | None => s1
  end.

(** The last entry of the bounds, and of the alignments, that names an
    element. *)
Definition lastBounds (index : SModelIndex) (bounds : list ElementAndBounds.t)
    (element : loc) : option Bounds.t :=
  ElementAndBounds.newBounds <$>
    last (filter (λ b, index !! ElementAndBounds.elementId b = Some element) bounds).

Definition lastAlignment (index : SModelIndex)
    (alignments : list ElementAndAlignment.t) (element : loc) : option Point.t :=
  ElementAndAlignment.newAlignment <$>
    last (filter (λ a, index !! ElementAndAlignment.elementId a = Some element)
            alignments).

(** ** move.tsx: [resolve] and [merge] without the cast

    [resolve] casts what the index returns to [SModelElement & Locateable]
    and does not check it.  Here an element object is as the index holds
    it: it may have no [position], and reading a coordinate of a position
    that is not there throws. *)

Module AnyElement.
Record t : Type := mk {
  id : string;
  position : option Point.t;
  selected : bool;
  parent : option loc;
  children : list loc
}.

(** An element that has a position, as it is before the cast. *)
Definition ofLocateable (e : SModelElement.t) : t :=
  mk (SModelElement.id e) (Some (SModelElement.position e))
     (SModelElement.selected e) (SModelElement.parent e) (SModelElement.children e).
End AnyElement.

(** The element objects, by reference, as they are. *)
Abbreviation AnyHeap := (gmap loc AnyElement.t).

(** What a call can throw here. *)
Inductive JSError : Type :=
  | TypeError.

(** How a call ends: it returns a value, or it throws. *)
Inductive Completion (A : Type) : Type :=
  | Returns (value : A)
  | Throws (error : JSError).
Arguments Returns {A} value.
Arguments Throws {A} error.

Module Unchecked.

(** [MoveCommand.resolve]: [element.position.x] throws when the element
    has no position; it is read only when the move gives no
    fromPosition. *)
Definition resolve (move : ElementMove.t) (index : SModelIndex) (h : AnyHeap)
  : Completion (option ResolvedElementMove.t) :=
  match index !! ElementMove.elementId move with
  | Some element =>
      match h !! element with
      | Some obj =>
          match ElementMove.fromPosition move with
          | Some fromPosition =>
              Returns (Some (ResolvedElementMove.mk fromPosition
                               (ElementMove.elementId move) element
                               (ElementMove.toPosition move)))
          | None =>
              match AnyElement.position obj with
              | Some position =>
                  Returns (Some (ResolvedElementMove.mk
                                   (Point.mk (Point.x position) (Point.y position))
                                   (ElementMove.elementId move) element
                                   (ElementMove.toPosition move)))
              | None => Throws TypeError
              end
          end
      | None => Returns None
      end
  | None => Returns None
  end.

(** [command.action.moves.forEach(..)] of [merge]: the error that ends
    the loop, if one does, and the receiver's [resolvedMoves] then. *)
Fixpoint merge_moves (index : SModelIndex) (h : AnyHeap)
    (otherMoves : list ElementMove.t)
    (resolvedMoves : JSMap.t ResolvedElementMove.t)
  : option JSError * JSMap.t ResolvedElementMove.t :=
  match otherMoves with
  | [] => (None, resolvedMoves)
  | otherMove :: otherMoves =>
      match JSMap.get (ElementMove.elementId otherMove) resolvedMoves with
      | Some existingMove =>
          merge_moves index h otherMoves
            (JSMap.set (ElementMove.elementId otherMove)
               (ResolvedElementMove.set_toPosition (ElementMove.toPosition otherMove)
                  existingMove)
               resolvedMoves)
      | None =>
          match resolve otherMove index h with
          | Returns (Some resolvedMove) =>
              merge_moves index h otherMoves
                (JSMap.set (ResolvedElementMove.elementId resolvedMove) resolvedMove
                   resolvedMoves)
          | Returns None => merge_moves index h otherMoves resolvedMoves
          | Throws error => (Some error, resolvedMoves)
          end
      end
  end.

(** [MoveCommand.merge]: how the call ends, and the receiver's state
    then. *)
Definition merge (this : MoveCommand.t) (command : ICommand)
    (context : CommandExecutionContext.t) (h : AnyHeap)
  : Completion bool * MoveCommand.t :=
  match MoveAction.animate (MoveCommand.action this),
        instanceofMoveCommand command with
  | false, Some other =>
      let r :=
        merge_moves (SModelRoot.index (CommandExecutionContext.root context)) h
          (MoveAction.moves (MoveCommand.action other))
          (MoveCommand.resolvedMoves this) in
      (match r.1 with
       | None => Returns true
       | Some error => Throws error
       end,
       MoveCommand.mk (MoveCommand.action this) r.2)
  | _, _ => (Returns false, this)
  end.

End Unchecked.

(** ** More vocabulary of the statements *)

(** Two states of an element that differ at most in the position. *)
Definition same_but_position (o o' : SModelElement.t) : Prop :=
  SModelElement.id o' = SModelElement.id o
  ∧ SModelElement.selected o' = SModelElement.selected o
  ∧ SModelElement.parent o' = SModelElement.parent o
  ∧ SModelElement.children o' = SModelElement.children o.

(** Two heaps with the same elements, which differ at most in their
    positions. *)
Definition moved_only (h h' : Heap) : Prop :=
  ∀ l, match h !! l with
       | Some o => ∃ o', h' !! l = Some o' ∧ same_but_position o o'
       | None => h' !! l = None
       end.

(** Two states of an element that differ at most in the position, and
    whose positions are [===]. *)
Definition same_place (o o' : SModelElement.t) : Prop :=
  same_but_position o o'
  ∧ Number.strictEquals (Point.x (SModelElement.position o'))
      (Point.x (SModelElement.position o)) = true
  ∧ Number.strictEquals (Point.y (SModelElement.position o'))
      (Point.y (SModelElement.position o)) = true.

(** A [resolvedMoves] map whose keys are distinct and whose entries are
    stored under their own [elementId]. *)
Definition wellKeyed (m : JSMap.t ResolvedElementMove.t) : Prop :=
  NoDup m.*1 ∧ Forall (λ kr, ResolvedElementMove.elementId kr.2 = kr.1) m.

(** The moves of a batch, each resolved against the heap [h], in order. *)
Definition resolutions (index : SModelIndex) (h : Heap) (moves : list ElementMove.t)
  : JSMap.t ResolvedElementMove.t :=
  omap (λ m, (λ r, (ElementMove.elementId m, r)) <$> Move.resolve m index h) moves.

(** No two moves of a batch name the same element. *)
Definition distinctTargets (index : SModelIndex) (moves : list ElementMove.t) : Prop :=
  NoDup (omap (λ m, index !! ElementMove.elementId m) moves).

(** A move between finite points. *)
Definition finiteMove (m : ElementMove.t) : Prop :=
  finitePoint (ElementMove.toPosition m) = true
  ∧ from_option finitePoint true (ElementMove.fromPosition m) = true.

(** Two entries with one route: the same key, id, start and element; the
    target is the same or that of one of the [moves]. *)
Definition rerouted (moves : list ElementMove.t)
    (kr kr' : string * ResolvedElementMove.t) : Prop :=
  kr'.1 = kr.1
  ∧ ResolvedElementMove.elementId kr'.2 = ResolvedElementMove.elementId kr.2
  ∧ ResolvedElementMove.fromPosition kr'.2 = ResolvedElementMove.fromPosition kr.2
  ∧ ResolvedElementMove.element kr'.2 = ResolvedElementMove.element kr.2
  ∧ (ResolvedElementMove.toPosition kr'.2 = ResolvedElementMove.toPosition kr.2
     ∨ ∃ m, m ∈ moves
            ∧ ResolvedElementMove.toPosition kr'.2 = ElementMove.toPosition m).

(** The moves [mouseMove] makes for the selected elements. *)
Definition nodeMoves (features : Features.t) (h : Heap) (index : SModelIndex)
    (dx dy : number) : list ElementMove.t :=
  omap (MoveMouseListener.nodeMove features h dx dy)
    (filter (λ element, MoveMouseListener.isSelected features h element = true)
       (all index)).

(** The id an entry of [removeElements] names. *)
Definition removedId (e : LocalModelSource.Removal) : string :=
  match e with
  | LocalModelSource.ById elementId => elementId
  | LocalModelSource.ByIdAndParent elementId _ => elementId
  end.

(** The index holds each element under the element's own id. *)
Definition registeredById (index : SModelIndex) (h : Heap) : Prop :=
  map_Forall
    (λ id element,
       from_option (λ obj, SModelElement.id obj = id) True (h !! element))
    index.

Global Instance registeredById_dec index h : Decision (registeredById index h).
Proof.
  apply map_Forall_dec. intros id element.
  destruct (h !! element); simpl; apply _.
Defined.

(** The models that reached the view, in order. *)
Definition submitted (trace : list Effect) : list Effect :=
  filter (λ e, submits e = true) trace.

(** Every [Deferred] that is still to be resolved or was resolved:
    pending, held by a waiting call, or resolved. *)
Definition accounted (r : Running.t) : list deferred :=
  LocalSource.pendingUpdates (Running.source r)
  ++ captured (Running.waiting r) ++ resolved (Running.trace r).

(** What a piece of the model source that runs without waiting does: it
    resolves nothing; and either it submits nothing, and holds on to the
    pending [Deferred]s or adds a new one, or it submits one model, a set
    model if none was submitted before, and hands the pending [Deferred]s
    to the call that waits for the dispatch. *)
Definition piece (this this' : LocalSource.t) (effects : list Effect)
    (awaiting : option Awaiting) : Prop :=
  resolved effects = []
  ∧ ((LocalSource.lastSubmittedModelType this' = LocalSource.lastSubmittedModelType this
      ∧ submitted effects = []
      ∧ ((LocalSource.pendingUpdates this' = LocalSource.pendingUpdates this
          ∧ LocalSource.created this' = LocalSource.created this
          ∧ captured (option_list awaiting) = [])
         ∨ (LocalSource.pendingUpdates this'
              = LocalSource.pendingUpdates this ++ [LocalSource.created this]
            ∧ LocalSource.created this' = S (LocalSource.created this)
            ∧ awaiting = None)))
     ∨ (∃ e, submitted effects = [e]
          ∧ is_Some (LocalSource.lastSubmittedModelType this')
          ∧ (LocalSource.lastSubmittedModelType this = None → setsModel e = true)
          ∧ LocalSource.pendingUpdates this' = []
          ∧ awaiting = Some (AwaitDispatch (LocalSource.pendingUpdates this))
          ∧ LocalSource.created this' = LocalSource.created this)).

(** ** A drag with the mouse, and a model source that shows a graph *)

(** The next step of the drag of [node0], to (120, 120), and [firstDrag]
    with an animation. *)
Definition nextDrag : MoveCommand.t :=
  MoveCommand.mk (MoveAction.mk [ElementMove.mk None "node0" (point 120 120)] false) [].
Definition animatedDrag : MoveCommand.t :=
  MoveCommand.mk (MoveAction.mk [ElementMove.mk None "node0" (point 110 110)] true) [].

(** Every element can be moved and selected; there is no viewport. *)
Definition plainFeatures : Features.t :=
  Features.mk (λ _, true) (λ _, true) (λ _, None).

(** A listener after a press at (0, 0), and a move of the pointer with
    the primary button held. *)
Definition pressed : MoveMouseListener.t :=
  MoveMouseListener.mk false (Some (point 0 0)).
Definition pointerAt (a b : Z) : MouseEvent.t := MouseEvent.mk 0 1 (ofZ a) (ofZ b).

(** A model source without client layout, layout engine and providers,
    after [setModel] with a graph. *)
Definition plainAnswers (needsClientLayout : bool) : Answers.t :=
  Answers.mk needsClientLayout None None None.
Definition graphSchema : SModelRootSchema.t := SModelRootSchema.mk 1 "graph" "graph".
Definition shown : LocalSource.t :=
  LocalSource.state (LocalSource.setModel LocalSource.new (plainAnswers false) graphSchema).

(** A move of [node0] to a point with an infinite coordinate. *)
Definition farDrag : MoveCommand.t :=
  MoveCommand.mk
    (MoveAction.mk [ElementMove.mk None "node0" (Point.mk infinity (ofZ 0))] false) [].

(** The test model as the factory makes it: the graph has no position. *)
Definition anyHeap : AnyHeap :=
  <[0 := AnyElement.mk "graph" None false None [2; 1]]>
    (AnyElement.ofLocateable <$> initialHeap).

(** A move of the graph itself, without fromPosition. *)
Definition graphDrag : MoveCommand.t :=
  MoveCommand.mk (MoveAction.mk [ElementMove.mk None "graph" (point 1 1)] false) [].

(** * Facts *)

(** ** Binary64 arithmetic at the endpoint [t = 1] *)

Section NumberFacts.
Import Number.

Lemma digits2_pos_double p :
  Z.pos (digits2_pos (xO p)) = (Z.pos (digits2_pos p) + 1)%Z.
Proof. change (digits2_pos p~0) with (Pos.succ (digits2_pos p)). lia. Qed.

Lemma digits2_pos_iter_double m k :
  Z.pos (digits2_pos (Pos.iter xO m k)) = (Z.pos (digits2_pos m) + Z.pos k)%Z.
Proof.
  induction k as [|k IH] using Pos.peano_ind.
  - apply digits2_pos_double.
  - rewrite Pos.iter_succ, digits2_pos_double, IH. lia.
Qed.

(** Shifting the 52 appended zero bits out again is exact. *)
Lemma shr_52 m :
  SpecFloat.iter_pos shr_1 52 (Build_shr_record (Z.pos (Pos.iter xO m 52)) false false)
  = Build_shr_record (Z.pos m) false false.
Proof. reflexivity. Qed.

Lemma mul_one_finite s m e :
  bounded prec emax m e = true →
  mul one (S754_finite s m e) = S754_finite s m e.
Proof.
  unfold bounded, canonical_mantissa. intros [Hc He]%andb_prop.
  apply Z.eqb_eq in Hc. apply Z.leb_le in He.
  unfold mul, one, SFmul. cbn [xorb].
  unfold binary_round_aux, shr_fexp.
  cbn [Zdigits2 shr_record_of_loc].
  change (Pos.mul 4503599627370496 m) with (Pos.iter xO m 52).
  rewrite digits2_pos_iter_double.
  replace (Z.pos (digits2_pos m) + 52 + (-52 + e))%Z
    with (Z.pos (digits2_pos m) + e)%Z by lia.
  rewrite Hc.
  replace (e - (-52 + e))%Z with 52%Z by lia.
  cbn [shr]. rewrite shr_52.
  cbn [shr_m loc_of_shr_record round_nearest_even Zdigits2].
  replace (-52 + e + 52)%Z with e by lia.
  rewrite Hc, Z.sub_diag. cbn [shr shr_m].
  destruct (Z.leb_spec e (emax - prec)); [reflexivity | lia].
Qed.

Lemma mul_one_l b :
  representable b = true → isFinite b = true → mul one b = b.
Proof.
  destruct b as [s|s| |s m e]; try discriminate; intros Hv _.
  - reflexivity.
  - by apply mul_one_finite.
Qed.

Lemma mul_zero_l s a :
  isFinite a = true → ∃ s', mul (S754_zero s) a = S754_zero s'.
Proof. destruct a; try discriminate; intros _; eexists; reflexivity. Qed.

Lemma add_zero_l s b :
  isFinite b = true →
  add (S754_zero s) b = b
  ∨ (b = negativeZero ∧ add (S754_zero s) b = S754_zero false).
Proof.
  destruct b as [sb|?| |? ? ?]; try discriminate; intros _.
  - destruct s, sb; cbn; auto.
  - by left.
Qed.

Lemma strictEquals_refl b : isFinite b = true → strictEquals b b = true.
Proof.
  destruct b as [sb|?| |s m e]; try discriminate; intros _; [reflexivity|].
  unfold strictEquals, SFeqb, SFcompare.
  rewrite Z.compare_refl, Pos.compare_cont_refl. by destruct s.
Qed.

(** [(1 - 1) * a + 1 * b] is [b] when both are finite: the product with
    zero is a zero, the product with one is exact, and adding a zero
    changes at most the sign of a zero. *)
Lemma lerp_at_one a b :
  representable b = true → isFinite a = true → isFinite b = true →
  strictEquals ((one - one) * a + one * b)%num b = true
  ∧ (b ≠ negativeZero → ((one - one) * a + one * b)%num = b).
Proof.
  intros Hr Ha Hb.
  change (one - one)%num with (S754_zero false).
  destruct (mul_zero_l false a Ha) as [s' ->].
  rewrite (mul_one_l b Hr Hb).
  destruct (add_zero_l s' b Hb) as [-> | [-> ->]].
  - split; [by apply strictEquals_refl | done].
  - split; [reflexivity | done].
Qed.

(** With an infinite or [NaN] [a], the product with zero is [NaN], and so
    is the sum. *)
Lemma lerp_at_one_not_finite a b :
  isFinite a = false → ((one - one) * a + one * b)%num = S754_nan.
Proof.
  change (one - one)%num with (S754_zero false).
  destruct a as [?|sa| |? ? ?]; try discriminate; intros _; reflexivity.
Qed.

End NumberFacts.

(** ** The [Map] operations *)

Section JSMapFacts.
Context {V : Type}.
Implicit Types (m : JSMap.t V) (k : string) (v : V).

Lemma get_set_eq k v m : JSMap.get k (JSMap.set k v m) = Some v.
Proof.
  induction m as [|[k' v'] m IH]; simpl.
  - by rewrite decide_True.
  - destruct (decide (k' = k)) as [->|Hne]; simpl.
    + by rewrite decide_True.
    + by rewrite decide_False.
Qed.

Lemma get_set_ne k k' v m :
  k ≠ k' → JSMap.get k' (JSMap.set k v m) = JSMap.get k' m.
Proof.
  intros Hne. induction m as [|[k0 v0] m IH]; simpl.
  - by rewrite decide_False.
  - destruct (decide (k0 = k)) as [->|Hk]; simpl.
    + by rewrite !decide_False.
    + by rewrite IH.
Qed.

End JSMapFacts.

(** ** Resolving and merging moves *)

Section MoveFacts.
Implicit Types (index : SModelIndex) (h : Heap) (move : ElementMove.t)
  (rm : JSMap.t ResolvedElementMove.t)
  (st : JSMap.t ResolvedElementMove.t * Heap).

Lemma point_eta (p : Point.t) : Point.mk (Point.x p) (Point.y p) = p.
Proof. by destruct p. Qed.

Lemma set_position_twice p p' o :
  SModelElement.set_position p (SModelElement.set_position p' o)
  = SModelElement.set_position p o.
Proof. by destruct o. Qed.

Lemma set_toPosition_id r :
  ResolvedElementMove.set_toPosition (ResolvedElementMove.toPosition r) r = r.
Proof. by destruct r. Qed.

Lemma head_elem_of {A} (l : list A) a : head l = Some a → a ∈ l.
Proof. destruct l; [done|]. intros [= ->]. apply list_elem_of_here. Qed.

Lemma getById_None index h id : index !! id = None → getById index h id = None.
Proof. unfold getById. by intros ->. Qed.

Lemma getById_Some index h id element obj :
  getById index h id = Some (element, obj)
  ↔ index !! id = Some element ∧ h !! element = Some obj.
Proof.
  unfold getById. split.
  - destruct (index !! id) as [l|]; [|done].
    destruct (h !! l) eqn:Hl; [|done]. by intros [= <- <-].
  - by intros [-> ->].
Qed.

Lemma resolve_Some move index h element obj :
  getById index h (ElementMove.elementId move) = Some (element, obj) →
  Move.resolve move index h =
    Some (ResolvedElementMove.mk
            (default (SModelElement.position obj) (ElementMove.fromPosition move))
            (ElementMove.elementId move) element (ElementMove.toPosition move)).
Proof.
  unfold Move.resolve. intros ->.
  destruct (ElementMove.fromPosition move); simpl; [done|]. by rewrite point_eta.
Qed.

Lemma resolve_None move index h :
  getById index h (ElementMove.elementId move) = None →
  Move.resolve move index h = None.
Proof. unfold Move.resolve. by intros ->. Qed.

Lemma resolve_fields move index h r :
  Move.resolve move index h = Some r →
  ResolvedElementMove.elementId r = ElementMove.elementId move
  ∧ ResolvedElementMove.toPosition r = ElementMove.toPosition move
  ∧ index !! ElementMove.elementId move = Some (ResolvedElementMove.element r).
Proof.
  unfold Move.resolve.
  destruct (getById _ _ _) as [[element obj]|] eqn:Hg; [|done].
  apply getById_Some in Hg as [? ?]. by intros [= <-].
Qed.

(** Whether a move resolves depends on its id alone. *)
Lemma resolve_None_same_id move move' index h :
  ElementMove.elementId move = ElementMove.elementId move' →
  Move.resolve move index h = None → Move.resolve move' index h = None.
Proof.
  unfold Move.resolve. intros <-. by destruct (getById _ _ _) as [[??]|].
Qed.

Lemma movesFor_elementId id moves m :
  m ∈ movesFor id moves → ElementMove.elementId m = id ∧ m ∈ moves.
Proof. unfold movesFor. by intros ?%list_elem_of_filter. Qed.

Lemma merge_move_get_ne index h rm move id :
  ElementMove.elementId move ≠ id →
  JSMap.get id (Move.merge_move index h rm move) = JSMap.get id rm.
Proof.
  intros Hne. unfold Move.merge_move.
  destruct (JSMap.get (ElementMove.elementId move) rm) as [ex|].
  - by rewrite get_set_ne.
  - destruct (Move.resolve move index h) as [r|] eqn:Hr; [|done].
    apply resolve_fields in Hr as (-> & _ & _). by rewrite get_set_ne.
Qed.

Lemma merge_move_get_eq index h rm move :
  JSMap.get (ElementMove.elementId move) (Move.merge_move index h rm move) =
    ResolvedElementMove.set_toPosition (ElementMove.toPosition move) <$>
      match JSMap.get (ElementMove.elementId move) rm with
      | Some existing => Some existing
      | None => Move.resolve move index h
      end.
Proof.
  unfold Move.merge_move.
  destruct (JSMap.get (ElementMove.elementId move) rm) as [ex|] eqn:Hg.
  - by rewrite get_set_eq.
  - destruct (Move.resolve move index h) as [r|] eqn:Hr; simpl; [|done].
    pose proof (resolve_fields _ _ _ _ Hr) as (He & Ht & _).
    rewrite He, get_set_eq. f_equal. destruct r; simpl in *. by subst.
Qed.

Lemma merge_moves_snoc index h moves move rm :
  Move.merge_moves index h (moves ++ [move]) rm =
  Move.merge_move index h (Move.merge_moves index h moves rm) move.
Proof. unfold Move.merge_moves. by rewrite foldl_app. Qed.

(** The entry a merge leaves under an id: the pending entry, or else the
    resolution of the first move for the id, with the target of the last
    move for the id. *)
Lemma merge_moves_get index h moves rm id :
  JSMap.get id (Move.merge_moves index h moves rm) =
    match last (movesFor id moves) with
    | None => JSMap.get id rm
    | Some lastMove =>
        ResolvedElementMove.set_toPosition (ElementMove.toPosition lastMove) <$>
          match JSMap.get id rm with
          | Some existing => Some existing
          | None =>
              head (movesFor id moves) ≫= λ firstMove, Move.resolve firstMove index h
          end
    end.
Proof.
  induction moves as [|move moves IH] using rev_ind; [done|].
  rewrite merge_moves_snoc. unfold movesFor in *. rewrite filter_app.
  destruct (decide (ElementMove.elementId move = id)) as [<-|Hne].
  - rewrite filter_cons_True, filter_nil by done. rewrite last_snoc.
    rewrite merge_move_get_eq, IH.
    destruct (filter _ moves) as [|m0 ms0] eqn:Hf; simpl.
    + by destruct (JSMap.get _ rm).
    + destruct (proj2 (last_is_Some (m0 :: ms0))) as [lm Hl]; [done|]. rewrite Hl.
      destruct (JSMap.get _ rm) as [ex|]; simpl; [done|].
      destruct (Move.resolve m0 index h) as [r|] eqn:Hr; simpl; [done|].
      assert (ElementMove.elementId m0 = ElementMove.elementId move) as Heq.
      { assert (m0 ∈ filter (λ m, ElementMove.elementId m = ElementMove.elementId move)
                       moves) as Hin by (rewrite Hf; apply list_elem_of_here).
        by apply list_elem_of_filter in Hin as [? _]. }
      by rewrite (resolve_None_same_id _ _ _ _ Heq Hr).
  - rewrite filter_cons_False, filter_nil, app_nil_r by done.
    by rewrite merge_move_get_ne.
Qed.

Lemma merge_moves_entry index h moves rm id :
  match JSMap.get id rm with
  | Some existing =>
      ∃ p, JSMap.get id (Move.merge_moves index h moves rm) =
             Some (ResolvedElementMove.set_toPosition p existing)
  | None =>
      JSMap.get id (Move.merge_moves index h moves rm) = None
      ∨ ∃ otherMove resolvedMove p,
          otherMove ∈ moves
          ∧ ElementMove.elementId otherMove = id
          ∧ Move.resolve otherMove index h = Some resolvedMove
          ∧ JSMap.get id (Move.merge_moves index h moves rm) =
              Some (ResolvedElementMove.set_toPosition p resolvedMove)
  end.
Proof.
  rewrite merge_moves_get.
  destruct (last (movesFor id moves)) as [lastMove|] eqn:Hl.
  - destruct (JSMap.get id rm) as [existing|]; simpl; [by eexists|].
    destruct (head (movesFor id moves)) as [firstMove|] eqn:Hf; simpl; [|by left].
    destruct (Move.resolve firstMove index h) as [r|] eqn:Hr; simpl; [|by left].
    right. exists firstMove, r, (ElementMove.toPosition lastMove).
    apply head_elem_of, movesFor_elementId in Hf as [? ?]. by split_and!.
  - destruct (JSMap.get id rm) as [existing|]; [|by left].
    exists (ResolvedElementMove.toPosition existing). by rewrite set_toPosition_id.
Qed.

Lemma merge_moves_get_unresolvable index h moves rm id :
  index !! id = None → JSMap.get id rm = None →
  JSMap.get id (Move.merge_moves index h moves rm) = None.
Proof.
  intros Hi Hg. rewrite merge_moves_get, Hg.
  destruct (last _); [|done].
  destruct (head (movesFor id moves)) as [firstMove|] eqn:Hf; simpl; [|done].
  apply head_elem_of, movesFor_elementId in Hf as [Hf _].
  rewrite resolve_None; [done|]. apply getById_None. by rewrite Hf.
Qed.

Lemma merge_moves_skip index h l1 move l2 rm :
  index !! ElementMove.elementId move = None →
  JSMap.get (ElementMove.elementId move) rm = None →
  Move.merge_moves index h (l1 ++ move :: l2) rm
  = Move.merge_moves index h (l1 ++ l2) rm.
Proof.
  intros Hi Hg. unfold Move.merge_moves. rewrite !foldl_app. simpl. f_equal.
  unfold Move.merge_move at 1.
  change (foldl (Move.merge_move index h) rm l1) with (Move.merge_moves index h l1 rm).
  rewrite merge_moves_get_unresolvable by done.
  rewrite resolve_None; [done|]. by apply getById_None.
Qed.

End MoveFacts.

(** ** Executing a batch of moves, and animating *)

Section ExecuteFacts.
Implicit Types (index : SModelIndex) (h : Heap) (move : ElementMove.t)
  (rm : JSMap.t ResolvedElementMove.t)
  (st : JSMap.t ResolvedElementMove.t * Heap).

Lemma execute_moves_cons animate index move moves st :
  Move.execute_moves animate index (move :: moves) st =
  Move.execute_moves animate index moves (Move.execute_move animate index st move).
Proof. reflexivity. Qed.

Lemma execute_moves_snoc animate index moves move st :
  Move.execute_moves animate index (moves ++ [move]) st =
  Move.execute_move animate index (Move.execute_moves animate index moves st) move.
Proof. unfold Move.execute_moves. by rewrite foldl_app. Qed.

Lemma execute_moves_app animate index l1 l2 st :
  Move.execute_moves animate index (l1 ++ l2) st =
  Move.execute_moves animate index l2 (Move.execute_moves animate index l1 st).
Proof. unfold Move.execute_moves. by rewrite foldl_app. Qed.

Lemma execute_move_resolved animate index st move element obj :
  getById index st.2 (ElementMove.elementId move) = Some (element, obj) →
  Move.execute_move animate index st move =
    (JSMap.set (ElementMove.elementId move)
       (ResolvedElementMove.mk
          (default (SModelElement.position obj) (ElementMove.fromPosition move))
          (ElementMove.elementId move) element (ElementMove.toPosition move))
       st.1,
     if animate then st.2
     else alter (SModelElement.set_position (ElementMove.toPosition move)) element st.2).
Proof.
  intros Hg. unfold Move.execute_move. rewrite (resolve_Some _ _ _ _ _ Hg).
  by destruct animate.
Qed.

Lemma execute_move_unresolved animate index st move :
  getById index st.2 (ElementMove.elementId move) = None →
  Move.execute_move animate index st move = st.
Proof. intros Hg. unfold Move.execute_move. by rewrite (resolve_None _ _ _ Hg). Qed.

Lemma execute_moves_skip animate index l1 move l2 st :
  index !! ElementMove.elementId move = None →
  Move.execute_moves animate index (l1 ++ move :: l2) st =
  Move.execute_moves animate index (l1 ++ l2) st.
Proof.
  intros Hi. rewrite !execute_moves_app, execute_moves_cons.
  rewrite execute_move_unresolved; [done|]. by apply getById_None.
Qed.

(** An animated execute leaves the heap alone. *)
Lemma execute_move_animated index st move :
  (Move.execute_move true index st move).2 = st.2.
Proof. unfold Move.execute_move. by destruct (Move.resolve move index st.2). Qed.

Lemma execute_moves_animated index moves st :
  (Move.execute_moves true index moves st).2 = st.2.
Proof.
  revert st. induction moves as [|m ms IH]; intros st; [done|].
  by rewrite execute_moves_cons, IH, execute_move_animated.
Qed.

Lemma execute_move_get_ne animate index st move id :
  ElementMove.elementId move ≠ id →
  JSMap.get id (Move.execute_move animate index st move).1 = JSMap.get id st.1.
Proof.
  intros Hne. unfold Move.execute_move.
  destruct (Move.resolve move index st.2) as [r|] eqn:Hr; [|done].
  apply resolve_fields in Hr as (He & _ & _).
  destruct animate; simpl; rewrite get_set_ne; congruence.
Qed.

Lemma execute_moves_get_ne animate index moves st id :
  (∀ m, m ∈ moves → ElementMove.elementId m ≠ id) →
  JSMap.get id (Move.execute_moves animate index moves st).1 = JSMap.get id st.1.
Proof.
  revert st. induction moves as [|m ms IH]; intros st Hn; [done|].
  rewrite execute_moves_cons, IH.
  - apply execute_move_get_ne, Hn, list_elem_of_here.
  - intros m' Hm'. by apply Hn, list_elem_of_further.
Qed.

Lemma execute_move_lookup_ne animate index st move l :
  index !! ElementMove.elementId move ≠ Some l →
  (Move.execute_move animate index st move).2 !! l = st.2 !! l.
Proof.
  intros Hne. unfold Move.execute_move.
  destruct (Move.resolve move index st.2) as [r|] eqn:Hr; [|done].
  apply resolve_fields in Hr as (_ & _ & Hi).
  destruct animate; simpl; [done|]. rewrite lookup_alter_ne; [done|]. congruence.
Qed.

(** The heap after a non-animated batch: the last move that names an
    element decides its position; nothing else changes. *)
Lemma execute_moves_lookup index moves st l :
  (Move.execute_moves false index moves st).2 !! l =
    match lastMoveTo index moves l with
    | Some move => SModelElement.set_position (ElementMove.toPosition move) <$> st.2 !! l
    | None => st.2 !! l
    end.
Proof.
  unfold lastMoveTo.
  induction moves as [|move moves IH] using rev_ind; [done|].
  rewrite execute_moves_snoc, filter_app.
  destruct (decide (index !! ElementMove.elementId move = Some l)) as [Hi|Hne].
  - rewrite filter_cons_True by done. rewrite filter_nil, last_snoc.
    unfold Move.execute_move.
    destruct (Move.resolve move index _) as [r|] eqn:Hr.
    + pose proof (resolve_fields _ _ _ _ Hr) as (_ & _ & Hi'). simpl.
      rewrite Hi in Hi'. injection Hi' as <-. rewrite lookup_alter_eq, IH.
      destruct (last _); [|done].
      rewrite <- option_fmap_compose. apply option_fmap_ext.
      intros o. apply set_position_twice.
    + unfold Move.resolve in Hr.
      destruct (getById index _ _) as [[??]|] eqn:Hg; [done|].
      unfold getById in Hg. rewrite Hi in Hg.
      destruct (_ !! l) eqn:Hl in Hg; [done|]. rewrite Hl.
      rewrite IH in Hl. destruct (last _); simpl in Hl.
      * by destruct (st.2 !! l).
      * by rewrite Hl.
  - rewrite filter_cons_False by done. rewrite filter_nil, app_nil_r.
    rewrite execute_move_lookup_ne by done. apply IH.
Qed.

Lemma tween_unfold this t h :
  (Move.tween this t h).2 =
  foldl (λ h kv,
           alter (SModelElement.set_position
                    (Move.tween_position (MoveAnimation.reverse this) t kv.2))
                 (ResolvedElementMove.element kv.2) h)
        h (MoveAnimation.elementMoves this).
Proof. reflexivity. Qed.

(** The heap after a tick: the last entry that refers to an element
    decides its position; nothing else changes. *)
Lemma tween_lookup this t h l :
  (Move.tween this t h).2 !! l =
    match lastWriter (MoveAnimation.elementMoves this) l with
    | Some elementMove =>
        SModelElement.set_position
          (Move.tween_position (MoveAnimation.reverse this) t elementMove) <$> h !! l
    | None => h !! l
    end.
Proof.
  rewrite tween_unfold. unfold lastWriter.
  induction (MoveAnimation.elementMoves this) as [|[k r] m IH] using rev_ind; [done|].
  rewrite foldl_app, fmap_app, filter_app. simpl.
  destruct (decide (ResolvedElementMove.element r = l)) as [<-|Hne].
  - rewrite filter_cons_True by done. rewrite filter_nil, last_snoc, lookup_alter_eq, IH.
    destruct (last _); [|done].
    rewrite <- option_fmap_compose. apply option_fmap_ext.
    intros o. apply set_position_twice.
  - rewrite filter_cons_False by done.
    rewrite filter_nil, app_nil_r, lookup_alter_ne by done. apply IH.
Qed.

Lemma tween_position_one (reverse : bool) elementMove :
  finitePoint (ResolvedElementMove.fromPosition elementMove) = true →
  finitePoint (ResolvedElementMove.toPosition elementMove) = true →
  let target := if reverse then ResolvedElementMove.fromPosition elementMove
                else ResolvedElementMove.toPosition elementMove in
  let p := Move.tween_position reverse Number.one elementMove in
  Number.strictEquals (Point.x p) (Point.x target) = true
  ∧ Number.strictEquals (Point.y p) (Point.y target) = true
  ∧ (Point.x target ≠ Number.negativeZero → Point.y target ≠ Number.negativeZero →
     p = target).
Proof.
  unfold finitePoint. intros Hf Ht.
  repeat (apply andb_prop in Hf as [Hf ?]). repeat (apply andb_prop in Ht as [Ht ?]).
  unfold Move.tween_position.
  destruct reverse; cbn [Point.x Point.y].
  - destruct (lerp_at_one (Point.x (ResolvedElementMove.toPosition elementMove))
                (Point.x (ResolvedElementMove.fromPosition elementMove)))
      as [Ex Ix]; try done.
    destruct (lerp_at_one (Point.y (ResolvedElementMove.toPosition elementMove))
                (Point.y (ResolvedElementMove.fromPosition elementMove)))
      as [Ey Iy]; try done.
    split; [done|]. split; [done|]. intros Nx Ny. rewrite (Ix Nx), (Iy Ny).
    by destruct (ResolvedElementMove.fromPosition elementMove).
  - destruct (lerp_at_one (Point.x (ResolvedElementMove.fromPosition elementMove))
                (Point.x (ResolvedElementMove.toPosition elementMove)))
      as [Ex Ix]; try done.
    destruct (lerp_at_one (Point.y (ResolvedElementMove.fromPosition elementMove))
                (Point.y (ResolvedElementMove.toPosition elementMove)))
      as [Ey Iy]; try done.
    split; [done|]. split; [done|]. intros Nx Ny. rewrite (Ix Nx), (Iy Ny).
    by destruct (ResolvedElementMove.toPosition elementMove).
Qed.

End ExecuteFacts.

(** ** Reordering a child sequence *)

Section ChildOrder.
Implicit Types (e : loc) (cs : list loc).

Lemma indexOf_Some_split e cs i :
  Select.indexOf e cs = Some i →
  ∃ l1 l2, cs = l1 ++ e :: l2 ∧ (e ∉ l1) ∧ length l1 = i.
Proof.
  revert i. induction cs as [|c cs IH]; intros i; simpl; [done|].
  case_decide as Hc.
  - intros [= <-]. subst. exists [], cs. split_and!; [done| |done].
    apply not_elem_of_nil.
  - destruct (Select.indexOf e cs) as [j|]; simpl; [|done]. intros [= <-].
    destruct (IH j eq_refl) as (l1 & l2 & -> & Hni & Hlen).
    exists (c :: l1), l2. split_and!; [done| |by simpl; f_equal].
    apply not_elem_of_cons. split; [congruence|done].
Qed.

Lemma indexOf_None e cs : Select.indexOf e cs = None → e ∉ cs.
Proof.
  induction cs as [|c cs IH]; simpl; [intros _; apply not_elem_of_nil|].
  case_decide as Hc; [done|].
  destruct (Select.indexOf e cs); simpl; [done|].
  intros _. apply not_elem_of_cons. split; [congruence|by apply IH].
Qed.

Lemma filter_ne_notin e cs : e ∉ cs → filter (λ c, c ≠ e) cs = cs.
Proof.
  induction cs as [|c cs IH]; [done|]. intros [Hne Hni]%not_elem_of_cons.
  rewrite filter_cons_True by congruence. f_equal. by apply IH.
Qed.

Lemma filter_ne_split e l1 l2 :
  e ∉ l1 → e ∉ l2 → filter (λ c, c ≠ e) (l1 ++ e :: l2) = l1 ++ l2.
Proof.
  intros H1 H2. rewrite filter_app, filter_cons_False by (intros Hn; by apply Hn).
  by rewrite !filter_ne_notin.
Qed.

Lemma filter_ne_moveToEnd e cs :
  filter (λ c, c ≠ e) (Select.moveToEnd e cs) = filter (λ c, c ≠ e) cs.
Proof.
  unfold Select.moveToEnd.
  rewrite filter_app, filter_cons_False by (intros Hn; by apply Hn).
  rewrite filter_nil, app_nil_r. apply filter_ne_notin.
  by intros [? _]%list_elem_of_filter.
Qed.

(** Moving a child to the end and back to its index restores the order. *)
Lemma moveTo_moveToEnd e cs i :
  NoDup cs → Select.indexOf e cs = Some i →
  Select.moveTo e i (Select.moveToEnd e cs) = cs.
Proof.
  intros Hnd (l1 & l2 & -> & Hn1 & <-)%indexOf_Some_split.
  unfold Select.moveTo. rewrite filter_ne_moveToEnd.
  apply NoDup_app in Hnd as (_ & Hd & Hnd2). apply NoDup_cons in Hnd2 as [Hn2 _].
  rewrite filter_ne_split by done.
  by rewrite take_app_length, drop_app_length.
Qed.

Lemma moveToEnd_NoDup e cs : NoDup cs → NoDup (Select.moveToEnd e cs).
Proof.
  intros Hnd. unfold Select.moveToEnd. apply NoDup_app. split_and!.
  - by apply NoDup_filter.
  - intros a [Ha _]%list_elem_of_filter ->%list_elem_of_singleton. done.
  - apply NoDup_singleton.
Qed.

Lemma last_moveToEnd e cs : last (Select.moveToEnd e cs) = Some e.
Proof. unfold Select.moveToEnd. apply last_snoc. Qed.

End ChildOrder.

(** ** The select command: steps, their log, and the flags *)

Section SelectFacts.
Implicit Types (index : SModelIndex) (h : Heap) (log : list Selection.t)
  (e p l q : loc).

Lemma children_once_alter h l f :
  Select.children_once h →
  (∀ o, h !! l = Some o → NoDup (SModelElement.children (f o))) →
  Select.children_once (alter f l h).
Proof.
  intros Hw Hf l' o'. destruct (decide (l = l')) as [<-|Hne].
  - rewrite lookup_alter_eq. destruct (h !! l) as [o|] eqn:Ho; simpl; [|done].
    intros [= <-]. by apply Hf.
  - rewrite lookup_alter_ne by done. apply Hw.
Qed.

Lemma children_once_set_selected h l b :
  Select.children_once h →
  Select.children_once (alter (SModelElement.set_selected b) l h).
Proof.
  intros Hw. apply children_once_alter; [done|]. intros o Ho. exact (Hw _ _ Ho).
Qed.

Lemma alter_set_selected_back h e obj b :
  h !! e = Some obj →
  alter (SModelElement.set_selected (SModelElement.selected obj)) e
    (alter (SModelElement.set_selected b) e h) = h.
Proof.
  intros Ho. rewrite alter_alter_eq. apply alter_id. intros o Hx.
  rewrite Ho in Hx. injection Hx as <-. by destruct obj.
Qed.

Lemma unchanged_recorded log h :
  Select.children_once h →
  ∃ ext, log = log ++ ext
      ∧ foldl Select.undo_one h (reverse ext) = h
      ∧ foldl Select.redo_one h ext = h
      ∧ Select.children_once h.
Proof. intros Hw. exists []. by rewrite app_nil_r. Qed.

Lemma flag_recorded log h e obj :
  Select.children_once h → h !! e = Some obj →
  let b := negb (SModelElement.selected obj) in
  let h' := alter (SModelElement.set_selected b) e h in
  ∃ ext, log ++ [Selection.mk e (SModelElement.selected obj) None] = log ++ ext
      ∧ foldl Select.undo_one h' (reverse ext) = h
      ∧ foldl Select.redo_one h ext = h'
      ∧ Select.children_once h'.
Proof.
  intros Hw Ho b h'. exists [Selection.mk e (SModelElement.selected obj) None].
  split_and!; [done| |done|by apply children_once_set_selected].
  simpl. unfold Select.undo_one. simpl. by apply alter_set_selected_back.
Qed.

Lemma select_one_recorded index : step_recorded (Select.select_one index).
Proof.
  intros log h id Hw. unfold Select.select_one. simpl.
  destruct (getById index h id) as [[e obj]|] eqn:Hg; [|by apply unchanged_recorded].
  apply getById_Some in Hg as [Hi Ho].
  destruct (SModelElement.selected obj) eqn:Hs; [by apply unchanged_recorded|].
  pose proof (flag_recorded log h e obj Hw Ho) as Hflag.
  rewrite Hs in Hflag. simpl in Hflag.
  destruct (SModelElement.parent obj) as [p|]; [|done].
  set (h1 := alter (SModelElement.set_selected true) e h) in *.
  destruct (h1 !! p) as [pobj|] eqn:Hp; [|done].
  destruct (Select.indexOf e (SModelElement.children pobj)) as [i|] eqn:Hidx; [|done].
  simpl.
  assert (Select.children_once h1) as Hw1 by by apply children_once_set_selected.
  assert (NoDup (SModelElement.children pobj)) as Hnd by exact (Hw1 _ _ Hp).
  exists [Selection.mk e false (Some (p, i))]. split_and!; [done| | |].
  - simpl. unfold Select.undo_one. simpl. rewrite alter_alter_eq.
    rewrite (alter_id _ h1 p).
    + rewrite <- Hs. by apply alter_set_selected_back.
    + intros o Hx. rewrite Hp in Hx. injection Hx as <-. simpl.
      rewrite moveTo_moveToEnd by done. by destruct pobj.
  - simpl. unfold Select.redo_one. simpl. fold h1. apply alter_ext.
    intros o Hx. rewrite Hp in Hx. by injection Hx as <-.
  - apply children_once_alter; [done|]. intros o Hx. simpl. by apply moveToEnd_NoDup.
Qed.

Lemma deselect_one_recorded index : step_recorded (Select.deselect_one index).
Proof.
  intros log h id Hw. unfold Select.deselect_one. simpl.
  destruct (getById index h id) as [[e obj]|] eqn:Hg; [|by apply unchanged_recorded].
  apply getById_Some in Hg as [Hi Ho].
  destruct (SModelElement.selected obj) eqn:Hs; [|by apply unchanged_recorded].
  pose proof (flag_recorded log h e obj Hw Ho) as Hflag. by rewrite Hs in Hflag.
Qed.

Lemma steps_recorded step ids :
  step_recorded step →
  ∀ log h, Select.children_once h →
    ∃ ext, (foldl step (log, h) ids).1 = log ++ ext
      ∧ foldl Select.undo_one (foldl step (log, h) ids).2 (reverse ext) = h
      ∧ foldl Select.redo_one h ext = (foldl step (log, h) ids).2
      ∧ Select.children_once (foldl step (log, h) ids).2.
Proof.
  intros Hstep. induction ids as [|id ids IH]; intros log h Hw;
    [by apply unchanged_recorded|].
  simpl. destruct (Hstep log h id Hw) as (ext1 & E1 & U1 & R1 & W1).
  destruct (step (log, h) id) as [log1 h1] eqn:Hs. simpl in *.
  destruct (IH log1 h1 W1) as (ext2 & E2 & U2 & R2 & W2).
  exists (ext1 ++ ext2). split_and!.
  - by rewrite E2, E1, app_assoc.
  - by rewrite reverse_app, foldl_app, U2, U1.
  - by rewrite foldl_app, R1, R2.
  - done.
Qed.

(** Executing a fresh command: its log undoes the execution, and redoes
    it from the restored heap. *)
Lemma execute_recorded action model h :
  Select.children_once h →
  let r := Select.execute (Select.new action) model h in
  r.1.1 = model
  ∧ foldl Select.undo_one r.2 (reverse (SelectCommand.touched r.1.2)) = h
  ∧ foldl Select.redo_one h (SelectCommand.touched r.1.2) = r.2
  ∧ Select.children_once r.2.
Proof.
  intros Hw. unfold Select.execute, Select.new. simpl.
  destruct (steps_recorded _ (SelectAction.selectedIds action)
              (select_one_recorded (SModelRoot.index model)) [] h Hw)
    as (ext1 & E1 & U1 & R1 & W1).
  destruct (foldl (Select.select_one _) ([], h) _) as [log1 h1] eqn:Hs. simpl in *.
  destruct (steps_recorded _ (SelectAction.deselectedIds action)
              (deselect_one_recorded (SModelRoot.index model)) log1 h1 W1)
    as (ext2 & E2 & U2 & R2 & W2).
  destruct (foldl (Select.deselect_one _) (log1, h1) _) as [log2 h2] eqn:Hd.
  simpl in *. subst log1 log2.
  by rewrite reverse_app, !foldl_app, U2, U1, R1, R2.
Qed.

Lemma isSelected_alter_selected h e b l :
  Select.isSelected (alter (SModelElement.set_selected b) e h) l =
    if decide (e = l) then (λ _, b) <$> Select.isSelected h l
    else Select.isSelected h l.
Proof.
  unfold Select.isSelected. rewrite lookup_alter.
  destruct (decide (e = l)) as [->|]; [|done]. by destruct (h !! l).
Qed.

Lemma isSelected_alter_children h p f l :
  (∀ o, SModelElement.selected (f o) = SModelElement.selected o) →
  Select.isSelected (alter f p h) l = Select.isSelected h l.
Proof.
  intros Hf. unfold Select.isSelected. rewrite lookup_alter.
  destruct (decide (p = l)) as [->|]; [|done].
  destruct (h !! l); simpl; [|done]. by rewrite Hf.
Qed.

Lemma childrenOf_alter_selected h e b q :
  childrenOf (alter (SModelElement.set_selected b) e h) q = childrenOf h q.
Proof.
  unfold childrenOf. rewrite lookup_alter.
  destruct (decide (e = q)) as [->|]; [|done]. by destruct (h !! q).
Qed.

Lemma childrenOf_alter_children h p cs q :
  childrenOf (alter (SModelElement.set_children cs) p h) q =
    if decide (p = q) then (λ _, cs) <$> childrenOf h q else childrenOf h q.
Proof.
  unfold childrenOf. rewrite lookup_alter.
  destruct (decide (p = q)) as [->|]; [|done]. by destruct (h !! q).
Qed.

(** One step of selecting, on a resolved element that is not selected. *)
Lemma select_one_effect index log h id element obj :
  getById index h id = Some (element, obj) →
  SModelElement.selected obj = false →
  let st := Select.select_one index (log, h) id in
  Select.isSelected st.2 element = Some true
  ∧ (∀ l, l ≠ element → Select.isSelected st.2 l = Select.isSelected h l)
  ∧ (∀ p cs, SModelElement.parent obj = Some p → childrenOf h p = Some cs →
       element ∈ cs →
       childrenOf st.2 p = Some (Select.moveToEnd element cs)
       ∧ last (Select.moveToEnd element cs) = Some element)
  ∧ (∀ q, SModelElement.parent obj ≠ Some q → childrenOf st.2 q = childrenOf h q).
Proof.
  intros Hg Hs. pose proof Hg as [Hi Ho]%getById_Some.
  unfold Select.select_one. simpl. rewrite Hg, Hs.
  set (h1 := alter (SModelElement.set_selected true) element h).
  assert (Select.isSelected h1 element = Some true) as Hsel.
  { unfold h1. rewrite isSelected_alter_selected, decide_True by done.
    unfold Select.isSelected. by rewrite Ho. }
  assert (∀ l, l ≠ element → Select.isSelected h1 l = Select.isSelected h l) as Hoth.
  { intros l Hl. unfold h1. by rewrite isSelected_alter_selected, decide_False. }
  assert (∀ q, childrenOf h1 q = childrenOf h q) as Hch
    by (intros; apply childrenOf_alter_selected).
  destruct (SModelElement.parent obj) as [p|] eqn:Hp.
  - destruct (h1 !! p) as [pobj|] eqn:Hpo.
    + destruct (Select.indexOf element (SModelElement.children pobj)) as [i|] eqn:Hidx;
        simpl.
      * split_and!.
        -- by rewrite isSelected_alter_children.
        -- intros l Hl. rewrite isSelected_alter_children by done. by apply Hoth.
        -- intros p' cs [= <-] Hcs Hin.
           rewrite childrenOf_alter_children, decide_True by done.
           rewrite Hch, Hcs. simpl. split; [|apply last_moveToEnd].
           specialize (Hch p). unfold childrenOf in Hch at 1. rewrite Hpo, Hcs in Hch.
           simpl in Hch. by injection Hch as ->.
        -- intros q Hq. rewrite childrenOf_alter_children, decide_False by congruence.
           apply Hch.
      * split_and!; [done|done| |by intros].
        intros p' cs [= <-] Hcs Hin. exfalso.
        specialize (Hch p). unfold childrenOf in Hch at 1. rewrite Hpo, Hcs in Hch.
        simpl in Hch. injection Hch as Hch. apply indexOf_None in Hidx.
        by rewrite Hch in Hidx.
    + simpl. split_and!; [done|done| |by intros].
      intros p' cs [= <-] Hcs Hin. exfalso.
      specialize (Hch p). unfold childrenOf in Hch at 1. by rewrite Hpo, Hcs in Hch.
  - simpl. split_and!; [done|done|done|by intros].
Qed.

(** One step of deselecting, on a resolved element that is selected. *)
Lemma deselect_one_effect index log h id element obj :
  getById index h id = Some (element, obj) →
  SModelElement.selected obj = true →
  let st := Select.deselect_one index (log, h) id in
  Select.isSelected st.2 element = Some false
  ∧ (∀ l, l ≠ element → Select.isSelected st.2 l = Select.isSelected h l)
  ∧ (∀ q, childrenOf st.2 q = childrenOf h q).
Proof.
  intros Hg Hs. pose proof Hg as [Hi Ho]%getById_Some.
  unfold Select.deselect_one. simpl. rewrite Hg, Hs. simpl. split_and!.
  - rewrite isSelected_alter_selected, decide_True by done.
    unfold Select.isSelected. by rewrite Ho.
  - intros l Hl. by rewrite isSelected_alter_selected, decide_False.
  - intros q. apply childrenOf_alter_selected.
Qed.

Lemma select_one_flag index st id l :
  Select.isSelected (Select.select_one index st id).2 l =
    (λ b, if decide (index !! id = Some l) then true else b)
      <$> Select.isSelected st.2 l.
Proof.
  destruct st as [log h].
  destruct (getById index h id) as [[e obj]|] eqn:Hg.
  - pose proof Hg as [Hi Ho]%getById_Some.
    destruct (SModelElement.selected obj) eqn:Hs.
    + unfold Select.select_one. simpl. rewrite Hg, Hs. simpl.
      unfold Select.isSelected. simpl. case_decide as Hd.
      * rewrite Hi in Hd. simplify_eq. rewrite Ho. simpl. by rewrite Hs.
      * by destruct (h !! l).
    + destruct (select_one_effect index log h id e obj Hg Hs) as (He & Hoth & _).
      simpl. case_decide as Hd.
      * rewrite Hi in Hd. simplify_eq. rewrite He.
        unfold Select.isSelected. by rewrite Ho.
      * rewrite Hoth by congruence. simpl. by destruct (Select.isSelected h l).
  - unfold Select.select_one. simpl. rewrite Hg. simpl.
    unfold getById in Hg. unfold Select.isSelected. simpl.
    case_decide as Hd.
    + rewrite Hd in Hg. by destruct (h !! l).
    + by destruct (h !! l).
Qed.

Lemma deselect_one_flag index st id l :
  Select.isSelected (Select.deselect_one index st id).2 l =
    (λ b, if decide (index !! id = Some l) then false else b)
      <$> Select.isSelected st.2 l.
Proof.
  destruct st as [log h].
  destruct (getById index h id) as [[e obj]|] eqn:Hg.
  - pose proof Hg as [Hi Ho]%getById_Some.
    destruct (SModelElement.selected obj) eqn:Hs.
    + destruct (deselect_one_effect index log h id e obj Hg Hs) as (He & Hoth & _).
      simpl. case_decide as Hd.
      * rewrite Hi in Hd. simplify_eq. rewrite He.
        unfold Select.isSelected. by rewrite Ho.
      * rewrite Hoth by congruence. simpl. by destruct (Select.isSelected h l).
    + unfold Select.deselect_one. simpl. rewrite Hg, Hs. simpl.
      unfold Select.isSelected. simpl. case_decide as Hd.
      * rewrite Hi in Hd. simplify_eq. rewrite Ho. simpl. by rewrite Hs.
      * by destruct (h !! l).
  - unfold Select.deselect_one. simpl. rewrite Hg. simpl.
    unfold getById in Hg. unfold Select.isSelected. simpl.
    case_decide as Hd.
    + rewrite Hd in Hg. by destruct (h !! l).
    + by destruct (h !! l).
Qed.

Lemma steps_flag (step : list Selection.t * Heap → string → list Selection.t * Heap)
    (b0 : bool) index ids st l :
  (∀ st id l, Select.isSelected (step st id).2 l =
     (λ b, if decide (index !! id = Some l) then b0 else b)
       <$> Select.isSelected st.2 l) →
  Select.isSelected (foldl step st ids).2 l =
    (λ b, if decide (targets index ids l) then b0 else b) <$> Select.isSelected st.2 l.
Proof.
  intros Hstep. induction ids as [|id ids IH] using rev_ind.
  - change (foldl step st []) with st.
    destruct (decide (targets index [] l)) as [Hd|_].
    + unfold targets in Hd. by rewrite Exists_nil in Hd.
    + by destruct (Select.isSelected st.2 l).
  - rewrite foldl_app. simpl. rewrite Hstep, IH.
    destruct (Select.isSelected st.2 l) as [b|]; simpl; [|done]. f_equal.
    destruct (decide (targets index (ids ++ [id]) l)) as [Ht|Ht];
      destruct (decide (index !! id = Some l)) as [Hi|Hi];
      destruct (decide (targets index ids l)) as [Ht'|Ht']; try done;
      exfalso; unfold targets in *;
      rewrite Exists_app, Exists_cons, Exists_nil in Ht; tauto.
Qed.

(** The flags after execute: deselected if an id to deselect names the
    element, else selected if an id to select names it, else as before. *)
Lemma execute_flags this model h l :
  Select.isSelected (Select.execute this model h).2 l =
    (λ b, if decide (targets (SModelRoot.index model)
                       (SelectAction.deselectedIds (SelectCommand.action this)) l)
          then false
          else if decide (targets (SModelRoot.index model)
                            (SelectAction.selectedIds (SelectCommand.action this)) l)
          then true else b) <$> Select.isSelected h l.
Proof.
  unfold Select.execute. simpl.
  rewrite (steps_flag _ false (SModelRoot.index model)) by apply deselect_one_flag.
  rewrite (steps_flag _ true (SModelRoot.index model)) by apply select_one_flag.
  simpl. by destruct (Select.isSelected h l).
Qed.

Lemma select_steps_skip index (l1 l2 : list string) id st :
  index !! id = None →
  foldl (Select.select_one index) st (l1 ++ id :: l2) =
  foldl (Select.select_one index) st (l1 ++ l2).
Proof.
  intros Hi. rewrite !foldl_app. simpl. f_equal.
  unfold Select.select_one. by rewrite (getById_None _ _ _ Hi).
Qed.

Lemma deselect_steps_skip index (l1 l2 : list string) id st :
  index !! id = None →
  foldl (Select.deselect_one index) st (l1 ++ id :: l2) =
  foldl (Select.deselect_one index) st (l1 ++ l2).
Proof.
  intros Hi. rewrite !foldl_app. simpl. f_equal.
  unfold Select.deselect_one. by rewrite (getById_None _ _ _ Hi).
Qed.

End SelectFacts.

Section RemoveFacts.

Lemma removeElements_skip index rootId l1 e l2 :
  index !! match e with
           | LocalModelSource.ById elementId => elementId
           | LocalModelSource.ByIdAndParent elementId _ => elementId
           end = None →
  LocalModelSource.removeElements index rootId (l1 ++ e :: l2) =
  LocalModelSource.removeElements index rootId (l1 ++ l2).
Proof.
  intros Hi. unfold LocalModelSource.removeElements. rewrite !foldl_app. simpl. f_equal.
  unfold LocalModelSource.removeElement. destruct e; by rewrite Hi.
Qed.

(** The matches are built from the entries whose id the index holds, in
    order. *)
Lemma removeElements_omap index rootId (elements : list LocalModelSource.Removal) :
  LocalModelSource.removeElements index rootId elements =
  omap (λ e, (λ element,
                LocalModelSource.Match.mk element
                  match e with
                  | LocalModelSource.ById _ => rootId
                  | LocalModelSource.ByIdAndParent _ parentId => parentId
                  end) <$> index !! removedId e) elements.
Proof.
  unfold LocalModelSource.removeElements.
  induction elements as [|e es IH] using rev_ind; [done|].
  rewrite foldl_app, omap_app, IH. simpl.
  destruct e as [elementId|elementId parentId]; simpl;
    destruct (index !! elementId); simpl; by rewrite ?app_nil_r.
Qed.

End RemoveFacts.

(** ** What a batch leaves in the command *)

Section SkipFacts.
Implicit Types (index : SModelIndex) (h : Heap) (move : ElementMove.t)
  (moves : list ElementMove.t) (st : JSMap.t ResolvedElementMove.t * Heap).

(** A batch neither adds nor removes an element object. *)
Lemma execute_moves_is_Some animate index moves st l :
  is_Some ((Move.execute_moves animate index moves st).2 !! l) ↔ is_Some (st.2 !! l).
Proof.
  destruct animate; [by rewrite execute_moves_animated|].
  rewrite execute_moves_lookup. destruct (lastMoveTo index moves l); [|done].
  by rewrite fmap_is_Some.
Qed.

(** The entry a batch leaves under the id of an element of the model: it
    refers to the element and holds the target of the last move for the
    id, and the start that move gives, if it gives one. *)
Lemma execute_moves_get animate index moves st id element lastMove :
  index !! id = Some element →
  is_Some (st.2 !! element) →
  last (movesFor id moves) = Some lastMove →
  ∃ r, JSMap.get id (Move.execute_moves animate index moves st).1 = Some r
       ∧ ResolvedElementMove.elementId r = id
       ∧ ResolvedElementMove.element r = element
       ∧ ResolvedElementMove.toPosition r = ElementMove.toPosition lastMove
       ∧ ∀ p, ElementMove.fromPosition lastMove = Some p →
              ResolvedElementMove.fromPosition r = p.
Proof.
  intros Hi Hs. induction moves as [|move moves IH] using rev_ind; [done|].
  unfold movesFor. rewrite filter_app, execute_moves_snoc.
  destruct (decide (ElementMove.elementId move = id)) as [Hid|Hne].
  - rewrite filter_cons_True by done. rewrite filter_nil, last_snoc. intros [= <-].
    destruct (proj2 (execute_moves_is_Some animate index moves st element) Hs)
      as [obj Hobj].
    rewrite (execute_move_resolved _ _ _ _ element obj);
      [|by unfold getById; rewrite Hid, Hi, Hobj].
    cbn [fst]. rewrite Hid, get_set_eq. eexists. split; [done|].
    split_and!; [done..|]. by intros p ->.
  - rewrite filter_cons_False by done. rewrite filter_nil, app_nil_r. intros Hl.
    rewrite execute_move_get_ne by done. by apply IH.
Qed.

End SkipFacts.

(** ** Resolving without the cast *)

Section UncheckedFacts.
Implicit Types (index : SModelIndex) (h : AnyHeap) (move : ElementMove.t)
  (moves : list ElementMove.t)
  (rm : JSMap.t ResolvedElementMove.t).

(** [resolve] throws exactly on a move without fromPosition for an
    indexed element that has no position. *)
Lemma resolve_Throws move index h error :
  Unchecked.resolve move index h = Throws error ↔
  error = TypeError
  ∧ ElementMove.fromPosition move = None
  ∧ ∃ element obj,
      index !! ElementMove.elementId move = Some element
      ∧ h !! element = Some obj
      ∧ AnyElement.position obj = None.
Proof.
  unfold Unchecked.resolve. split.
  - destruct (index !! ElementMove.elementId move) as [element|]; [|done].
    destruct (h !! element) as [obj|] eqn:Hh; [|done].
    destruct (ElementMove.fromPosition move); [done|].
    destruct (AnyElement.position obj) eqn:Hp; [done|].
    intros [= <-]. split_and!; [done..|]. by exists element, obj.
  - intros (-> & -> & element & obj & -> & -> & ->). done.
Qed.

Lemma resolve_Returns_elementId move index h r :
  Unchecked.resolve move index h = Returns (Some r) →
  ResolvedElementMove.elementId r = ElementMove.elementId move.
Proof.
  unfold Unchecked.resolve.
  destruct (index !! ElementMove.elementId move) as [element|]; [|done].
  destruct (h !! element) as [obj|]; [|done].
  destruct (ElementMove.fromPosition move); [by intros [= <-]|].
  destruct (AnyElement.position obj); [by intros [= <-]|done].
Qed.

(** A move that resolves to nothing names an id that no move throws on. *)
Lemma resolve_Returns_None move move' index h error :
  Unchecked.resolve move index h = Returns None →
  ElementMove.elementId move' = ElementMove.elementId move →
  Unchecked.resolve move' index h ≠ Throws error.
Proof.
  unfold Unchecked.resolve. intros Hr ->.
  destruct (index !! ElementMove.elementId move) as [element|]; [|done].
  destruct (h !! element) as [obj|]; [|done].
  destruct (ElementMove.fromPosition move); [done|].
  by destruct (AnyElement.position obj).
Qed.

Lemma movesFor_cons_ne id move moves :
  ElementMove.elementId move ≠ id → movesFor id (move :: moves) = movesFor id moves.
Proof. intros Hne. unfold movesFor. by rewrite filter_cons_False. Qed.

Lemma movesFor_cons_eq move moves :
  movesFor (ElementMove.elementId move) (move :: moves)
  = move :: movesFor (ElementMove.elementId move) moves.
Proof. unfold movesFor. by rewrite filter_cons_True. Qed.

(** The loop of [merge] ends with an error exactly if, for some id with
    no pending move, the first move for the id is one [resolve] throws
    on. *)
Lemma merge_moves_Throws index h moves rm error :
  (Unchecked.merge_moves index h moves rm).1 = Some error ↔
  ∃ id firstMove,
    JSMap.get id rm = None
    ∧ head (movesFor id moves) = Some firstMove
    ∧ Unchecked.resolve firstMove index h = Throws error.
Proof.
  revert rm. induction moves as [|move moves IH]; intros rm.
  { split; [done|]. by intros (id & firstMove & _ & ? & _). }
  cbn [Unchecked.merge_moves].
  assert (∀ rm',
            (∀ id, id ≠ ElementMove.elementId move →
                   JSMap.get id rm' = JSMap.get id rm) →
            is_Some (JSMap.get (ElementMove.elementId move) rm') →
            (is_Some (JSMap.get (ElementMove.elementId move) rm)
             ∨ ∀ e, Unchecked.resolve move index h ≠ Throws e) →
            (Unchecked.merge_moves index h moves rm').1 = Some error ↔
            ∃ id firstMove,
              JSMap.get id rm = None
              ∧ head (movesFor id (move :: moves)) = Some firstMove
              ∧ Unchecked.resolve firstMove index h = Throws error) as Hstep.
  { intros rm' Hne [r' Hr'] Hok. rewrite IH. split.
    - intros (id & firstMove & Hg & Hf & Ht).
      assert (id ≠ ElementMove.elementId move) as Hid by (intros ->; congruence).
      exists id, firstMove. rewrite <- (Hne id Hid).
      by rewrite movesFor_cons_ne.
    - intros (id & firstMove & Hg & Hf & Ht).
      destruct (decide (id = ElementMove.elementId move)) as [->|Hid].
      + exfalso. destruct Hok as [[? Hs]|Hn]; [congruence|].
        rewrite movesFor_cons_eq in Hf. injection Hf as <-. by apply (Hn error).
      + exists id, firstMove. rewrite (Hne id Hid).
        by rewrite movesFor_cons_ne in Hf. }
  destruct (JSMap.get (ElementMove.elementId move) rm) as [existing|] eqn:Hg.
  - apply Hstep.
    + intros id Hid. by rewrite get_set_ne.
    + rewrite get_set_eq. by eexists.
    + left. by eexists.
  - destruct (Unchecked.resolve move index h) as [[r|]|e] eqn:Hr.
    + pose proof (resolve_Returns_elementId _ _ _ _ Hr) as He. rewrite He.
      apply Hstep.
      * intros id Hid. by rewrite get_set_ne.
      * rewrite get_set_eq. by eexists.
      * by right.
    + rewrite IH. split.
      * intros (id & firstMove & Hg' & Hf & Ht).
        destruct (decide (ElementMove.elementId move = id)) as [<-|Hid].
        -- exfalso. apply head_elem_of, movesFor_elementId in Hf as [Hf _].
           by apply (resolve_Returns_None _ _ _ _ error Hr Hf).
        -- exists id, firstMove. by rewrite movesFor_cons_ne.
      * intros (id & firstMove & Hg' & Hf & Ht).
        destruct (decide (ElementMove.elementId move = id)) as [<-|Hid].
        -- rewrite movesFor_cons_eq in Hf. injection Hf as <-. congruence.
        -- exists id, firstMove. by rewrite movesFor_cons_ne in Hf.
    + cbn [fst]. destruct e, error. split; [|done].
      intros _. exists (ElementMove.elementId move), move.
      by rewrite movesFor_cons_eq.
Qed.

(** Where every element has a position, the cast is right: [merge] ends
    as the merge of the elements at their type does. *)
Lemma resolve_ofLocateable move index (h : Heap) :
  Unchecked.resolve move index (AnyElement.ofLocateable <$> h)
  = Returns (Move.resolve move index h).
Proof.
  unfold Unchecked.resolve, Move.resolve, getById.
  destruct (index !! ElementMove.elementId move) as [element|]; [|done].
  rewrite lookup_fmap. destruct (h !! element) as [obj|]; [|done]. simpl.
  by destruct (ElementMove.fromPosition move).
Qed.

Lemma merge_moves_ofLocateable index (h : Heap) moves rm :
  Unchecked.merge_moves index (AnyElement.ofLocateable <$> h) moves rm
  = (None, Move.merge_moves index h moves rm).
Proof.
  revert rm. induction moves as [|move moves IH]; intros rm; [done|].
  cbn [Unchecked.merge_moves]. rewrite resolve_ofLocateable.
  change (Move.merge_moves index h (move :: moves) rm)
    with (Move.merge_moves index h moves (Move.merge_move index h rm move)).
  unfold Move.merge_move.
  destruct (JSMap.get (ElementMove.elementId move) rm) as [existing|]; [apply IH|].
  destruct (Move.resolve move index h) as [r|]; apply IH.
Qed.

End UncheckedFacts.

(** On elements at the type of the cast, [merge] returns true exactly
    when the receiver's action is not animated and the other command is a
    move command, and false otherwise. *)
Lemma merge_of_locateable_returns this command context h :
  ∃ b this', Move.merge this command context h = (b, this')
    ∧ (b = true ↔
         MoveAction.animate (MoveCommand.action this) = false
         ∧ ∃ other, command = AMoveCommand other)
    ∧ (b = false ↔
         ¬ (MoveAction.animate (MoveCommand.action this) = false
            ∧ ∃ other, command = AMoveCommand other))
    ∧ (MoveAction.animate (MoveCommand.action this) = true → b = false).
Proof.
  unfold Move.merge.
  destruct (MoveAction.animate (MoveCommand.action this)), command as [other|sel];
    simpl; eexists _, _; (split; [reflexivity|]).
  - split_and!; [split; [done|by intros [? _]]|split; [by intros _ [? _]|done]|done].
  - split_and!; [split; [done|by intros [? _]]|split; [by intros _ [? _]|done]|done].
  - split_and!; [split; [eauto|done]|split; [done|intros Hn; exfalso; eauto]|done].
  - split_and!; [split; [done|by intros [_ [? ?]]]|split; [by intros _ [_ [? ?]]|done]|done].
Qed.

(** * The claims *)

(** ** SelectCommand *)

(** C1. Select/deselect round trip.  On a scene graph whose child
    sequences hold each child once, executing a fresh select command for
    any action and then undoing it gives back the heap as it was (and the
    same model); so every element that an id of the action resolves to
    has its selected flag and its index in its parent's child sequence
    as before execute. *)
Theorem select_undo_execute action model h :
  Select.children_once h →
  let executed := Select.execute (Select.new action) model h in
  let undone := Select.undo executed.1.2 executed.1.1 executed.2 in
  undone.2 = h
  ∧ undone.1.1 = model
  ∧ ∀ id element obj,
      id ∈ SelectAction.selectedIds action ++ SelectAction.deselectedIds action →
      getById (SModelRoot.index model) h id = Some (element, obj) →
      Select.isSelected undone.2 element = Some (SModelElement.selected obj)
      ∧ Select.indexInParent undone.2 element = Select.indexInParent h element.
Proof.
  intros Hw executed undone.
  destruct (execute_recorded action model h Hw) as (Hm & Hu & _ & _).
  assert (undone.2 = h) as Hh by exact Hu.
  split; [done|]. split; [done|].
  intros id element obj _ [_ Ho]%getById_Some. rewrite Hh. split; [|done].
  unfold Select.isSelected. by rewrite Ho.
Qed.

Lemma select_undo_execute_witness :
  Select.children_once initialHeap
  ∧ (Select.undo (Select.execute (Select.new mySelectAction) initialModel initialHeap).1.2
       (Select.execute (Select.new mySelectAction) initialModel initialHeap).1.1
       (Select.execute (Select.new mySelectAction) initialModel initialHeap).2).2
    = initialHeap.
Proof.
  assert (Select.children_once initialHeap) as Hw.
  { unfold Select.children_once. apply (bool_decide_unpack _). by vm_compute. }
  split; [exact Hw|].
  exact (proj1 (select_undo_execute mySelectAction initialModel initialHeap Hw)).
Defined.

(** C4. Select execute reordering.  A select step on a resolved element
    that is not selected sets its flag, leaves every other flag, and puts
    it last among its parent's children, the others keeping their order;
    a deselect step on a resolved selected element clears its flag and
    reorders nothing.  After execute an element is deselected if an id to
    deselect names it, else selected if an id to select names it, else as
    before.  After [SelectAction([id], [])] the element is its parent's
    last child and undo puts the children back.  Redo after undo gives
    the executed heap again.  On the test model, with children
    [node1, node0] and [node0] selected, [SelectAction(['node1'],
    ['node0'])] selects [node1], deselects [node0], orders the children
    [node0, node1], and redo reproduces exactly this heap. *)
Theorem select_execute_reorders :
  (∀ index log h id element obj,
     getById index h id = Some (element, obj) →
     SModelElement.selected obj = false →
     let st := Select.select_one index (log, h) id in
     Select.isSelected st.2 element = Some true
     ∧ (∀ l, l ≠ element → Select.isSelected st.2 l = Select.isSelected h l)
     ∧ (∀ p cs, SModelElement.parent obj = Some p → childrenOf h p = Some cs →
          element ∈ cs →
          childrenOf st.2 p = Some (filter (λ c, c ≠ element) cs ++ [element])
          ∧ last (filter (λ c, c ≠ element) cs ++ [element]) = Some element)
     ∧ (∀ q, SModelElement.parent obj ≠ Some q → childrenOf st.2 q = childrenOf h q))
  ∧ (∀ index log h id element obj,
       getById index h id = Some (element, obj) →
       SModelElement.selected obj = true →
       let st := Select.deselect_one index (log, h) id in
       Select.isSelected st.2 element = Some false
       ∧ (∀ l, l ≠ element → Select.isSelected st.2 l = Select.isSelected h l)
       ∧ (∀ q, childrenOf st.2 q = childrenOf h q))
  ∧ (∀ this model h l,
       Select.isSelected (Select.execute this model h).2 l =
         (λ b, if decide (targets (SModelRoot.index model)
                            (SelectAction.deselectedIds (SelectCommand.action this)) l)
               then false
               else if decide (targets (SModelRoot.index model)
                                 (SelectAction.selectedIds (SelectCommand.action this)) l)
               then true else b) <$> Select.isSelected h l)
  ∧ (∀ model h id element obj p cs,
       getById (SModelRoot.index model) h id = Some (element, obj) →
       SModelElement.selected obj = false →
       SModelElement.parent obj = Some p → childrenOf h p = Some cs → element ∈ cs →
       let executed := Select.execute (Select.new (SelectAction.mk [id] [])) model h in
       Select.isSelected executed.2 element = Some true
       ∧ childrenOf executed.2 p = Some (filter (λ c, c ≠ element) cs ++ [element])
       ∧ (Select.children_once h →
          (Select.undo executed.1.2 model executed.2).2 = h))
  ∧ (∀ action model h,
       Select.children_once h →
       let executed := Select.execute (Select.new action) model h in
       let undone := Select.undo executed.1.2 model executed.2 in
       (Select.redo undone.1.2 model undone.2).2 = executed.2)
  ∧ (let executed := Select.execute cmd initialModel initialHeap in
     let undone := Select.undo executed.1.2 initialModel executed.2 in
     let redone := Select.redo undone.1.2 initialModel undone.2 in
     childrenOf initialHeap 0 = Some [2; 1]
     ∧ Select.isSelected initialHeap 2 = Some false
     ∧ Select.isSelected initialHeap 1 = Some true
     ∧ Select.isSelected executed.2 2 = Some true
     ∧ Select.isSelected executed.2 1 = Some false
     ∧ childrenOf executed.2 0 = Some [1; 2]
     ∧ Select.childIndex executed.2 0 2 = Some 1
     ∧ Select.childIndex executed.2 0 1 = Some 0
     ∧ Select.isSelected undone.2 2 = Some false
     ∧ Select.isSelected undone.2 1 = Some true
     ∧ childrenOf undone.2 0 = Some [2; 1]
     ∧ redone.2 = executed.2).
Proof.
  split; [exact select_one_effect|]. split; [exact deselect_one_effect|].
  split; [exact execute_flags|]. split; [|split].
  - intros model h id element obj p cs Hg Hs Hp Hcs Hin executed.
    destruct (select_one_effect (SModelRoot.index model) [] h id element obj Hg Hs)
      as (Hsel & _ & Hmv & _).
    destruct (Hmv p cs Hp Hcs Hin) as [Hc Hl].
    split_and!; [done|done|].
    intros Hw.
    by destruct (execute_recorded (SelectAction.mk [id] []) model h Hw) as (_ & Hu & _).
  - intros action model h Hw executed undone.
    destruct (execute_recorded action model h Hw) as (_ & Hu & Hr & _).
    change (foldl Select.redo_one
              (foldl Select.undo_one executed.2
                 (reverse (SelectCommand.touched executed.1.2)))
              (SelectCommand.touched executed.1.2) = executed.2).
    fold executed in Hu, Hr. by rewrite Hu.
  - vm_compute. by repeat split.
Qed.

(** C8. Select merge never coalesces.  For every command and context,
    [SelectCommand.merge] returns false and leaves the receiver and the
    heap as they were: every element keeps its selected flag and its index
    among its parent's children; called on command objects, be they one
    and the same as in the test, the whole store is unchanged. *)
Theorem select_merge_never this command context h :
  let r := Select.merge this command context h in
  r.1.1 = false ∧ r.1.2 = this ∧ r.2 = h
  ∧ (∀ l, Select.isSelected r.2 l = Select.isSelected h l
          ∧ Select.indexInParent r.2 l = Select.indexInParent h l)
  ∧ ∀ receiver argument w other,
      World.commands w !! receiver = Some (ASelectCommand this) →
      World.commands w !! argument = Some other →
      call_merge receiver argument context w = Some (false, w).
Proof.
  simpl. split_and!; try done.
  intros receiver argument w other Hr Ha. unfold call_merge. rewrite Hr, Ha. simpl.
  rewrite insert_id by done. by destruct w.
Qed.

Lemma select_merge_never_witness :
  call_merge 2 2 testContext dragWorld = Some (false, dragWorld).
Proof.
  refine (proj2 (proj2 (proj2 (proj2
            (select_merge_never cmd (ASelectCommand cmd) testContext draggedHeap))))
            2 2 dragWorld (ASelectCommand cmd) _ _);
    by vm_compute.
Defined.

(** ** MoveCommand *)

(** C3, as amended.  [MoveCommand.merge] returns false, and changes
    nothing of the receiver, exactly when the receiver's action is
    animated or the other command is not a move command; it does not
    throw then.  Otherwise it merges the other command's moves in turn
    and returns true, unless it has to resolve, for an id with no pending
    move, a first move that gives no fromPosition and names an indexed
    element that has no position: reading [element.position.x] then
    throws a [TypeError], and that is the only way the call can end
    without a value.  Where every element has a position, the call
    returns what the merge of the elements at the type of the cast
    returns. *)
Theorem merge_accepts_iff this command context (h : AnyHeap) :
  let r := Unchecked.merge this command context h in
  let accepts :=
    MoveAction.animate (MoveCommand.action this) = false
    ∧ ∃ other, command = AMoveCommand other in
  let index := SModelRoot.index (CommandExecutionContext.root context) in
  (r.1 = Returns false ↔ ¬ accepts)
  ∧ (¬ accepts → r.2 = this)
  ∧ (MoveAction.animate (MoveCommand.action this) = true → r.1 = Returns false)
  ∧ (∀ other,
       MoveAction.animate (MoveCommand.action this) = false →
       command = AMoveCommand other →
       let throws :=
         ∃ id firstMove element obj,
           JSMap.get id (MoveCommand.resolvedMoves this) = None
           ∧ head (movesFor id (MoveAction.moves (MoveCommand.action other)))
             = Some firstMove
           ∧ ElementMove.fromPosition firstMove = None
           ∧ index !! id = Some element
           ∧ h !! element = Some obj
           ∧ AnyElement.position obj = None in
       (r.1 = Throws TypeError ↔ throws)
       ∧ (r.1 = Returns true ↔ ¬ throws))
  ∧ (∀ h' : Heap,
       h = AnyElement.ofLocateable <$> h' →
       r = (Returns (Move.merge this command context h').1,
            (Move.merge this command context h').2)).
Proof.
  intros r accepts index.
  assert (∀ other,
            MoveAction.animate (MoveCommand.action this) = false →
            command = AMoveCommand other →
            r = (match (Unchecked.merge_moves index h
                          (MoveAction.moves (MoveCommand.action other))
                          (MoveCommand.resolvedMoves this)).1 with
                 | None => Returns true
                 | Some error => Throws error
                 end,
                 MoveCommand.mk (MoveCommand.action this)
                   (Unchecked.merge_moves index h
                      (MoveAction.moves (MoveCommand.action other))
                      (MoveCommand.resolvedMoves this)).2)) as Hacc.
  { intros other Ha ->. unfold r, Unchecked.merge. by rewrite Ha. }
  assert (¬ accepts → r = (Returns false, this)) as Hrej.
  { intros Hn. unfold r, Unchecked.merge.
    destruct (MoveAction.animate (MoveCommand.action this)) eqn:Ha; [done|].
    destruct command as [other|sel]; [|done].
    exfalso. apply Hn. split; [done|]. by exists other. }
  split_and!.
  - split; [|by intros ->%Hrej].
    intros Hr [Ha [other Hc]]. rewrite (Hacc other Ha Hc) in Hr. simpl in Hr.
    by destruct (Unchecked.merge_moves _ _ _ _).1.
  - by intros ->%Hrej.
  - intros Ha. rewrite Hrej; [done|]. intros [Hf _]. congruence.
  - intros other Ha Hc throws.
    assert ((Unchecked.merge_moves index h
               (MoveAction.moves (MoveCommand.action other))
               (MoveCommand.resolvedMoves this)).1 = Some TypeError ↔ throws) as Ht.
    { rewrite merge_moves_Throws. unfold throws. split.
      - intros (id & firstMove & Hg & Hf & (_ & Hn & element & obj & Hi & Hh & Hp)
                                         %resolve_Throws).
        pose proof (head_elem_of _ _ Hf) as [Hid _]%movesFor_elementId.
        rewrite Hid in Hi. by exists id, firstMove, element, obj.
      - intros (id & firstMove & element & obj & Hg & Hf & Hn & Hi & Hh & Hp).
        exists id, firstMove. split_and!; [done..|].
        apply resolve_Throws. split_and!; [done..|].
        pose proof (head_elem_of _ _ Hf) as [Hid _]%movesFor_elementId.
        exists element, obj. by rewrite Hid. }
    rewrite (Hacc other Ha Hc). cbn [fst]. rewrite <- Ht.
    destruct (Unchecked.merge_moves _ _ _ _).1 as [[]|]; split; split; try done.
    all: by intros ? ?.
  - intros h' ->. unfold r, Unchecked.merge, Move.merge.
    destruct (MoveAction.animate (MoveCommand.action this)); [done|].
    destruct (instanceofMoveCommand command) as [other|]; [|done].
    by rewrite merge_moves_ofLocateable.
Qed.

(** The clause of C3 as stated, "it never throws", fails on the test
    model: the graph is in the index and has no position, so the
    merge of a move of the graph that gives no fromPosition throws. *)
Lemma merge_throws_without_position :
  MoveAction.animate (MoveCommand.action firstDrag) = false
  ∧ initialIndex !! "graph" = Some 0
  ∧ AnyElement.position <$> anyHeap !! 0 = Some None
  ∧ (Unchecked.merge firstDrag (AMoveCommand graphDrag) testContext anyHeap).1
    = Throws TypeError.
Proof. by vm_compute. Qed.

(** C2, as amended.  Let a non-animated move command merge another move
    command.  For an id with a pending resolved move, the entry keeps its
    fromPosition, id and element and takes the toPosition of the other
    command's (last) move for the id.  For an id with no pending move, the
    (first) move for it is resolved against the context's index and added
    (with the target of the last move for the id); ids the other command
    does not name keep their entry.  Undo of the merged command starts a
    reverse animation over the merged map.  Where the entry of the id is
    the last of the map that refers to its element, every tick
    interpolates the element from the merged toPosition towards the
    original fromPosition; at [t = 1] the element is at the original
    fromPosition ([===]) when the coordinates of both points are finite,
    and a coordinate whose merged target is infinite or [NaN] comes out
    as [NaN]. *)
Theorem merge_accumulates this other context h :
  MoveAction.animate (MoveCommand.action this) = false →
  let index := SModelRoot.index (CommandExecutionContext.root context) in
  let otherMoves := MoveAction.moves (MoveCommand.action other) in
  let merged := (Move.merge this (AMoveCommand other) context h).2 in
  (Move.merge this (AMoveCommand other) context h).1 = true
  ∧ (∀ id existing otherMove,
       JSMap.get id (MoveCommand.resolvedMoves this) = Some existing →
       last (movesFor id otherMoves) = Some otherMove →
       JSMap.get id (MoveCommand.resolvedMoves merged) =
         Some (ResolvedElementMove.mk
                 (ResolvedElementMove.fromPosition existing)
                 (ResolvedElementMove.elementId existing)
                 (ResolvedElementMove.element existing)
                 (ElementMove.toPosition otherMove)))
  ∧ (∀ id firstMove lastMove,
       JSMap.get id (MoveCommand.resolvedMoves this) = None →
       head (movesFor id otherMoves) = Some firstMove →
       last (movesFor id otherMoves) = Some lastMove →
       JSMap.get id (MoveCommand.resolvedMoves merged) =
         ResolvedElementMove.set_toPosition (ElementMove.toPosition lastMove)
           <$> Move.resolve firstMove index h)
  ∧ (∀ id, movesFor id otherMoves = [] →
       JSMap.get id (MoveCommand.resolvedMoves merged) =
       JSMap.get id (MoveCommand.resolvedMoves this))
  ∧ (∀ context' h',
       let backward := MoveAnimation.mk (CommandExecutionContext.root context')
                         (MoveCommand.resolvedMoves merged) context' true in
       Move.undo merged context' h' = (Animated (start backward), merged, h')
       ∧ ∀ id existing otherMove,
           JSMap.get id (MoveCommand.resolvedMoves this) = Some existing →
           last (movesFor id otherMoves) = Some otherMove →
           lastWriter (MoveCommand.resolvedMoves merged)
             (ResolvedElementMove.element existing)
           = JSMap.get id (MoveCommand.resolvedMoves merged) →
           (∀ t h'',
              (Move.tween backward t h'').2 !! ResolvedElementMove.element existing =
                SModelElement.set_position
                  (Point.mk
                     ((Number.one - t) * Point.x (ElementMove.toPosition otherMove)
                      + t * Point.x (ResolvedElementMove.fromPosition existing))%num
                     ((Number.one - t) * Point.y (ElementMove.toPosition otherMove)
                      + t * Point.y (ResolvedElementMove.fromPosition existing))%num)
                <$> h'' !! ResolvedElementMove.element existing)
           ∧ (∀ h'' obj,
                finitePoint (ResolvedElementMove.fromPosition existing) = true →
                finitePoint (ElementMove.toPosition otherMove) = true →
                (Move.tween backward Number.one h'').2
                  !! ResolvedElementMove.element existing = Some obj →
                Number.strictEquals
                  (Point.x (SModelElement.position obj))
                  (Point.x (ResolvedElementMove.fromPosition existing)) = true
                ∧ Number.strictEquals
                    (Point.y (SModelElement.position obj))
                    (Point.y (ResolvedElementMove.fromPosition existing)) = true)
           ∧ (∀ h'' obj,
                (Move.tween backward Number.one h'').2
                  !! ResolvedElementMove.element existing = Some obj →
                (Number.isFinite (Point.x (ElementMove.toPosition otherMove)) = false →
                 Point.x (SModelElement.position obj) = S754_nan)
                ∧ (Number.isFinite (Point.y (ElementMove.toPosition otherMove)) = false →
                   Point.y (SModelElement.position obj) = S754_nan))).
Proof.
  intros Ha index otherMoves merged.
  assert (Move.merge this (AMoveCommand other) context h =
          (true, MoveCommand.mk (MoveCommand.action this)
                   (Move.merge_moves index h otherMoves
                      (MoveCommand.resolvedMoves this)))) as Hm.
  { unfold Move.merge. by rewrite Ha. }
  assert (∀ id existing otherMove,
       JSMap.get id (MoveCommand.resolvedMoves this) = Some existing →
       last (movesFor id otherMoves) = Some otherMove →
       JSMap.get id (MoveCommand.resolvedMoves merged) =
         Some (ResolvedElementMove.mk
                 (ResolvedElementMove.fromPosition existing)
                 (ResolvedElementMove.elementId existing)
                 (ResolvedElementMove.element existing)
                 (ElementMove.toPosition otherMove))) as Hexisting.
  { intros id existing otherMove Hg Hl. unfold merged. rewrite Hm. simpl.
    by rewrite merge_moves_get, Hl, Hg. }
  split; [by rewrite Hm|]. split; [done|]. split.
  { intros id firstMove lastMove Hg Hf Hl. unfold merged. rewrite Hm. simpl.
    by rewrite merge_moves_get, Hl, Hg, Hf. }
  split.
  { intros id Hnil. unfold merged. rewrite Hm. simpl.
    by rewrite merge_moves_get, Hnil. }
  intros context' h' backward. split; [done|].
  intros id existing otherMove Hg Hl Hw. split; [|split].
  - intros t h''. rewrite tween_lookup. simpl.
    by rewrite Hw, (Hexisting _ _ _ Hg Hl).
  - intros h'' obj Hf Ht. rewrite tween_lookup. simpl.
    rewrite Hw, (Hexisting _ _ _ Hg Hl).
    destruct (h'' !! _) as [o|]; [|done]. intros [= <-].
    pose proof (tween_position_one true
                  (ResolvedElementMove.mk
                     (ResolvedElementMove.fromPosition existing)
                     (ResolvedElementMove.elementId existing)
                     (ResolvedElementMove.element existing)
                     (ElementMove.toPosition otherMove)) Hf Ht) as (Hx & Hy & _).
    by destruct o.
  - intros h'' obj. rewrite tween_lookup. simpl.
    rewrite Hw, (Hexisting _ _ _ Hg Hl).
    destruct (h'' !! _) as [o|]; [|done]. intros [= <-].
    destruct o. unfold Move.tween_position.
    cbn [SModelElement.position SModelElement.set_position Point.x Point.y
         ResolvedElementMove.fromPosition ResolvedElementMove.toPosition].
    split; intros Hn; by apply lerp_at_one_not_finite.
Qed.

Lemma merge_accumulates_witness :
  MoveAction.animate (MoveCommand.action dragging) = false
  ∧ JSMap.get "node0"
      (MoveCommand.resolvedMoves
         (Move.merge dragging (AMoveCommand secondDrag) testContext draggedHeap).2)
    = Some (ResolvedElementMove.mk (point 100 100) "node0" 1 (point 120 120))
  ∧ ∃ obj,
      (Move.tween
         (MoveAnimation.mk initialModel
            (MoveCommand.resolvedMoves
               (Move.merge dragging (AMoveCommand secondDrag) testContext
                  draggedHeap).2)
            testContext true)
         Number.one draggedHeap).2 !! 1 = Some obj
      ∧ Number.strictEquals (Point.x (SModelElement.position obj)) (ofZ 100) = true
      ∧ Number.strictEquals (Point.y (SModelElement.position obj)) (ofZ 100) = true.
Proof.
  assert (MoveAction.animate (MoveCommand.action dragging) = false) as Ha
    by reflexivity.
  assert (JSMap.get "node0" (MoveCommand.resolvedMoves dragging)
          = Some (ResolvedElementMove.mk (point 100 100) "node0" 1 (point 110 110)))
    as Hg by by vm_compute.
  assert (last (movesFor "node0" (MoveAction.moves (MoveCommand.action secondDrag)))
          = Some (ElementMove.mk None "node0" (point 120 120))) as Hl
    by by vm_compute.
  destruct (merge_accumulates dragging secondDrag testContext draggedHeap Ha)
    as (_ & Hexisting & _ & _ & Hundo).
  split; [exact Ha|]. split; [exact (Hexisting _ _ _ Hg Hl)|].
  destruct (Hundo testContext draggedHeap) as [_ Hticks].
  destruct (Hticks _ _ _ Hg Hl ltac:(by vm_compute)) as (_ & Hend & _).
  exists (SModelElement.set_position (point 100 100) node0).
  assert ((Move.tween
             (MoveAnimation.mk initialModel
                (MoveCommand.resolvedMoves
                   (Move.merge dragging (AMoveCommand secondDrag) testContext
                      draggedHeap).2)
                testContext true)
             Number.one draggedHeap).2 !! 1
          = Some (SModelElement.set_position (point 100 100) node0)) as Ho
    by by vm_compute.
  split; [exact Ho|].
  exact (Hend draggedHeap _ ltac:(by vm_compute) ltac:(by vm_compute) Ho).
Defined.

(** The undo clause of C2 as stated, "undo returns the element to the
    original fromPosition", fails on a merged target with an infinite
    coordinate: the drag of [node0] from (100, 100) merges a move to
    (Infinity, 0); the merged entry keeps the start (100, 100), and the
    last tick of undo leaves [x] at [NaN], which is not [100]. *)
Lemma merge_undo_from_infinite_target :
  MoveAction.animate (MoveCommand.action dragging) = false
  ∧ JSMap.get "node0"
      (MoveCommand.resolvedMoves
         (Move.merge dragging (AMoveCommand farDrag) testContext draggedHeap).2)
    = Some (ResolvedElementMove.mk (point 100 100) "node0" 1
              (Point.mk infinity (ofZ 0)))
  ∧ ∃ obj,
      (Move.tween
         (MoveAnimation.mk initialModel
            (MoveCommand.resolvedMoves
               (Move.merge dragging (AMoveCommand farDrag) testContext draggedHeap).2)
            testContext true)
         Number.one draggedHeap).2 !! 1 = Some obj
      ∧ Point.x (SModelElement.position obj) = S754_nan
      ∧ Number.strictEquals (Point.x (SModelElement.position obj)) (ofZ 100) = false.
Proof.
  split; [reflexivity|]. split; [by vm_compute|].
  eexists. split; [by vm_compute|]. split; reflexivity.
Qed.

(** C5. Move execute semantics.  [resolve] looks the id up in the index
    and records the given fromPosition or else the element's current
    position.  Every move of the action is resolved in turn: the entry
    left under an id is the resolution of the last move for it, against
    the heap as it is when that move is reached.  Not animated: the model
    itself is returned and each element is at the toPosition of the last
    move that names it, everything else as before.  Animated: the heap is
    untouched (also between the moves) and a started forward
    [MoveAnimation] over the command's resolved moves is returned. *)
Theorem execute_semantics this context h :
  let model := CommandExecutionContext.root context in
  let index := SModelRoot.index model in
  let animate := MoveAction.animate (MoveCommand.action this) in
  let moves := MoveAction.moves (MoveCommand.action this) in
  let r := Move.execute this context h in
  MoveCommand.action r.1.2 = MoveCommand.action this
  ∧ (∀ move h0 element obj,
       getById index h0 (ElementMove.elementId move) = Some (element, obj) →
       Move.resolve move index h0 =
         Some (ResolvedElementMove.mk
                 (default (SModelElement.position obj) (ElementMove.fromPosition move))
                 (ElementMove.elementId move) element (ElementMove.toPosition move)))
  ∧ (∀ l1 move l2 element obj,
       moves = l1 ++ move :: l2 →
       (∀ m, m ∈ l2 → ElementMove.elementId m ≠ ElementMove.elementId move) →
       getById index
         (Move.execute_moves animate index l1 (MoveCommand.resolvedMoves this, h)).2
         (ElementMove.elementId move) = Some (element, obj) →
       JSMap.get (ElementMove.elementId move) (MoveCommand.resolvedMoves r.1.2) =
         Some (ResolvedElementMove.mk
                 (default (SModelElement.position obj) (ElementMove.fromPosition move))
                 (ElementMove.elementId move) element (ElementMove.toPosition move)))
  ∧ (animate = false →
       r.1.1 = Model model
       ∧ ∀ l, r.2 !! l =
              match lastMoveTo index moves l with
              | Some move =>
                  SModelElement.set_position (ElementMove.toPosition move) <$> h !! l
              | None => h !! l
              end)
  ∧ (animate = true →
       r.2 = h
       ∧ r.1.1 = Animated (start (MoveAnimation.mk model
                                    (MoveCommand.resolvedMoves r.1.2) context false))
       ∧ ∀ l1, (Move.execute_moves animate index l1
                  (MoveCommand.resolvedMoves this, h)).2 = h).
Proof.
  intros model index animate moves r.
  split; [by unfold r, Move.execute; destruct (MoveAction.animate _)|].
  split; [intros; by apply resolve_Some|].
  split.
  - intros l1 move l2 element obj Hm Hl2 Hg.
    assert (MoveCommand.resolvedMoves r.1.2 =
            (Move.execute_moves animate index moves
               (MoveCommand.resolvedMoves this, h)).1) as ->.
    { unfold r, Move.execute. fold model index animate moves. by destruct animate. }
    rewrite Hm, execute_moves_app, execute_moves_cons, execute_moves_get_ne by done.
    rewrite (execute_move_resolved _ _ _ _ _ _ Hg). simpl. apply get_set_eq.
  - split; intros Ha.
    + unfold r, Move.execute. fold model index animate moves. rewrite Ha.
      split; [done|]. intros l. simpl. by rewrite execute_moves_lookup.
    + unfold r, Move.execute. fold model index animate moves. rewrite Ha.
      simpl. rewrite execute_moves_animated. split; [done|]. split; [done|].
      intros l1. by rewrite execute_moves_animated.
Qed.

Lemma execute_semantics_witness :
  getById initialIndex initialHeap "node0" = Some (1, node0)
  ∧ JSMap.get "node0"
      (MoveCommand.resolvedMoves (Move.execute firstDrag testContext initialHeap).1.2)
    = Some (ResolvedElementMove.mk (point 100 100) "node0" 1 (point 110 110)).
Proof.
  assert (getById initialIndex initialHeap "node0" = Some (1, node0)) as Hg
    by by vm_compute.
  split; [exact Hg|].
  refine (proj1 (proj2 (proj2 (execute_semantics firstDrag testContext initialHeap)))
            [] (ElementMove.mk None "node0" (point 110 110)) [] 1 node0 eq_refl _ Hg).
  intros m Hm. by apply elem_of_nil in Hm.
Defined.

(** C6. Move undo/redo direction.  Whatever the action's animate flag,
    undo starts a [MoveAnimation] with reverse = true and redo one with
    reverse = false, both over the command's cached resolved moves and
    the context's root; command and heap are untouched by the call.  The
    result depends on the resolved moves alone.  At a tick [t] the
    reverse animation puts each tracked element at the interpolation from
    toPosition towards fromPosition, the forward one from fromPosition
    towards toPosition; untracked elements stay. *)
Theorem undo_redo_animations this context h :
  let model := CommandExecutionContext.root context in
  let backward :=
    MoveAnimation.mk model (MoveCommand.resolvedMoves this) context true in
  let forward :=
    MoveAnimation.mk model (MoveCommand.resolvedMoves this) context false in
  Move.undo this context h = (Animated (start backward), this, h)
  ∧ Move.redo this context h = (Animated (start forward), this, h)
  ∧ (∀ this2, MoveCommand.resolvedMoves this2 = MoveCommand.resolvedMoves this →
       (Move.undo this2 context h).1.1 = Animated (start backward)
       ∧ (Move.redo this2 context h).1.1 = Animated (start forward))
  ∧ (∀ t h' l,
       match lastWriter (MoveCommand.resolvedMoves this) l with
       | Some elementMove =>
           let fromPosition := ResolvedElementMove.fromPosition elementMove in
           let toPosition := ResolvedElementMove.toPosition elementMove in
           (Move.tween backward t h').2 !! l =
             SModelElement.set_position
               (Point.mk
                  ((Number.one - t) * Point.x toPosition + t * Point.x fromPosition)%num
                  ((Number.one - t) * Point.y toPosition + t * Point.y fromPosition)%num)
             <$> h' !! l
           ∧ (Move.tween forward t h').2 !! l =
             SModelElement.set_position
               (Point.mk
                  ((Number.one - t) * Point.x fromPosition + t * Point.x toPosition)%num
                  ((Number.one - t) * Point.y fromPosition + t * Point.y toPosition)%num)
             <$> h' !! l
       | None =>
           (Move.tween backward t h').2 !! l = h' !! l
           ∧ (Move.tween forward t h').2 !! l = h' !! l
       end).
Proof.
  intros model backward forward.
  split; [reflexivity|]. split; [reflexivity|]. split.
  - intros this2 E. unfold Move.undo, Move.redo. simpl. by rewrite E.
  - intros t h' l. rewrite !tween_lookup. simpl.
    by destruct (lastWriter _ l).
Qed.

(** C7, as amended.  [tween(t)] returns the animation's model and puts
    each tracked element at
    ((1 - t) * from.x + t * to.x, (1 - t) * from.y + t * to.y), with from
    and to swapped when reverse is set (where several entries refer to one
    element, the last one decides); untracked elements stay.  At [t = 1],
    when the coordinates of fromPosition and toPosition are finite, the
    position is strictly equal ([===]) to toPosition, or to fromPosition
    when reverse is set, and it is that very point unless one of its
    coordinates is the negative zero; a coordinate whose other endpoint
    is infinite or [NaN] comes out as [NaN]. *)
Theorem tween_interpolates this t h l :
  (Move.tween this t h).1 = MoveAnimation.model this
  ∧ (Move.tween this t h).2 !! l =
      match lastWriter (MoveAnimation.elementMoves this) l with
      | Some elementMove =>
          let fromPosition := ResolvedElementMove.fromPosition elementMove in
          let toPosition := ResolvedElementMove.toPosition elementMove in
          SModelElement.set_position
            (if MoveAnimation.reverse this
             then Point.mk
                    ((Number.one - t) * Point.x toPosition + t * Point.x fromPosition)%num
                    ((Number.one - t) * Point.y toPosition + t * Point.y fromPosition)%num
             else Point.mk
                    ((Number.one - t) * Point.x fromPosition + t * Point.x toPosition)%num
                    ((Number.one - t) * Point.y fromPosition + t * Point.y toPosition)%num)
          <$> h !! l
      | None => h !! l
      end
  ∧ (∀ elementMove obj,
       lastWriter (MoveAnimation.elementMoves this) l = Some elementMove →
       (Move.tween this Number.one h).2 !! l = Some obj →
       finitePoint (ResolvedElementMove.fromPosition elementMove) = true →
       finitePoint (ResolvedElementMove.toPosition elementMove) = true →
       let target := if MoveAnimation.reverse this
                     then ResolvedElementMove.fromPosition elementMove
                     else ResolvedElementMove.toPosition elementMove in
       Number.strictEquals (Point.x (SModelElement.position obj)) (Point.x target) = true
       ∧ Number.strictEquals (Point.y (SModelElement.position obj)) (Point.y target) = true
       ∧ (Point.x target ≠ Number.negativeZero →
          Point.y target ≠ Number.negativeZero →
          SModelElement.position obj = target))
  ∧ (∀ elementMove obj,
       lastWriter (MoveAnimation.elementMoves this) l = Some elementMove →
       (Move.tween this Number.one h).2 !! l = Some obj →
       let start := if MoveAnimation.reverse this
                    then ResolvedElementMove.toPosition elementMove
                    else ResolvedElementMove.fromPosition elementMove in
       (Number.isFinite (Point.x start) = false →
        Point.x (SModelElement.position obj) = S754_nan)
       ∧ (Number.isFinite (Point.y start) = false →
          Point.y (SModelElement.position obj) = S754_nan)).
Proof.
  split; [reflexivity|]. split; [|split].
  - rewrite tween_lookup. by destruct (lastWriter _ l).
  - intros elementMove obj Hl Ho Hf Ht. rewrite tween_lookup, Hl in Ho.
    destruct (h !! l) as [o|]; [|done]. injection Ho as <-.
    destruct o. simpl. by apply tween_position_one.
  - intros elementMove obj Hl Ho. rewrite tween_lookup, Hl in Ho.
    destruct (h !! l) as [o|]; [|done]. injection Ho as <-.
    destruct o. unfold Move.tween_position.
    destruct (MoveAnimation.reverse this); cbn [SModelElement.position
      SModelElement.set_position Point.x Point.y];
      split; intros Hn; by apply lerp_at_one_not_finite.
Qed.

Lemma tween_interpolates_witness :
  finitePoint (point 100 100) = true
  ∧ finitePoint (point 110 110) = true
  ∧ ∃ obj, (Move.tween finiteAnimation Number.one initialHeap).2 !! 1 = Some obj
      ∧ SModelElement.position obj = point 110 110.
Proof.
  split; [reflexivity|]. split; [reflexivity|].
  exists (SModelElement.set_position (point 110 110) node0).
  assert ((Move.tween finiteAnimation Number.one initialHeap).2 !! 1
          = Some (SModelElement.set_position (point 110 110) node0)) as Ho
    by by vm_compute.
  split; [exact Ho|].
  refine (proj2 (proj2 (proj1 (proj2 (proj2 (tween_interpolates finiteAnimation
            Number.one initialHeap 1)))
            (ResolvedElementMove.mk (point 100 100) "node0" 1 (point 110 110))
            (SModelElement.set_position (point 110 110) node0) _ Ho _ _)) _ _);
    by vm_compute.
Defined.

(** The endpoint claim of C7 as stated fails on a start with an infinite
    coordinate: at [t = 1] the forward tween of the move from
    (Infinity, 0) to (5, 5) leaves [x] at [NaN], which is not [5]. *)
Lemma tween_endpoint_from_infinity :
  ∃ obj, (Move.tween fromInfinity Number.one initialHeap).2 !! 1 = Some obj
    ∧ lastWriter (MoveAnimation.elementMoves fromInfinity) 1
      = Some (ResolvedElementMove.mk (Point.mk infinity (ofZ 0)) "node0" 1 (point 5 5))
    ∧ Point.x (SModelElement.position obj) = S754_nan
    ∧ Number.strictEquals (Point.x (SModelElement.position obj)) (Point.x (point 5 5))
      = false
    ∧ SModelElement.position obj ≠ point 5 5.
Proof.
  exists (SModelElement.set_position (Point.mk S754_nan (ofZ 5)) node0).
  split_and!; [by vm_compute|by vm_compute|reflexivity|reflexivity|].
  intros Heq. by vm_compute in Heq.
Qed.

(** C10. Merge has no model effect.  A call [receiver.merge(command,
    context)] on a move command completes, leaves the element heap as it
    is (so every position is as before) and leaves every command object
    other than the receiver as it is, the merged-in command whenever it is
    another object.  The receiver keeps its action; an entry of its
    [resolvedMoves] keeps everything but possibly its toPosition, and a
    new entry is the resolution of a move of the merged-in command
    against the context's index (with the latest target for its id). *)
Theorem merge_frame receiver command context w this other :
  World.commands w !! receiver = Some (AMoveCommand this) →
  World.commands w !! command = Some other →
  ∃ b w' this',
    call_merge receiver command context w = Some (b, w')
    ∧ World.elements w' = World.elements w
    ∧ (∀ l, SModelElement.position <$> World.elements w' !! l
            = SModelElement.position <$> World.elements w !! l)
    ∧ (∀ r, r ≠ receiver → World.commands w' !! r = World.commands w !! r)
    ∧ (command ≠ receiver → World.commands w' !! command = Some other)
    ∧ World.commands w' !! receiver = Some (AMoveCommand this')
    ∧ MoveCommand.action this' = MoveCommand.action this
    ∧ ∀ id,
        match JSMap.get id (MoveCommand.resolvedMoves this) with
        | Some existing =>
            ∃ p, JSMap.get id (MoveCommand.resolvedMoves this') =
                   Some (ResolvedElementMove.set_toPosition p existing)
        | None =>
            JSMap.get id (MoveCommand.resolvedMoves this') = None
            ∨ ∃ otherMove resolvedMove p,
                ElementMove.elementId otherMove = id
                ∧ Move.resolve otherMove
                    (SModelRoot.index (CommandExecutionContext.root context))
                    (World.elements w) = Some resolvedMove
                ∧ JSMap.get id (MoveCommand.resolvedMoves this') =
                    Some (ResolvedElementMove.set_toPosition p resolvedMove)
        end.
Proof.
  intros Hr Hc. unfold call_merge. rewrite Hr, Hc.
  eexists _, _, _. split; [reflexivity|]. simpl.
  split; [done|]. split; [done|].
  split; [by intros r Hne; rewrite lookup_insert_ne|].
  split; [by intros Hne; rewrite lookup_insert_ne|].
  split; [by rewrite lookup_insert_eq|].
  unfold Move.merge.
  destruct (MoveAction.animate (MoveCommand.action this)), other as [o|s]; simpl;
    (split; [done|]); intros id.
  3: { pose proof (merge_moves_entry
         (SModelRoot.index (CommandExecutionContext.root context)) (World.elements w)
         (MoveAction.moves (MoveCommand.action o)) (MoveCommand.resolvedMoves this) id)
         as He.
       destruct (JSMap.get id (MoveCommand.resolvedMoves this)); [done|].
       destruct He as [?|(m & r & p & _ & ? & ? & ?)]; [by left|].
       right. by exists m, r, p. }
  all: destruct (JSMap.get id (MoveCommand.resolvedMoves this)) as [existing|] eqn:Hg;
    [exists (ResolvedElementMove.toPosition existing); by rewrite set_toPosition_id
    |by left].
Qed.

Lemma merge_frame_witness :
  World.commands dragWorld !! 0 = Some (AMoveCommand dragging)
  ∧ World.commands dragWorld !! 1 = Some (AMoveCommand secondDrag)
  ∧ ∃ b w', call_merge 0 1 testContext dragWorld = Some (b, w')
      ∧ World.elements w' = draggedHeap
      ∧ World.commands w' !! 1 = Some (AMoveCommand secondDrag).
Proof.
  assert (World.commands dragWorld !! 0 = Some (AMoveCommand dragging)) as H0
    by by vm_compute.
  assert (World.commands dragWorld !! 1 = Some (AMoveCommand secondDrag)) as H1
    by by vm_compute.
  split; [exact H0|]. split; [exact H1|].
  destruct (merge_frame 0 1 testContext dragWorld dragging (AMoveCommand secondDrag)
              H0 H1) as (b & w' & this' & Hc & He & _ & _ & Ho & _).
  exists b, w'. split; [exact Hc|]. split; [exact He|]. by apply Ho.
Defined.

(** C9. Silent skip of unresolvable references.  Let the index hold
    nothing under an id.  [resolve] returns [undefined] for a move that
    names the id, and throws nothing, whatever the elements are.  A move
    of a batch that names the id changes nothing in
    [MoveCommand.execute]: heap, resolved moves and result are those of
    the batch without it, and the other moves are applied: not animated,
    every element is at the target of the last of the other moves that
    names it; animated or not, every id of an element of the model that
    another move names has its entry, with the target of the last move
    for it.  So it is for [MoveCommand.merge] when the id has no pending
    move (the case in which merge resolves): the call returns true and
    the receiver's map is the one the other moves make, pending entries
    retargeted and new ones resolved and added.  In a select command the
    id among the ids to select or to deselect changes nothing, and the
    flags are set for the other ids.  The matches that [removeElements]
    builds are those of the other entries, one for each whose id the
    index holds, in order. *)
Theorem unresolvable_ids_are_skipped (index : SModelIndex) (id : string) :
  index !! id = None →
  (∀ move, ElementMove.elementId move = id →
     (∀ h : Heap, Move.resolve move index h = None)
     ∧ (∀ h : AnyHeap, Unchecked.resolve move index h = Returns None))
  ∧ (∀ context animate rm l1 move l2 h,
     SModelRoot.index (CommandExecutionContext.root context) = index →
     ElementMove.elementId move = id →
     let batch := Move.execute
                    (MoveCommand.mk (MoveAction.mk (l1 ++ move :: l2) animate) rm)
                    context h in
     let rest := Move.execute
                   (MoveCommand.mk (MoveAction.mk (l1 ++ l2) animate) rm)
                   context h in
     batch.2 = rest.2
     ∧ MoveCommand.resolvedMoves batch.1.2 = MoveCommand.resolvedMoves rest.1.2
     ∧ batch.1.1 = rest.1.1
     ∧ (animate = false →
        ∀ l, batch.2 !! l =
             match lastMoveTo index (l1 ++ l2) l with
             | Some other =>
                 SModelElement.set_position (ElementMove.toPosition other) <$> h !! l
             | None => h !! l
             end)
     ∧ (∀ id' element lastMove,
          index !! id' = Some element →
          is_Some (h !! element) →
          last (movesFor id' (l1 ++ l2)) = Some lastMove →
          ∃ r, JSMap.get id' (MoveCommand.resolvedMoves batch.1.2) = Some r
               ∧ ResolvedElementMove.elementId r = id'
               ∧ ResolvedElementMove.element r = element
               ∧ ResolvedElementMove.toPosition r = ElementMove.toPosition lastMove
               ∧ ∀ p, ElementMove.fromPosition lastMove = Some p →
                      ResolvedElementMove.fromPosition r = p))
  ∧ (∀ context this animate rm l1 move l2 h,
       SModelRoot.index (CommandExecutionContext.root context) = index →
       ElementMove.elementId move = id →
       JSMap.get id (MoveCommand.resolvedMoves this) = None →
       let merged :=
         Move.merge this
           (AMoveCommand (MoveCommand.mk (MoveAction.mk (l1 ++ move :: l2) animate) rm))
           context h in
       merged
       = Move.merge this
           (AMoveCommand (MoveCommand.mk (MoveAction.mk (l1 ++ l2) animate) rm))
           context h
       ∧ (MoveAction.animate (MoveCommand.action this) = false →
          merged.1 = true
          ∧ ∀ id',
              JSMap.get id' (MoveCommand.resolvedMoves merged.2) =
                match last (movesFor id' (l1 ++ l2)) with
                | None => JSMap.get id' (MoveCommand.resolvedMoves this)
                | Some lastMove =>
                    ResolvedElementMove.set_toPosition
                      (ElementMove.toPosition lastMove) <$>
                      match JSMap.get id' (MoveCommand.resolvedMoves this) with
                      | Some existing => Some existing
                      | None =>
                          head (movesFor id' (l1 ++ l2)) ≫= λ firstMove,
                            Move.resolve firstMove index h
                      end
                end))
  ∧ (∀ model touched l1 l2 others h,
       SModelRoot.index model = index →
       let batch := Select.execute
                      (SelectCommand.mk (SelectAction.mk (l1 ++ id :: l2) others) touched)
                      model h in
       let rest := Select.execute
                     (SelectCommand.mk (SelectAction.mk (l1 ++ l2) others) touched)
                     model h in
       batch.2 = rest.2
       ∧ SelectCommand.touched batch.1.2 = SelectCommand.touched rest.1.2
       ∧ ∀ l, Select.isSelected batch.2 l =
              (λ b, if decide (targets index others l) then false
                    else if decide (targets index (l1 ++ l2) l) then true else b)
                <$> Select.isSelected h l)
  ∧ (∀ model touched l1 l2 others h,
       SModelRoot.index model = index →
       let batch := Select.execute
                      (SelectCommand.mk (SelectAction.mk others (l1 ++ id :: l2)) touched)
                      model h in
       let rest := Select.execute
                     (SelectCommand.mk (SelectAction.mk others (l1 ++ l2)) touched)
                     model h in
       batch.2 = rest.2
       ∧ SelectCommand.touched batch.1.2 = SelectCommand.touched rest.1.2
       ∧ ∀ l, Select.isSelected batch.2 l =
              (λ b, if decide (targets index (l1 ++ l2) l) then false
                    else if decide (targets index others l) then true else b)
                <$> Select.isSelected h l)
  ∧ (∀ rootId parentId l1 l2,
       let applied :=
         omap (λ e, (λ element,
                       LocalModelSource.Match.mk element
                         match e with
                         | LocalModelSource.ById _ => rootId
                         | LocalModelSource.ByIdAndParent _ parent => parent
                         end) <$> index !! removedId e) (l1 ++ l2) in
       LocalModelSource.removeElements index rootId
         (l1 ++ LocalModelSource.ById id :: l2) = applied
       ∧ LocalModelSource.removeElements index rootId
           (l1 ++ LocalModelSource.ByIdAndParent id parentId :: l2) = applied
       ∧ LocalModelSource.removeElements index rootId (l1 ++ l2) = applied).
Proof.
  intros Hi. split_and!.
  - intros move Hm. split; intros h.
    + apply resolve_None, getById_None. by rewrite Hm.
    + unfold Unchecked.resolve. by rewrite Hm, Hi.
  - intros context animate rm l1 move l2 h Hc Hm batch rest.
    assert (batch.2 = (Move.execute_moves animate index (l1 ++ l2) (rm, h)).2
            ∧ MoveCommand.resolvedMoves batch.1.2
              = (Move.execute_moves animate index (l1 ++ l2) (rm, h)).1) as [Hh Hr].
    { unfold batch, Move.execute. simpl. rewrite Hc.
      rewrite execute_moves_skip by by rewrite Hm. by destruct animate. }
    split_and!.
    + unfold batch, rest, Move.execute. simpl. rewrite Hc.
      rewrite execute_moves_skip by by rewrite Hm. by destruct animate.
    + unfold batch, rest, Move.execute. simpl. rewrite Hc.
      rewrite execute_moves_skip by by rewrite Hm. by destruct animate.
    + unfold batch, rest, Move.execute. simpl. rewrite Hc.
      rewrite execute_moves_skip by by rewrite Hm. by destruct animate.
    + intros -> l. by rewrite Hh, execute_moves_lookup.
    + intros id' element lastMove Hi' Hs Hl. rewrite Hr.
      by apply execute_moves_get.
  - intros context this animate rm l1 move l2 h Hc Hm Hg merged.
    assert (Move.merge_moves index h (l1 ++ move :: l2) (MoveCommand.resolvedMoves this)
            = Move.merge_moves index h (l1 ++ l2) (MoveCommand.resolvedMoves this))
      as Hs by (rewrite merge_moves_skip; [done|by rewrite Hm|by rewrite Hm]).
    split.
    + unfold merged, Move.merge. simpl. rewrite Hc.
      destruct (MoveAction.animate (MoveCommand.action this)); [done|].
      by rewrite Hs.
    + intros Ha. unfold merged, Move.merge. simpl. rewrite Hc, Ha. simpl.
      split; [done|]. intros id'. by rewrite Hs, merge_moves_get.
  - intros model touched l1 l2 others h Hm batch rest.
    assert (batch.2 = rest.2) as Hb.
    { unfold batch, rest, Select.execute. simpl. rewrite Hm.
      by rewrite select_steps_skip. }
    split_and!; [done| |].
    + unfold batch, rest, Select.execute. simpl. rewrite Hm.
      by rewrite select_steps_skip.
    + intros l. rewrite Hb. unfold rest. rewrite execute_flags. simpl. by rewrite Hm.
  - intros model touched l1 l2 others h Hm batch rest.
    assert (batch.2 = rest.2) as Hb.
    { unfold batch, rest, Select.execute. simpl. rewrite Hm.
      by rewrite deselect_steps_skip. }
    split_and!; [done| |].
    + unfold batch, rest, Select.execute. simpl. rewrite Hm.
      by rewrite deselect_steps_skip.
    + intros l. rewrite Hb. unfold rest. rewrite execute_flags. simpl. by rewrite Hm.
  - intros rootId parentId l1 l2 applied.
    rewrite !removeElements_skip by done. by rewrite removeElements_omap.
Qed.

Lemma unresolvable_ids_are_skipped_witness :
  initialIndex !! "ghost" = None
  ∧ (Move.execute secondDrag testContext initialHeap).2
    = (Move.execute
         (MoveCommand.mk
            (MoveAction.mk [ElementMove.mk None "node0" (point 120 120);
                            ElementMove.mk None "node1" (point 220 220)] false) [])
         testContext initialHeap).2
  ∧ SModelElement.position <$>
      (Move.execute secondDrag testContext initialHeap).2 !! 2 = Some (point 220 220)
  ∧ (Move.merge dragging (AMoveCommand secondDrag) testContext draggedHeap).1 = true
  ∧ JSMap.get "node1"
      (MoveCommand.resolvedMoves
         (Move.merge dragging (AMoveCommand secondDrag) testContext draggedHeap).2)
    = Some (ResolvedElementMove.mk (point 200 200) "node1" 2 (point 220 220))
  ∧ LocalModelSource.removeElements initialIndex "graph"
      [LocalModelSource.ById "node0"; LocalModelSource.ById "ghost";
       LocalModelSource.ByIdAndParent "node1" "graph"]
    = [LocalModelSource.Match.mk 1 "graph"; LocalModelSource.Match.mk 2 "graph"].
Proof.
  assert (initialIndex !! "ghost" = None) as Hi by by vm_compute.
  destruct (unresolvable_ids_are_skipped initialIndex "ghost" Hi)
    as (_ & Hexecute & Hmerge & _ & _ & Hremove).
  split; [exact Hi|].
  destruct (Hexecute testContext false []
              [ElementMove.mk None "node0" (point 120 120)]
              (ElementMove.mk None "ghost" (point 1 1))
              [ElementMove.mk None "node1" (point 220 220)]
              initialHeap eq_refl eq_refl) as (Hheap & _ & _ & Happlied & _).
  split; [exact Hheap|].
  split; [exact (f_equal (fmap SModelElement.position) (Happlied eq_refl 2))|].
  destruct (Hmerge testContext dragging false []
              [ElementMove.mk None "node0" (point 120 120)]
              (ElementMove.mk None "ghost" (point 1 1))
              [ElementMove.mk None "node1" (point 220 220)]
              draggedHeap eq_refl eq_refl ltac:(by vm_compute)) as [_ Hm].
  destruct (Hm eq_refl) as [Htrue Hget].
  split; [exact Htrue|]. split; [exact (Hget "node1")|].
  exact (proj1 (Hremove "graph" "graph"
                  [LocalModelSource.ById "node0"]
                  [LocalModelSource.ByIdAndParent "node1" "graph"])).
Defined.

(** * More of the code *)

(** ** The [Map] operations, again *)

Section JSMapMore.
Context {V : Type}.
Implicit Types (m : JSMap.t V) (k : string) (v : V).

Lemma get_None_keys k m : JSMap.get k m = None ↔ k ∉ m.*1.
Proof.
  induction m as [|[k' v'] m IH]; simpl.
  - split; [intros _; apply not_elem_of_nil|done].
  - case_decide as Hk.
    + subst. split; [done|]. intros Hn. exfalso. apply Hn, list_elem_of_here.
    + rewrite IH, not_elem_of_cons. split; [by intros ?; split; [congruence|]|by intros [_ ?]].
Qed.

Lemma set_absent k v m : JSMap.get k m = None → JSMap.set k v m = m ++ [(k, v)].
Proof.
  induction m as [|[k' v'] m IH]; simpl; [done|].
  case_decide; [done|]. intros Hg. by rewrite IH.
Qed.

Lemma set_keys k v m :
  (JSMap.set k v m).*1 =
    match JSMap.get k m with Some _ => m.*1 | None => m.*1 ++ [k] end.
Proof.
  induction m as [|[k' v'] m IH]; [done|]. cbn [JSMap.set JSMap.get].
  case_decide; [done|]. rewrite !fmap_cons, IH. by destruct (JSMap.get k m).
Qed.

Lemma set_elem_of k v m k' v' :
  (k', v') ∈ JSMap.set k v m → (k' = k ∧ v' = v) ∨ (k', v') ∈ m.
Proof.
  induction m as [|[k0 v0] m IH]; simpl.
  - intros ?%list_elem_of_singleton. left. by simplify_eq.
  - case_decide as Hk.
    + intros [?|?]%elem_of_cons; [left; by simplify_eq|right; by apply list_elem_of_further].
    + intros [?|Hin]%elem_of_cons; [right; simplify_eq; apply list_elem_of_here|].
      destruct (IH Hin) as [?|?]; [by left|right; by apply list_elem_of_further].
Qed.

Lemma set_NoDup k v m : NoDup m.*1 → NoDup (JSMap.set k v m).*1.
Proof.
  intros Hnd. rewrite set_keys. destruct (JSMap.get k m) eqn:Hg; [done|].
  apply NoDup_app. split_and!; [done| |apply NoDup_singleton].
  intros a Ha ->%list_elem_of_singleton. by apply get_None_keys in Hg.
Qed.

Lemma get_elem_of k v m : JSMap.get k m = Some v → (k, v) ∈ m.
Proof.
  induction m as [|[k0 v0] m IH]; simpl; [done|].
  case_decide; [intros [= ->]; subst; apply list_elem_of_here|].
  intros ?. by apply list_elem_of_further, IH.
Qed.

Lemma elem_of_get k v m : NoDup m.*1 → (k, v) ∈ m → JSMap.get k m = Some v.
Proof.
  induction m as [|[k0 v0] m IH]; simpl; [by intros _ ?%elem_of_nil|].
  intros [Hn Hnd]%NoDup_cons [Heq|Hin]%elem_of_cons.
  - simplify_eq. by rewrite decide_True.
  - rewrite decide_False; [by apply IH|]. intros ->. apply Hn.
    apply list_elem_of_fmap. by exists (k, v).
Qed.
End JSMapMore.

(** ** Invariants of the move command *)

Section KeyedFacts.
Implicit Types (index : SModelIndex) (h : Heap) (move : ElementMove.t)
  (rm : JSMap.t ResolvedElementMove.t)
  (st : JSMap.t ResolvedElementMove.t * Heap).

Lemma wellKeyed_set rm r :
  wellKeyed rm → wellKeyed (JSMap.set (ResolvedElementMove.elementId r) r rm).
Proof.
  intros [Hnd Hk]. split; [by apply set_NoDup|].
  apply Forall_forall. intros [k' r'] [[-> ->]|Hin]%set_elem_of; [done|].
  by apply (proj1 (Forall_forall _ _) Hk (k', r')).
Qed.

Lemma wellKeyed_execute_move animate index st move :
  wellKeyed st.1 → wellKeyed (Move.execute_move animate index st move).1.
Proof.
  intros Hw. unfold Move.execute_move.
  destruct (Move.resolve move index st.2) as [r|]; [|done].
  destruct animate; simpl; by apply wellKeyed_set.
Qed.

Lemma wellKeyed_execute_moves animate index moves st :
  wellKeyed st.1 → wellKeyed (Move.execute_moves animate index moves st).1.
Proof.
  revert st. induction moves as [|m ms IH]; intros st Hw; [done|].
  rewrite execute_moves_cons. by apply IH, wellKeyed_execute_move.
Qed.

Lemma wellKeyed_merge_move index h rm move :
  wellKeyed rm → wellKeyed (Move.merge_move index h rm move).
Proof.
  intros Hw. unfold Move.merge_move.
  destruct (JSMap.get (ElementMove.elementId move) rm) as [ex|] eqn:Hg.
  - assert (ResolvedElementMove.elementId ex = ElementMove.elementId move) as He.
    { destruct Hw as [_ Hk]. apply get_elem_of in Hg.
      exact (proj1 (Forall_forall _ _) Hk _ Hg). }
    rewrite <- He.
    change (ResolvedElementMove.elementId ex) with
      (ResolvedElementMove.elementId
         (ResolvedElementMove.set_toPosition (ElementMove.toPosition move) ex)).
    by apply wellKeyed_set.
  - destruct (Move.resolve move index h) as [r|]; [|done]. by apply wellKeyed_set.
Qed.

Lemma wellKeyed_merge_moves index h moves rm :
  wellKeyed rm → wellKeyed (Move.merge_moves index h moves rm).
Proof.
  revert rm. induction moves as [|m ms IH]; intros rm Hw; [done|].
  simpl. apply IH. by apply wellKeyed_merge_move.
Qed.

End KeyedFacts.

(** X1. The cache of a move command stays well keyed.  If the entries of
    [resolvedMoves] have distinct keys and each is stored under its own
    [elementId], then so it is after [execute] and after [merge].  In
    such a map the entries are what [get] returns: [(k, r)] is an entry
    exactly if [get k] is [r] and [r.elementId] is [k]. *)
Theorem resolvedMoves_stay_well_keyed this command context h :
  wellKeyed (MoveCommand.resolvedMoves this) →
  wellKeyed (MoveCommand.resolvedMoves (Move.execute this context h).1.2)
  ∧ wellKeyed (MoveCommand.resolvedMoves (Move.merge this command context h).2)
  ∧ (∀ m, wellKeyed m →
       ∀ k r, (k, r) ∈ m ↔ JSMap.get k m = Some r ∧ ResolvedElementMove.elementId r = k).
Proof.
  intros Hw. split_and!.
  - unfold Move.execute. destruct (MoveAction.animate _); simpl;
      by apply wellKeyed_execute_moves.
  - unfold Move.merge.
    destruct (MoveAction.animate _), (instanceofMoveCommand command); simpl; try done.
    by apply wellKeyed_merge_moves.
  - intros m [Hnd Hk] k r. split.
    + intros Hin. split; [by apply elem_of_get|].
      exact (proj1 (Forall_forall _ _) Hk _ Hin).
    + intros [Hg _]. by apply get_elem_of.
Qed.

Lemma resolvedMoves_stay_well_keyed_witness :
  wellKeyed (MoveCommand.resolvedMoves firstDrag)
  ∧ wellKeyed (MoveCommand.resolvedMoves dragging)
  ∧ wellKeyed
      (MoveCommand.resolvedMoves
         (Move.merge firstDrag (AMoveCommand secondDrag) testContext initialHeap).2).
Proof.
  assert (wellKeyed (MoveCommand.resolvedMoves firstDrag)) as Hw
    by (split; constructor).
  split; [exact Hw|].
  destruct (resolvedMoves_stay_well_keyed firstDrag (AMoveCommand secondDrag)
              testContext initialHeap Hw) as (He & Hm & _).
  split; [exact He|exact Hm].
Defined.

Section FrameFacts.
Implicit Types (h : Heap) (l : loc) (p : Point.t).

Lemma same_but_position_refl o : same_but_position o o.
Proof. by repeat split. Qed.

Lemma same_but_position_trans o1 o2 o3 :
  same_but_position o1 o2 → same_but_position o2 o3 → same_but_position o1 o3.
Proof. unfold same_but_position. intros (?&?&?&?) (?&?&?&?). repeat split; congruence. Qed.

Lemma moved_only_refl h : moved_only h h.
Proof. intros l. destruct (h !! l) eqn:?; eauto using same_but_position_refl. Qed.

Lemma moved_only_trans h1 h2 h3 : moved_only h1 h2 → moved_only h2 h3 → moved_only h1 h3.
Proof.
  intros H12 H23 l. specialize (H12 l). specialize (H23 l).
  destruct (h1 !! l) as [o1|].
  - destruct H12 as (o2 & E2 & S12). rewrite E2 in H23.
    destruct H23 as (o3 & E3 & S23). eauto using same_but_position_trans.
  - by rewrite H12 in H23.
Qed.

Lemma moved_only_alter h l p : moved_only h (alter (SModelElement.set_position p) l h).
Proof.
  intros l'. destruct (decide (l = l')) as [<-|Hne].
  - rewrite lookup_alter_eq. destruct (h !! l) as [o|]; simpl; [|done].
    eexists; split; [done|]. by destruct o.
  - rewrite lookup_alter_ne by done.
    destruct (h !! l') eqn:?; eauto using same_but_position_refl.
Qed.

Lemma execute_moves_moved_only animate index moves st :
  moved_only st.2 (Move.execute_moves animate index moves st).2.
Proof.
  revert st. induction moves as [|m ms IH]; intros st; [apply moved_only_refl|].
  rewrite execute_moves_cons. eapply moved_only_trans; [|apply IH].
  unfold Move.execute_move. destruct (Move.resolve m index st.2); [|apply moved_only_refl].
  destruct animate; simpl; [apply moved_only_refl | apply moved_only_alter].
Qed.

Lemma tween_moved_only this t h : moved_only h (Move.tween this t h).2.
Proof.
  rewrite tween_unfold. revert h.
  induction (MoveAnimation.elementMoves this) as [|[k r] m IH]; intros h; simpl;
    [apply moved_only_refl|].
  eapply moved_only_trans; [|apply IH]. apply moved_only_alter.
Qed.
End FrameFacts.

(** X2. Moving changes positions only.  [execute] and a tick of the
    animation add no element and remove none, and leave the id, the
    selected flag, the parent and the children of every element as they
    were.  So the heap has the same elements, and the selection, the child
    sequences and the index of every element in its parent are what they
    were. *)
Theorem moving_changes_positions_only this context animation t h :
  moved_only h (Move.execute this context h).2
  ∧ moved_only h (Move.tween animation t h).2
  ∧ (∀ h', moved_only h h' →
       dom h' = dom h
       ∧ ∀ l, Select.isSelected h' l = Select.isSelected h l
              ∧ childrenOf h' l = childrenOf h l
              ∧ Select.indexInParent h' l = Select.indexInParent h l).
Proof.
  split_and!.
  - unfold Move.execute. destruct (MoveAction.animate _); simpl;
      apply (execute_moves_moved_only _ _ _ (_, h)).
  - apply tween_moved_only.
  - intros h' Hm.
    assert (∀ l, Select.isSelected h' l = Select.isSelected h l
                 ∧ childrenOf h' l = childrenOf h l
                 ∧ (SModelElement.parent <$> h' !! l) = (SModelElement.parent <$> h !! l)) as Hf.
    { intros l. specialize (Hm l). unfold Select.isSelected, childrenOf.
      destruct (h !! l) as [o|]; [|by rewrite Hm].
      destruct Hm as (o' & -> & (_ & Hs & Hp & Hc)). simpl. by rewrite Hs, Hp, Hc. }
    split.
    + apply set_eq. intros l. rewrite !elem_of_dom. specialize (Hm l).
      destruct (h !! l) as [o|]; [destruct Hm as (o' & -> & _)|rewrite Hm];
        by rewrite <- !not_eq_None_Some.
    + intros l. destruct (Hf l) as (Hs & Hc & Hp). split_and!; [done|done|].
      unfold Select.indexInParent.
      destruct (h' !! l) as [o'|], (h !! l) as [o|]; simpl in Hp; try done.
      injection Hp as ->. destruct (SModelElement.parent o) as [p|]; [|done].
      unfold Select.childIndex. destruct (Hf p) as (_ & Hcp & _).
      unfold childrenOf in Hcp.
      destruct (h' !! p) as [po'|], (h !! p) as [po|]; simpl in Hcp; try done.
      by injection Hcp as ->.
Qed.

(** ** Executing a batch with distinct targets *)

Section RoundTripFacts.
Implicit Types (index : SModelIndex) (h : Heap) (move : ElementMove.t)
  (moves : list ElementMove.t)
  (rm : JSMap.t ResolvedElementMove.t)
  (st : JSMap.t ResolvedElementMove.t * Heap).

Lemma resolve_ext move index h1 h2 element :
  index !! ElementMove.elementId move = Some element →
  h1 !! element = h2 !! element →
  Move.resolve move index h1 = Move.resolve move index h2.
Proof. unfold Move.resolve, getById. by intros -> ->. Qed.

Lemma resolve_unindexed move index h :
  index !! ElementMove.elementId move = None → Move.resolve move index h = None.
Proof. intros Hi. by apply resolve_None, getById_None. Qed.

Lemma execute_moves_lookup_ne animate index moves st element :
  element ∉ omap (λ m, index !! ElementMove.elementId m) moves →
  (Move.execute_moves animate index moves st).2 !! element = st.2 !! element.
Proof.
  revert st. induction moves as [|m ms IH]; intros st Hn; [done|].
  rewrite execute_moves_cons. simpl in Hn.
  destruct (index !! ElementMove.elementId m) as [e|] eqn:Hi.
  - apply not_elem_of_cons in Hn as [Hne Hn].
    rewrite IH by done. apply execute_move_lookup_ne. rewrite Hi. congruence.
  - rewrite IH by done. apply execute_move_lookup_ne. by rewrite Hi.
Qed.

Lemma resolutions_snoc index h moves move :
  resolutions index h (moves ++ [move]) =
  resolutions index h moves ++
    match Move.resolve move index h with
    | Some r => [(ElementMove.elementId move, r)]
    | None => []
    end.
Proof.
  unfold resolutions. rewrite omap_app. simpl.
  by destruct (Move.resolve move index h).
Qed.

Lemma resolutions_key index h moves k :
  k ∈ (resolutions index h moves).*1 →
  ∃ m, m ∈ moves ∧ ElementMove.elementId m = k.
Proof.
  unfold resolutions. intros ([k' r] & -> & Hin)%list_elem_of_fmap.
  apply list_elem_of_omap in Hin as (m & Hm & Hr).
  exists m. split; [done|].
  destruct (Move.resolve m index h); simpl in Hr; [|done]. by injection Hr as -> _.
Qed.

(** A fresh command that executes a batch with distinct targets caches
    the resolutions of the moves against the heap as it was before. *)
Lemma execute_moves_distinct animate index h moves :
  distinctTargets index moves →
  (Move.execute_moves animate index moves ([], h)).1 = resolutions index h moves.
Proof.
  unfold distinctTargets.
  induction moves as [|move moves IH] using rev_ind; [done|].
  rewrite omap_app. simpl. intros Hnd.
  rewrite execute_moves_snoc, resolutions_snoc.
  destruct (index !! ElementMove.elementId move) as [element|] eqn:Hi.
  - apply NoDup_app in Hnd as (Hnd & Hfresh & _).
    assert (element ∉ omap (λ m, index !! ElementMove.elementId m) moves) as Hnot.
    { intros Hin. apply (Hfresh _ Hin), list_elem_of_here. }
    unfold Move.execute_move.
    rewrite (resolve_ext move index _ h element Hi)
      by (by rewrite execute_moves_lookup_ne).
    destruct (Move.resolve move index h) as [r|] eqn:Hr.
    + pose proof (resolve_fields _ _ _ _ Hr) as (He & _ & _).
      assert (JSMap.set (ResolvedElementMove.elementId r) r
                (Move.execute_moves animate index moves ([], h)).1
              = resolutions index h moves ++ [(ElementMove.elementId move, r)]) as ->.
      { rewrite IH by done. rewrite He. apply set_absent, get_None_keys.
        intros (m & Hm & Hk)%resolutions_key. apply Hnot.
        apply list_elem_of_omap. exists m. split; [done|]. by rewrite Hk. }
      by destruct animate.
    + rewrite app_nil_r. by apply IH.
  - rewrite app_nil_r in Hnd. rewrite (resolve_unindexed _ _ h Hi), app_nil_r.
    unfold Move.execute_move. rewrite (resolve_unindexed _ _ _ Hi). by apply IH.
Qed.

Lemma filter_omap {A B} (f : A → option B) (P : B → Prop) (Q : A → Prop)
    `{∀ b, Decision (P b)} `{∀ a, Decision (Q a)} (l : list A) :
  (∀ a b, f a = Some b → (P b ↔ Q a)) →
  filter P (omap f l) = omap f (filter Q l).
Proof.
  intros Hpq. induction l as [|a l IH]; [done|].
  change (omap f (a :: l)) with
    (match f a with Some b => b :: omap f l | None => omap f l end).
  destruct (decide (Q a)) as [Hq|Hq].
  - rewrite (filter_cons_True Q) by done.
    change (omap f (a :: filter Q l)) with
      (match f a with Some b => b :: omap f (filter Q l) | None => omap f (filter Q l) end).
    destruct (f a) as [b|] eqn:Hf; [|done].
    rewrite filter_cons_True by (by eapply Hpq). by rewrite IH.
  - rewrite (filter_cons_False Q) by done.
    destruct (f a) as [b|] eqn:Hf; [|done].
    by rewrite filter_cons_False by (by rewrite (Hpq a b Hf)).
Qed.

Lemma last_omap_Some {A B} (f : A → option B) (l : list A) :
  (∀ a, a ∈ l → is_Some (f a)) → last (omap f l) = last l ≫= f.
Proof.
  induction l as [|a l IH] using rev_ind; [done|]. intros Hs.
  rewrite omap_app, last_snoc. simpl.
  destruct (Hs a) as [b Hb]; [apply elem_of_app; right; apply list_elem_of_here|].
  by rewrite Hb, last_snoc.
Qed.

Lemma omap_None {A B} (f : A → option B) (l : list A) :
  (∀ a, a ∈ l → f a = None) → omap f l = [].
Proof.
  induction l as [|a l IH]; [done|]. intros Hn. simpl.
  rewrite (Hn a) by apply list_elem_of_here. apply IH.
  intros a' Ha'. by apply Hn, list_elem_of_further.
Qed.

(** Whichever entry of the resolutions of a batch writes an element last
    is the resolution of the last move that names the element. *)
Lemma lastWriter_resolutions index h moves element :
  lastWriter (resolutions index h moves) element =
  lastMoveTo index moves element ≫= λ m, Move.resolve m index h.
Proof.
  unfold lastWriter, lastMoveTo, resolutions.
  rewrite list_fmap_omap.
  rewrite (filter_omap _ _ (λ m, index !! ElementMove.elementId m = Some element)).
  2:{ intros m r Hr. destruct (Move.resolve m index h) as [r'|] eqn:Hr'; [|done].
      simpl in Hr. injection Hr as <-.
      apply resolve_fields in Hr' as (_ & _ & Hi). rewrite Hi.
      split; [by intros <-|by intros [= <-]]. }
  destruct (h !! element) as [obj|] eqn:Hh.
  - rewrite last_omap_Some.
    + destruct (last _) as [m|]; simpl; [|done]. by destruct (Move.resolve m index h).
    + intros m [Hi _]%list_elem_of_filter.
      rewrite (resolve_Some _ _ _ element obj) by (by apply getById_Some). by eexists.
  - rewrite omap_None.
    + destruct (last (filter _ moves)) as [m|] eqn:Hl; simpl; [|done].
      apply last_Some_elem_of, list_elem_of_filter in Hl as [Hi _].
      rewrite resolve_None; [done|]. unfold getById. by rewrite Hi, Hh.
    + intros m [Hi _]%list_elem_of_filter.
      rewrite resolve_None; [done|]. unfold getById. by rewrite Hi, Hh.
Qed.
End RoundTripFacts.

(** ** The ends of an animation *)

Section PlaceFacts.
Implicit Types (index : SModelIndex) (h : Heap) (move : ElementMove.t)
  (moves : list ElementMove.t) (o : SModelElement.t).

Lemma finitePoint_strictEquals p :
  finitePoint p = true →
  Number.strictEquals (Point.x p) (Point.x p) = true
  ∧ Number.strictEquals (Point.y p) (Point.y p) = true.
Proof.
  unfold finitePoint. intros Hf. repeat (apply andb_prop in Hf as [Hf ?]).
  split; by apply strictEquals_refl.
Qed.

Lemma same_place_refl o :
  finitePoint (SModelElement.position o) = true → same_place o o.
Proof.
  intros [??]%finitePoint_strictEquals. split; [apply same_but_position_refl|done].
Qed.

Lemma set_position_same o o' :
  same_but_position o o' →
  SModelElement.set_position (SModelElement.position o) o' = o.
Proof. destruct o, o'. unfold same_but_position. simpl. intros (-> & -> & -> & ->). done. Qed.

Lemma same_but_position_set o o' p :
  same_but_position o o' → same_but_position o (SModelElement.set_position p o').
Proof. by destruct o'. Qed.

(** The last tick of an animation, at an element one of its entries
    writes: the element is at the entry's end ([===]), and is otherwise
    as before. *)
Lemma tween_one_lands this h element r o o' :
  lastWriter (MoveAnimation.elementMoves this) element = Some r →
  finitePoint (ResolvedElementMove.fromPosition r) = true →
  finitePoint (ResolvedElementMove.toPosition r) = true →
  h !! element = Some o' →
  same_but_position o o' →
  SModelElement.position o =
    (if MoveAnimation.reverse this then ResolvedElementMove.fromPosition r
     else ResolvedElementMove.toPosition r) →
  ∃ o'', (Move.tween this Number.one h).2 !! element = Some o''
    ∧ same_place o o''
    ∧ (Point.x (SModelElement.position o) ≠ Number.negativeZero →
       Point.y (SModelElement.position o) ≠ Number.negativeZero → o'' = o).
Proof.
  intros Hl Hf Ht Hh Hs Hp. rewrite tween_lookup, Hl, Hh. simpl.
  eexists; split; [done|].
  destruct (tween_position_one (MoveAnimation.reverse this) r Hf Ht) as (Ex & Ey & Eid).
  rewrite <- Hp in Ex, Ey, Eid.
  split; [split|].
  - by apply same_but_position_set.
  - destruct o'. by split.
  - intros Nx Ny. rewrite (Eid Nx Ny). by apply set_position_same.
Qed.

Lemma lastMoveTo_Some index moves element m :
  lastMoveTo index moves element = Some m →
  m ∈ moves ∧ index !! ElementMove.elementId m = Some element.
Proof.
  unfold lastMoveTo. by intros [??]%last_Some_elem_of%list_elem_of_filter.
Qed.

Lemma lastMoveTo_None index moves element :
  lastMoveTo index moves element = None →
  element ∉ omap (λ m, index !! ElementMove.elementId m) moves.
Proof.
  unfold lastMoveTo. intros Hl%last_None (m & Hm & Hi)%list_elem_of_omap.
  assert (m ∈ filter (λ m, index !! ElementMove.elementId m = Some element) moves) as Hin
    by (by apply list_elem_of_filter).
  rewrite Hl in Hin. by apply not_elem_of_nil in Hin.
Qed.

Lemma execute_fresh_resolvedMoves this context h :
  MoveCommand.resolvedMoves this = [] →
  distinctTargets (SModelRoot.index (CommandExecutionContext.root context))
    (MoveAction.moves (MoveCommand.action this)) →
  MoveCommand.resolvedMoves (Move.execute this context h).1.2 =
    resolutions (SModelRoot.index (CommandExecutionContext.root context)) h
      (MoveAction.moves (MoveCommand.action this)).
Proof.
  intros Hr Hd. unfold Move.execute. rewrite Hr.
  destruct (MoveAction.animate _); simpl; by apply execute_moves_distinct.
Qed.

Lemma execute_moved_only this context h : moved_only h (Move.execute this context h).2.
Proof.
  unfold Move.execute. destruct (MoveAction.animate _); simpl;
    apply (execute_moves_moved_only _ _ _ (_, h)).
Qed.

Lemma execute_lookup_untouched this context h element :
  element ∉ omap (λ m, SModelRoot.index (CommandExecutionContext.root context)
                          !! ElementMove.elementId m)
             (MoveAction.moves (MoveCommand.action this)) →
  (Move.execute this context h).2 !! element = h !! element.
Proof.
  intros Hn. unfold Move.execute. destruct (MoveAction.animate _); simpl;
    by rewrite execute_moves_lookup_ne.
Qed.

End PlaceFacts.

(** X3. Execute, then undo.  A new command whose moves give no
    fromPosition, have finite toPositions and name no element twice is
    executed, animated or not.  Then the last tick ([t = 1]) of the
    animation that [undo] starts puts an element with finite coordinates
    where it was before [execute]: its position is [===] the old one and
    nothing else of it has changed; it is the very same unless a
    coordinate was the negative zero. *)
Theorem execute_then_undo_restores this context h element obj :
  MoveCommand.resolvedMoves this = [] →
  distinctTargets (SModelRoot.index (CommandExecutionContext.root context))
    (MoveAction.moves (MoveCommand.action this)) →
  Forall (λ m, ElementMove.fromPosition m = None
               ∧ finitePoint (ElementMove.toPosition m) = true)
    (MoveAction.moves (MoveCommand.action this)) →
  h !! element = Some obj →
  finitePoint (SModelElement.position obj) = true →
  let r := Move.execute this context h in
  let backward :=
    MoveAnimation.mk (CommandExecutionContext.root context)
      (MoveCommand.resolvedMoves r.1.2) context true in
  (Move.undo r.1.2 context r.2).1.1 = Animated (start backward)
  ∧ ∃ obj', (Move.tween backward Number.one r.2).2 !! element = Some obj'
      ∧ same_place obj obj'
      ∧ (Point.x (SModelElement.position obj) ≠ Number.negativeZero →
         Point.y (SModelElement.position obj) ≠ Number.negativeZero →
         obj' = obj).
Proof.
  intros Hfresh Hd Hm Hh Hfin r backward. split; [done|].
  pose proof (execute_moved_only this context h element) as Hmo. rewrite Hh in Hmo.
  fold r in Hmo. destruct Hmo as (o' & Ho' & Hs).
  destruct (lastMoveTo (SModelRoot.index (CommandExecutionContext.root context))
              (MoveAction.moves (MoveCommand.action this)) element) as [m|] eqn:Hl.
  - pose proof (lastMoveTo_Some _ _ _ _ Hl) as [Hin Hi].
    destruct (proj1 (Forall_forall _ _) Hm m Hin) as [Hnone Hto].
    apply (tween_one_lands backward r.2 element
             (ResolvedElementMove.mk (SModelElement.position obj)
                (ElementMove.elementId m) element (ElementMove.toPosition m))
             obj o'); try done.
    unfold backward, r. simpl. rewrite execute_fresh_resolvedMoves by done.
    rewrite lastWriter_resolutions, Hl. simpl.
    rewrite (resolve_Some _ _ _ element obj) by (by apply getById_Some).
    by rewrite Hnone.
  - exists obj. split; [|split; [by apply same_place_refl|done]].
    rewrite tween_lookup. unfold backward at 1, r at 1. simpl.
    rewrite execute_fresh_resolvedMoves by done.
    rewrite lastWriter_resolutions, Hl. simpl.
    unfold r. rewrite execute_lookup_untouched; [done|]. by apply lastMoveTo_None.
Qed.

Lemma execute_then_undo_restores_witness :
  distinctTargets initialIndex (MoveAction.moves (MoveCommand.action firstDrag))
  ∧ SModelElement.position <$> draggedHeap !! 1 = Some (point 110 110)
  ∧ (Move.tween
       (MoveAnimation.mk initialModel (MoveCommand.resolvedMoves dragging)
          testContext true)
       Number.one draggedHeap).2 !! 1 = Some node0.
Proof.
  assert (distinctTargets initialIndex (MoveAction.moves (MoveCommand.action firstDrag)))
    as Hd by (apply (bool_decide_unpack _); by vm_compute).
  split; [exact Hd|]. split; [by vm_compute|].
  destruct (execute_then_undo_restores firstDrag testContext initialHeap 1 node0)
    as (_ & obj' & Ho & _ & Hid).
  - reflexivity.
  - exact Hd.
  - repeat constructor.
  - by vm_compute.
  - reflexivity.
  - rewrite (Hid ltac:(by vm_compute) ltac:(by vm_compute)) in Ho. exact Ho.
Defined.

(** X4. Where the animation ends.  An animated and a non-animated
    [execute] of one batch (new commands, no element named twice, finite
    points) cache the same resolved moves.  The animation that the
    animated [execute] starts is the one that [redo] starts after the
    non-animated one, and its last tick, on the heap either [execute]
    left, puts an element where the non-animated [execute] put it
    ([===], and the very same unless a coordinate is the negative
    zero). *)
Theorem animation_ends_where_execute_puts moves context h element obj :
  distinctTargets (SModelRoot.index (CommandExecutionContext.root context)) moves →
  Forall finiteMove moves →
  h !! element = Some obj →
  finitePoint (SModelElement.position obj) = true →
  let animated := MoveCommand.mk (MoveAction.mk moves true) [] in
  let direct := MoveCommand.mk (MoveAction.mk moves false) [] in
  let ra := Move.execute animated context h in
  let rd := Move.execute direct context h in
  let forward :=
    MoveAnimation.mk (CommandExecutionContext.root context)
      (MoveCommand.resolvedMoves ra.1.2) context false in
  MoveCommand.resolvedMoves ra.1.2 = MoveCommand.resolvedMoves rd.1.2
  ∧ ra.1.1 = Animated (start forward)
  ∧ (Move.redo rd.1.2 context rd.2).1.1 = Animated (start forward)
  ∧ ∃ od, rd.2 !! element = Some od
      ∧ ∀ h', h' = ra.2 ∨ h' = rd.2 →
          ∃ oa, (Move.tween forward Number.one h').2 !! element = Some oa
            ∧ same_place od oa
            ∧ (Point.x (SModelElement.position od) ≠ Number.negativeZero →
               Point.y (SModelElement.position od) ≠ Number.negativeZero →
               oa = od).
Proof.
  intros Hd Hm Hh Hfin animated direct ra rd forward.
  assert (MoveCommand.resolvedMoves ra.1.2 =
          resolutions (SModelRoot.index (CommandExecutionContext.root context)) h moves)
    as Ea by (by apply (execute_fresh_resolvedMoves animated)).
  assert (MoveCommand.resolvedMoves rd.1.2 =
          resolutions (SModelRoot.index (CommandExecutionContext.root context)) h moves)
    as Ed by (by apply (execute_fresh_resolvedMoves direct)).
  split; [by rewrite Ea, Ed|]. split; [done|].
  split; [unfold Move.redo, forward; cbn [fst snd]; by rewrite Ea, Ed|].
  assert (ra.2 = h) as Eha by apply (execute_moves_animated _ _ (_, h)).
  assert (rd.2 !! element =
          match lastMoveTo (SModelRoot.index (CommandExecutionContext.root context))
                  moves element with
          | Some move => Some (SModelElement.set_position (ElementMove.toPosition move) obj)
          | None => Some obj
          end) as Ehd.
  { unfold rd, Move.execute. simpl.
    rewrite (execute_moves_lookup _ _ (_, h)). simpl. rewrite Hh.
    by destruct (lastMoveTo _ _ _). }
  assert (lastWriter (MoveAnimation.elementMoves forward) element =
          lastMoveTo (SModelRoot.index (CommandExecutionContext.root context))
            moves element
          ≫= λ m, Move.resolve m (SModelRoot.index (CommandExecutionContext.root context)) h)
    as Elw.
  { unfold forward. cbn [MoveAnimation.elementMoves]. by rewrite Ea, lastWriter_resolutions. }
  destruct (lastMoveTo _ moves element) as [m|] eqn:Hl.
  - pose proof (lastMoveTo_Some _ _ _ _ Hl) as [Hin Hi].
    destruct (proj1 (Forall_forall _ _) Hm m Hin) as [Hto Hfrom].
    simpl in Elw. rewrite (resolve_Some _ _ _ element obj) in Elw
      by (by apply getById_Some).
    eexists. split; [exact Ehd|]. intros h' Hh'.
    assert (∃ o', h' !! element = Some o'
              ∧ same_but_position
                  (SModelElement.set_position (ElementMove.toPosition m) obj) o')
      as (o' & Ho' & Hs).
    { destruct Hh' as [->| ->].
      - exists obj. split; [by rewrite Eha|by destruct obj].
      - eexists. split; [exact Ehd|apply same_but_position_refl]. }
    eapply (tween_one_lands forward h' element); [exact Elw|..|exact Ho'|exact Hs|done].
    + simpl. destruct (ElementMove.fromPosition m); [exact Hfrom|exact Hfin].
    + exact Hto.
  - exists obj. split; [exact Ehd|]. intros h' Hh'. exists obj.
    split; [|split; [by apply same_place_refl|done]].
    rewrite tween_lookup, Elw. simpl.
    destruct Hh' as [->| ->]; [by rewrite Eha|exact Ehd].
Qed.

Lemma animation_ends_where_execute_puts_witness :
  Forall finiteMove (MoveAction.moves (MoveCommand.action firstDrag))
  ∧ MoveCommand.resolvedMoves (Move.execute animatedDrag testContext initialHeap).1.2
    = MoveCommand.resolvedMoves dragging
  ∧ ∃ od, draggedHeap !! 1 = Some od
      ∧ (Move.tween
           (MoveAnimation.mk initialModel
              (MoveCommand.resolvedMoves
                 (Move.execute animatedDrag testContext initialHeap).1.2)
              testContext false)
           Number.one initialHeap).2 !! 1 = Some od.
Proof.
  assert (Forall finiteMove (MoveAction.moves (MoveCommand.action firstDrag))) as Hf
    by (repeat constructor).
  split; [exact Hf|].
  destruct (animation_ends_where_execute_puts
              (MoveAction.moves (MoveCommand.action firstDrag)) testContext
              initialHeap 1 node0)
    as (Hc & _ & _ & od & Hod & Hall).
  - apply (bool_decide_unpack _). by vm_compute.
  - exact Hf.
  - by vm_compute.
  - reflexivity.
  - split; [exact Hc|]. exists od. split; [exact Hod|].
    destruct (Hall initialHeap) as (oa & Hoa & _ & Hid).
    + left. by vm_compute.
    + assert (od = SModelElement.set_position (point 110 110) node0) as Eod.
      { assert (draggedHeap !! 1
                = Some (SModelElement.set_position (point 110 110) node0)) as E
          by by vm_compute.
        change (draggedHeap !! 1 = Some od) in Hod. rewrite E in Hod.
        by injection Hod as <-. }
      rewrite (Hid ltac:(by rewrite Eod) ltac:(by rewrite Eod)) in Hoa. exact Hoa.
Defined.

(** ** Merging a drag *)

Section DragFacts.
Implicit Types (index : SModelIndex) (h : Heap) (move : ElementMove.t)
  (moves : list ElementMove.t)
  (rm : JSMap.t ResolvedElementMove.t).

Lemma rerouted_refl moves kr : rerouted moves kr kr.
Proof. unfold rerouted. by split_and!; [..|left]. Qed.

Lemma rerouted_trans moves kr1 kr2 kr3 :
  rerouted moves kr1 kr2 → rerouted moves kr2 kr3 → rerouted moves kr1 kr3.
Proof.
  unfold rerouted. intros (?&?&?&?&Ht1) (?&?&?&?&Ht2).
  split_and!; [congruence..|].
  destruct Ht2 as [Ht2|Ht2]; [|by right]. rewrite Ht2. exact Ht1.
Qed.

Lemma Forall2_rerouted_refl moves rm : Forall2 (rerouted moves) rm rm.
Proof. apply Forall_Forall2_diag, Forall_forall. intros. apply rerouted_refl. Qed.

Lemma Forall2_rerouted_trans moves rm1 rm2 rm3 :
  Forall2 (rerouted moves) rm1 rm2 → Forall2 (rerouted moves) rm2 rm3 →
  Forall2 (rerouted moves) rm1 rm3.
Proof.
  intros H12. revert rm3. induction H12 as [|?????? IH]; intros rm3 H23.
  - by inversion H23.
  - inversion H23; subst. constructor; [by eapply rerouted_trans|by apply IH].
Qed.

Lemma Forall2_rerouted_keys moves rm rm' :
  Forall2 (rerouted moves) rm rm' → rm'.*1 = rm.*1.
Proof.
  induction 1 as [|?? ?? [Hk _] ? IH]; [done|]. rewrite !fmap_cons. by rewrite Hk, IH.
Qed.

(** A [set] on a present key that changes the target only. *)
Lemma set_rerouted moves move rm existing :
  move ∈ moves →
  JSMap.get (ElementMove.elementId move) rm = Some existing →
  Forall2 (rerouted moves) rm
    (JSMap.set (ElementMove.elementId move)
       (ResolvedElementMove.set_toPosition (ElementMove.toPosition move) existing) rm).
Proof.
  intros Hin. induction rm as [|[k r] rm IH]; [done|].
  cbn [JSMap.get JSMap.set]. case_decide as Hk.
  - intros [= ->]. constructor; [|apply Forall2_rerouted_refl].
    unfold rerouted. split_and!; [done|by destruct existing..|].
    right. exists move. split; [done|]. by destruct existing.
  - intros Hg. constructor; [apply rerouted_refl|by apply IH].
Qed.

Lemma merge_move_rerouted moves index h rm move :
  move ∈ moves →
  (JSMap.get (ElementMove.elementId move) rm = None →
   Move.resolve move index h = None) →
  Forall2 (rerouted moves) rm (Move.merge_move index h rm move).
Proof.
  intros Hin Hc. unfold Move.merge_move.
  destruct (JSMap.get (ElementMove.elementId move) rm) as [ex|] eqn:Hg.
  - by apply set_rerouted.
  - rewrite Hc by done. apply Forall2_rerouted_refl.
Qed.

Lemma merge_moves_rerouted moves index h batch rm :
  (∀ m, m ∈ batch → m ∈ moves) →
  (∀ m, m ∈ batch → JSMap.get (ElementMove.elementId m) rm = None →
        Move.resolve m index h = None) →
  Forall2 (rerouted moves) rm (Move.merge_moves index h batch rm).
Proof.
  revert rm. induction batch as [|m ms IH]; intros rm Hsub Hc;
    [apply Forall2_rerouted_refl|].
  simpl.
  assert (Forall2 (rerouted moves) rm (Move.merge_move index h rm m)) as Hstep.
  { apply merge_move_rerouted; [apply Hsub|apply Hc]; apply list_elem_of_here. }
  eapply Forall2_rerouted_trans; [exact Hstep|]. apply IH.
  - intros m' Hm'. by apply Hsub, list_elem_of_further.
  - intros m' Hm' Hg. apply Hc; [by apply list_elem_of_further|].
    apply get_None_keys. apply get_None_keys in Hg.
    by rewrite <- (Forall2_rerouted_keys _ _ _ Hstep).
Qed.

Lemma lastWriter_cons k r rm element :
  lastWriter ((k, r) :: rm) element =
    match lastWriter rm element with
    | Some r' => Some r'
    | None => if decide (ResolvedElementMove.element r = element) then Some r else None
    end.
Proof.
  unfold lastWriter. rewrite fmap_cons. cbn [snd].
  destruct (decide (ResolvedElementMove.element r = element)) as [He|He].
  - rewrite filter_cons_True by done.
    destruct (filter _ rm.*2) as [|r0 rs]; [done|].
    change (last (r :: r0 :: rs)) with (last (r0 :: rs)).
    by destruct (proj2 (last_is_Some (r0 :: rs))) as [x ->].
  - rewrite filter_cons_False by done. by destruct (last _).
Qed.

Lemma lastWriter_rerouted moves rm rm' element :
  Forall2 (rerouted moves) rm rm' →
  match lastWriter rm element with
  | Some r => ∃ r', lastWriter rm' element = Some r'
                ∧ rerouted moves (ResolvedElementMove.elementId r, r)
                    (ResolvedElementMove.elementId r, r')
  | None => lastWriter rm' element = None
  end.
Proof.
  induction 1 as [|[k r] [k' r'] rm rm' (Hk & Hi & Hf & He & Ht) _ IH]; [done|].
  rewrite !lastWriter_cons. simpl in *.
  destruct (lastWriter rm element) as [r0|].
  - destruct IH as (r0' & -> & IH). by exists r0'.
  - rewrite IH, He. case_decide; [|done]. exists r'. split; [done|].
    unfold rerouted. by split_and!.
Qed.

Lemma resolve_None_moved_only move index h h' :
  moved_only h h' → Move.resolve move index h = None →
  Move.resolve move index h' = None.
Proof.
  intros Hm. unfold Move.resolve, getById.
  destruct (index !! ElementMove.elementId move) as [element|]; [|done].
  specialize (Hm element). destruct (h !! element); [done|]. by rewrite Hm.
Qed.

Lemma resolutions_get_None index h moves move :
  move ∈ moves →
  JSMap.get (ElementMove.elementId move) (resolutions index h moves) = None →
  Move.resolve move index h = None.
Proof.
  intros Hin Hg. destruct (Move.resolve move index h) as [r|] eqn:Hr; [|done].
  apply get_None_keys in Hg. exfalso. apply Hg.
  apply list_elem_of_fmap. exists (ElementMove.elementId move, r). split; [done|].
  unfold resolutions. apply list_elem_of_omap. exists move. by rewrite Hr.
Qed.

Lemma execute_action this context h :
  MoveCommand.action (Move.execute this context h).1.2 = MoveCommand.action this.
Proof. unfold Move.execute. by destruct (MoveAction.animate _). Qed.

(** A drag in two steps, merged: what the merge makes of the cache. *)
Lemma merged_drag_cache first second context h :
  MoveCommand.resolvedMoves first = [] →
  MoveAction.animate (MoveCommand.action first) = false →
  distinctTargets (SModelRoot.index (CommandExecutionContext.root context))
    (MoveAction.moves (MoveCommand.action first)) →
  Forall (λ m, ∃ m', m' ∈ MoveAction.moves (MoveCommand.action first)
                     ∧ ElementMove.elementId m' = ElementMove.elementId m)
    (MoveAction.moves (MoveCommand.action second)) →
  let index := SModelRoot.index (CommandExecutionContext.root context) in
  let r1 := Move.execute first context h in
  let r2 := Move.execute second context r1.2 in
  let merged :=
    Move.merge_moves index r2.2 (MoveAction.moves (MoveCommand.action second))
      (resolutions index h (MoveAction.moves (MoveCommand.action first))) in
  Move.merge r1.1.2 (AMoveCommand r2.1.2) context r2.2
    = (true, MoveCommand.mk (MoveCommand.action first) merged)
  ∧ MoveCommand.resolvedMoves r1.1.2
    = resolutions index h (MoveAction.moves (MoveCommand.action first))
  ∧ Forall2 (rerouted (MoveAction.moves (MoveCommand.action second)))
      (resolutions index h (MoveAction.moves (MoveCommand.action first))) merged.
Proof.
  intros Hfresh Hna Hd HB index r1 r2 merged.
  set (A := MoveAction.moves (MoveCommand.action first)) in *.
  set (B := MoveAction.moves (MoveCommand.action second)) in *.
  assert (MoveCommand.resolvedMoves r1.1.2 = resolutions index h A) as E1
    by exact (execute_fresh_resolvedMoves first context h Hfresh Hd).
  assert (MoveCommand.action r1.1.2 = MoveCommand.action first) as Ea1
    by apply execute_action.
  assert (MoveCommand.action r2.1.2 = MoveCommand.action second) as Ea2
    by apply execute_action.
  split; [|split; [exact E1|]].
  - unfold Move.merge. rewrite Ea1, Hna. cbn [instanceofMoveCommand].
    by rewrite Ea2, E1.
  - assert (moved_only h r2.2) as Hmo
      by (eapply moved_only_trans; apply execute_moved_only).
    apply merge_moves_rerouted; [done|]. intros m Hm Hg.
    destruct (proj1 (Forall_forall _ _) HB m Hm) as (m' & Hm' & Hid).
    apply (resolve_None_moved_only _ _ h); [done|].
    apply (resolve_None_same_id m'); [done|].
    apply (resolutions_get_None _ _ A); [done|]. by rewrite Hid.
Qed.

(** A drag in two steps, merged: the last tick of undo puts an element
    where it was before the first step. *)
Lemma merged_drag_restores first second context h element obj :
  MoveCommand.resolvedMoves first = [] →
  MoveAction.animate (MoveCommand.action first) = false →
  distinctTargets (SModelRoot.index (CommandExecutionContext.root context))
    (MoveAction.moves (MoveCommand.action first)) →
  Forall (λ m, ElementMove.fromPosition m = None
               ∧ finitePoint (ElementMove.toPosition m) = true)
    (MoveAction.moves (MoveCommand.action first)) →
  Forall (λ m, finitePoint (ElementMove.toPosition m) = true
               ∧ ∃ m', m' ∈ MoveAction.moves (MoveCommand.action first)
                       ∧ ElementMove.elementId m' = ElementMove.elementId m)
    (MoveAction.moves (MoveCommand.action second)) →
  h !! element = Some obj →
  finitePoint (SModelElement.position obj) = true →
  let r1 := Move.execute first context h in
  let r2 := Move.execute second context r1.2 in
  let merged := Move.merge r1.1.2 (AMoveCommand r2.1.2) context r2.2 in
  let backward :=
    MoveAnimation.mk (CommandExecutionContext.root context)
      (MoveCommand.resolvedMoves merged.2) context true in
  ∃ obj', (Move.tween backward Number.one r2.2).2 !! element = Some obj'
    ∧ same_place obj obj'
    ∧ (Point.x (SModelElement.position obj) ≠ Number.negativeZero →
       Point.y (SModelElement.position obj) ≠ Number.negativeZero →
       obj' = obj).
Proof.
  intros Hfresh Hna Hd HA HB Hh Hfin r1 r2 merged backward.
  destruct (merged_drag_cache first second context h Hfresh Hna Hd) as (Em & E1 & Hre).
  { eapply Forall_impl; [exact HB|]. by intros m [_ ?]. }
  fold r1 r2 merged in Em. cbv zeta in Em, E1, Hre. fold r1 r2 in E1, Hre.
  set (index := SModelRoot.index (CommandExecutionContext.root context)) in *.
  set (A := MoveAction.moves (MoveCommand.action first)) in *.
  set (B := MoveAction.moves (MoveCommand.action second)) in *.
  assert (moved_only h r2.2) as Hmo.
  { eapply moved_only_trans; apply execute_moved_only. }
  pose proof (Hmo element) as Ho2. rewrite Hh in Ho2. destruct Ho2 as (o2 & Ho2 & Hs).
  pose proof (lastWriter_rerouted B _ _ element Hre) as Hlw.
  rewrite lastWriter_resolutions in Hlw.
  destruct (lastMoveTo index A element) as [m|] eqn:Hl; simpl in Hlw.
  - pose proof (lastMoveTo_Some _ _ _ _ Hl) as [Hin Hi].
    destruct (proj1 (Forall_forall _ _) HA m Hin) as [Hnone Hto].
    rewrite (resolve_Some _ _ _ element obj) in Hlw by (by apply getById_Some).
    rewrite Hnone in Hlw. destruct Hlw as (r' & Hr' & _ & _ & Hf' & _ & Ht'). simpl in *.
    apply (tween_one_lands backward r2.2 element r' obj o2); try done.
    + unfold backward. by rewrite Em.
    + by rewrite Hf'.
    + destruct Ht' as [->|(mb & Hmb & ->)]; [done|].
      by destruct (proj1 (Forall_forall _ _) HB mb Hmb).
  - exists obj. split; [|split; [by apply same_place_refl|done]].
    rewrite tween_lookup. unfold backward at 1. rewrite Em. simpl. rewrite Hlw.
    assert (element ∉ omap (λ m, index !! ElementMove.elementId m) A) as HnA
      by (by apply lastMoveTo_None).
    assert (element ∉ omap (λ m, index !! ElementMove.elementId m) B) as HnB.
    { intros (m & Hm & Hi)%list_elem_of_omap. apply HnA.
      destruct (proj1 (Forall_forall _ _) HB m Hm) as (_ & m' & Hm' & Hid).
      apply list_elem_of_omap. exists m'. split; [done|]. by rewrite Hid. }
    unfold r2. rewrite execute_lookup_untouched by done.
    unfold r1. by rewrite execute_lookup_untouched.
Qed.

End DragFacts.

(** X5. Undo of a merged drag.  A new non-animated command is executed; a
    second command, whose moves name only ids that the first one names, is
    executed on the heap the first left; the first merges the second.
    With no element named twice by the first, no fromPosition given and
    finite points: the merge is accepted and keeps the keys of the cache
    in their order, and the last tick of the animation that [undo] of the
    merged command starts puts an element where it was before the first
    [execute] ([===], and the very same unless a coordinate was the
    negative zero). *)
Theorem merged_drag_undoes_to_start first second context h element obj :
  MoveCommand.resolvedMoves first = [] →
  MoveAction.animate (MoveCommand.action first) = false →
  distinctTargets (SModelRoot.index (CommandExecutionContext.root context))
    (MoveAction.moves (MoveCommand.action first)) →
  Forall (λ m, ElementMove.fromPosition m = None
               ∧ finitePoint (ElementMove.toPosition m) = true)
    (MoveAction.moves (MoveCommand.action first)) →
  Forall (λ m, finitePoint (ElementMove.toPosition m) = true
               ∧ ∃ m', m' ∈ MoveAction.moves (MoveCommand.action first)
                       ∧ ElementMove.elementId m' = ElementMove.elementId m)
    (MoveAction.moves (MoveCommand.action second)) →
  h !! element = Some obj →
  finitePoint (SModelElement.position obj) = true →
  let r1 := Move.execute first context h in
  let r2 := Move.execute second context r1.2 in
  let merged := Move.merge r1.1.2 (AMoveCommand r2.1.2) context r2.2 in
  let backward :=
    MoveAnimation.mk (CommandExecutionContext.root context)
      (MoveCommand.resolvedMoves merged.2) context true in
  merged.1 = true
  ∧ (MoveCommand.resolvedMoves merged.2).*1 = (MoveCommand.resolvedMoves r1.1.2).*1
  ∧ (Move.undo merged.2 context r2.2).1.1 = Animated (start backward)
  ∧ ∃ obj', (Move.tween backward Number.one r2.2).2 !! element = Some obj'
      ∧ same_place obj obj'
      ∧ (Point.x (SModelElement.position obj) ≠ Number.negativeZero →
         Point.y (SModelElement.position obj) ≠ Number.negativeZero →
         obj' = obj).
Proof.
  intros Hfresh Hna Hd HA HB Hh Hfin r1 r2 merged backward.
  destruct (merged_drag_cache first second context h Hfresh Hna Hd) as (Em & E1 & Hre).
  { eapply Forall_impl; [exact HB|]. by intros m [_ ?]. }
  fold r1 r2 merged in Em. cbv zeta in E1, Hre. fold r1 r2 in E1.
  split; [by rewrite Em|].
  split; [rewrite Em, E1; exact (Forall2_rerouted_keys _ _ _ Hre)|].
  split; [done|].
  by apply merged_drag_restores.
Qed.

Lemma merged_drag_undoes_to_start_witness :
  Move.merge dragging
    (AMoveCommand (Move.execute nextDrag testContext draggedHeap).1.2) testContext
    (Move.execute nextDrag testContext draggedHeap).2
  = (true,
     MoveCommand.mk (MoveCommand.action firstDrag)
       [("node0", ResolvedElementMove.mk (point 100 100) "node0" 1 (point 120 120))])
  ∧ (Move.tween
       (MoveAnimation.mk initialModel
          [("node0", ResolvedElementMove.mk (point 100 100) "node0" 1 (point 120 120))]
          testContext true)
       Number.one (Move.execute nextDrag testContext draggedHeap).2).2 !! 1
    = Some node0.
Proof.
  assert (Move.merge dragging
            (AMoveCommand (Move.execute nextDrag testContext draggedHeap).1.2)
            testContext (Move.execute nextDrag testContext draggedHeap).2
          = (true,
             MoveCommand.mk (MoveCommand.action firstDrag)
               [("node0",
                 ResolvedElementMove.mk (point 100 100) "node0" 1 (point 120 120))]))
    as Em by by vm_compute.
  split; [exact Em|].
  destruct (merged_drag_undoes_to_start firstDrag nextDrag testContext initialHeap 1
              node0) as (_ & _ & _ & obj' & Ho & _ & Hid).
  - reflexivity.
  - reflexivity.
  - apply (bool_decide_unpack _). by vm_compute.
  - repeat constructor.
  - repeat constructor. exists (ElementMove.mk None "node0" (point 110 110)).
    split; [apply list_elem_of_here|reflexivity].
  - by vm_compute.
  - reflexivity.
  - rewrite (Hid ltac:(by vm_compute) ltac:(by vm_compute)) in Ho.
    change (Move.execute firstDrag testContext initialHeap).1.2 with dragging in Ho.
    change (Move.execute firstDrag testContext initialHeap).2 with draggedHeap in Ho.
    rewrite Em in Ho. exact Ho.
Defined.

Section RedoFacts.
Implicit Types (index : SModelIndex) (h : Heap) (move : ElementMove.t)
  (moves : list ElementMove.t)
  (rm : JSMap.t ResolvedElementMove.t).

Lemma wellKeyed_elem_of rm k r :
  wellKeyed rm →
  (k, r) ∈ rm ↔ JSMap.get k rm = Some r ∧ ResolvedElementMove.elementId r = k.
Proof.
  intros [Hnd Hk]. split.
  - intros Hin. split; [by apply elem_of_get|].
    exact (proj1 (Forall_forall _ _) Hk _ Hin).
  - intros [Hg _]. by apply get_elem_of.
Qed.

Lemma wellKeyed_nil : wellKeyed [].
Proof. split; constructor. Qed.

Lemma lastWriter_get rm element r :
  wellKeyed rm → lastWriter rm element = Some r →
  JSMap.get (ResolvedElementMove.elementId r) rm = Some r.
Proof.
  intros Hw Hl. unfold lastWriter in Hl.
  apply last_Some_elem_of, list_elem_of_filter in Hl as [_ Hin].
  apply list_elem_of_fmap in Hin as ([k r'] & -> & Hin).
  apply (wellKeyed_elem_of _ _ _ Hw) in Hin as [Hg <-]. exact Hg.
Qed.

Lemma distinctTargets_id index moves m1 m2 element :
  distinctTargets index moves → m1 ∈ moves → m2 ∈ moves →
  index !! ElementMove.elementId m1 = Some element →
  index !! ElementMove.elementId m2 = Some element →
  ElementMove.elementId m1 = ElementMove.elementId m2.
Proof.
  unfold distinctTargets. induction moves as [|m ms IH]; [by intros _ ?%not_elem_of_nil|].
  simpl. intros Hnd H1 H2 E1 E2.
  assert (∀ m', m' ∈ ms → index !! ElementMove.elementId m' = Some element →
                index !! ElementMove.elementId m = Some element → False) as Hno.
  { intros m' Hm' Em' Em. rewrite Em in Hnd. apply NoDup_cons in Hnd as [Hn _].
    apply Hn, list_elem_of_omap. by exists m'. }
  assert (NoDup (omap (λ m, index !! ElementMove.elementId m) ms)) as Hnd'.
  { destruct (index !! ElementMove.elementId m); [by apply NoDup_cons in Hnd as [_ ?]|done]. }
  apply elem_of_cons in H1 as [->|H1], H2 as [->|H2]; [done| | |by apply IH].
  - destruct (Hno m2 H2 E2 E1).
  - destruct (Hno m1 H1 E1 E2).
Qed.

Lemma filter_ext_in {A} (P Q : A → Prop) `{∀ x, Decision (P x)} `{∀ x, Decision (Q x)}
    (l : list A) :
  (∀ x, x ∈ l → (P x ↔ Q x)) → filter P l = filter Q l.
Proof.
  induction l as [|x l IH]; [done|]. intros Hpq.
  assert (filter P l = filter Q l) as E
    by (apply IH; intros y Hy; by apply Hpq, list_elem_of_further).
  destruct (decide (P x)) as [Hp|Hp].
  - rewrite !filter_cons_True; [by rewrite E|by apply Hpq; [apply list_elem_of_here|]|done].
  - rewrite !filter_cons_False; [done| |done].
    intros Hq. apply Hp, Hpq; [apply list_elem_of_here|done].
Qed.

(** The heap after a non-animated execute of a fresh command. *)
Lemma execute_direct_lookup this context h element :
  MoveAction.animate (MoveCommand.action this) = false →
  (Move.execute this context h).2 !! element =
    match lastMoveTo (SModelRoot.index (CommandExecutionContext.root context))
            (MoveAction.moves (MoveCommand.action this)) element with
    | Some move => SModelElement.set_position (ElementMove.toPosition move) <$> h !! element
    | None => h !! element
    end.
Proof.
  intros Hna. unfold Move.execute. rewrite Hna. simpl.
  by rewrite (execute_moves_lookup _ _ (_, h)).
Qed.

Lemma execute_wellKeyed this context h :
  wellKeyed (MoveCommand.resolvedMoves this) →
  wellKeyed (MoveCommand.resolvedMoves (Move.execute this context h).1.2).
Proof.
  intros Hw. unfold Move.execute. destruct (MoveAction.animate _); simpl;
    by apply wellKeyed_execute_moves.
Qed.

(** A drag in two steps, merged: the last tick of redo, after that of
    undo, puts an element where the second step left it. *)
Lemma merged_drag_repeats first second context h element obj obj2 :
  MoveCommand.resolvedMoves first = [] →
  MoveAction.animate (MoveCommand.action first) = false →
  MoveAction.animate (MoveCommand.action second) = false →
  distinctTargets (SModelRoot.index (CommandExecutionContext.root context))
    (MoveAction.moves (MoveCommand.action first)) →
  Forall (λ m, ElementMove.fromPosition m = None
               ∧ finitePoint (ElementMove.toPosition m) = true)
    (MoveAction.moves (MoveCommand.action first)) →
  Forall (λ m, finitePoint (ElementMove.toPosition m) = true
               ∧ ∃ m', m' ∈ MoveAction.moves (MoveCommand.action first)
                       ∧ ElementMove.elementId m' = ElementMove.elementId m)
    (MoveAction.moves (MoveCommand.action second)) →
  h !! element = Some obj →
  finitePoint (SModelElement.position obj) = true →
  let r1 := Move.execute first context h in
  let r2 := Move.execute second context r1.2 in
  let merged := Move.merge r1.1.2 (AMoveCommand r2.1.2) context r2.2 in
  let backward :=
    MoveAnimation.mk (CommandExecutionContext.root context)
      (MoveCommand.resolvedMoves merged.2) context true in
  let forward :=
    MoveAnimation.mk (CommandExecutionContext.root context)
      (MoveCommand.resolvedMoves merged.2) context false in
  r2.2 !! element = Some obj2 →
  ∃ obj', (Move.tween forward Number.one
             (Move.tween backward Number.one r2.2).2).2 !! element = Some obj'
    ∧ same_place obj2 obj'
    ∧ (Point.x (SModelElement.position obj2) ≠ Number.negativeZero →
       Point.y (SModelElement.position obj2) ≠ Number.negativeZero →
       obj' = obj2).
Proof.
  intros Hfresh Hna Hna2 Hd HA HB Hh Hfin r1 r2 merged backward forward Ho2.
  set (index := SModelRoot.index (CommandExecutionContext.root context)) in *.
  set (A := MoveAction.moves (MoveCommand.action first)) in *.
  set (B := MoveAction.moves (MoveCommand.action second)) in *.
  assert (MoveCommand.resolvedMoves r1.1.2 = resolutions index h A) as E1
    by exact (execute_fresh_resolvedMoves first context h Hfresh Hd).
  assert (wellKeyed (resolutions index h A)) as Hw1.
  { rewrite <- E1. apply execute_wellKeyed. rewrite Hfresh. apply wellKeyed_nil. }
  assert (merged = (true, MoveCommand.mk (MoveCommand.action first)
                            (Move.merge_moves index r2.2 B (resolutions index h A))))
    as Em.
  { assert (MoveCommand.action r1.1.2 = MoveCommand.action first) as Ea1
      by apply execute_action.
    assert (MoveCommand.action r2.1.2 = MoveCommand.action second) as Ea2
      by apply execute_action.
    unfold merged, Move.merge. rewrite Ea1, Hna. cbn [instanceofMoveCommand].
    by rewrite Ea2, E1. }
  assert (wellKeyed (Move.merge_moves index r2.2 B (resolutions index h A))) as HwM
    by (by apply wellKeyed_merge_moves).
  assert (moved_only h r2.2) as Hmo.
  { eapply moved_only_trans; apply execute_moved_only. }
  assert (Forall2 (rerouted B) (resolutions index h A)
            (Move.merge_moves index r2.2 B (resolutions index h A))) as Hre.
  { apply merge_moves_rerouted; [done|]. intros m Hm Hg.
    destruct (proj1 (Forall_forall _ _) HB m Hm) as (_ & m' & Hm' & Hid).
    apply (resolve_None_moved_only _ _ h); [done|].
    apply (resolve_None_same_id m'); [done|].
    apply (resolutions_get_None _ _ A); [done|]. by rewrite Hid. }
  (* the heap the forward tick starts from *)
  assert (moved_only r2.2 (Move.tween backward Number.one r2.2).2) as Hmb
    by apply tween_moved_only.
  pose proof (Hmb element) as Hob. rewrite Ho2 in Hob.
  destruct Hob as (ob & Hob & Hsb).
  (* where the second step left the element *)
  assert (r2.2 !! element =
          match lastMoveTo index B element with
          | Some mb => Some (SModelElement.set_position (ElementMove.toPosition mb)
                               (default obj
                                  ((λ ma, SModelElement.set_position
                                            (ElementMove.toPosition ma) obj)
                                   <$> lastMoveTo index A element)))
          | None => Some (default obj
                            ((λ ma, SModelElement.set_position
                                      (ElementMove.toPosition ma) obj)
                             <$> lastMoveTo index A element))
          end) as Eh2.
  { unfold r2. rewrite execute_direct_lookup by done. fold index B.
    unfold r1. rewrite execute_direct_lookup by done. fold index A. rewrite Hh.
    by destruct (lastMoveTo index B element), (lastMoveTo index A element). }
  pose proof (lastWriter_rerouted B _ _ element Hre) as Hlw.
  rewrite lastWriter_resolutions in Hlw.
  destruct (lastMoveTo index A element) as [ma|] eqn:Hl; simpl in Hlw, Eh2.
  - pose proof (lastMoveTo_Some _ _ _ _ Hl) as [Hin Hi].
    destruct (proj1 (Forall_forall _ _) HA ma Hin) as [Hnone Hto].
    rewrite (resolve_Some _ _ _ element obj) in Hlw by (by apply getById_Some).
    rewrite Hnone in Hlw. destruct Hlw as (r' & Hr' & _ & Hk & Hf' & _ & _).
    simpl in Hk, Hf'.
    (* the target of the merged entry *)
    pose proof (lastWriter_get _ _ _ HwM Hr') as Hg. rewrite Hk in Hg.
    rewrite merge_moves_get in Hg.
    assert (JSMap.get (ElementMove.elementId ma) (resolutions index h A) =
            Some (ResolvedElementMove.mk (SModelElement.position obj)
                    (ElementMove.elementId ma) element (ElementMove.toPosition ma)))
      as Hg1.
    { pose proof (lastWriter_resolutions index h A element) as Hl1.
      rewrite Hl in Hl1. simpl in Hl1.
      rewrite (resolve_Some _ _ _ element obj) in Hl1 by (by apply getById_Some).
      rewrite Hnone in Hl1. simpl in Hl1.
      exact (lastWriter_get _ _ _ Hw1 Hl1). }
    rewrite Hg1 in Hg.
    assert (movesFor (ElementMove.elementId ma) B =
            filter (λ m, index !! ElementMove.elementId m = Some element) B) as Ef.
    { unfold movesFor. apply filter_ext_in. intros m Hm. split.
      - by intros ->.
      - intros Hmi.
        destruct (proj1 (Forall_forall _ _) HB m Hm) as (_ & m' & Hm' & Hid).
        rewrite <- Hid. rewrite <- Hid in Hmi.
        by apply (distinctTargets_id index A m' ma element). }
    rewrite Ef in Hg. fold (lastMoveTo index B element) in Hg.
    assert (finitePoint (ResolvedElementMove.toPosition r') = true
            ∧ SModelElement.position obj2 = ResolvedElementMove.toPosition r') as [Hft Hp].
    { rewrite Ho2 in Eh2.
      destruct (lastMoveTo index B element) as [mb|] eqn:Hlb; simpl in Hg;
        injection Hg as <-; injection Eh2 as ->; simpl; split; try done.
      apply lastMoveTo_Some in Hlb as [Hinb _].
      by destruct (proj1 (Forall_forall _ _) HB mb Hinb). }
    apply (tween_one_lands forward _ element r' obj2 ob); try done.
    + unfold forward. by rewrite Em.
    + by rewrite Hf'.
  - assert (element ∉ omap (λ m, index !! ElementMove.elementId m) A) as HnA
      by (by apply lastMoveTo_None).
    assert (lastMoveTo index B element = None) as HlB.
    { destruct (lastMoveTo index B element) as [mb|] eqn:Hlb; [|done].
      apply lastMoveTo_Some in Hlb as [Hinb Hib].
      destruct (proj1 (Forall_forall _ _) HB mb Hinb) as (_ & m' & Hm' & Hid).
      exfalso. apply HnA, list_elem_of_omap. exists m'. split; [done|]. by rewrite Hid. }
    rewrite HlB, Ho2 in Eh2. injection Eh2 as ->.
    exists obj. split; [|split; [by apply same_place_refl|done]].
    rewrite !tween_lookup.
    assert (lastWriter (MoveAnimation.elementMoves forward) element = None) as ->
      by (unfold forward; by rewrite Em).
    assert (lastWriter (MoveAnimation.elementMoves backward) element = None) as ->
      by (unfold backward; by rewrite Em).
    exact Ho2.
Qed.

End RedoFacts.

(** X9. Redo of a merged drag.  A new non-animated command is executed; a
    second non-animated command, whose moves name only ids that the first
    one names, is executed on the heap the first left; the first merges
    the second (no element named twice by the first, no fromPosition
    given, finite points).  After the last tick of the animation of
    [undo], the last tick of the animation that [redo] of the merged
    command starts puts an element where the second [execute] left it
    ([===], and the very same unless a coordinate is the negative
    zero). *)
Theorem merged_drag_redoes_to_end first second context h element obj obj2 :
  MoveCommand.resolvedMoves first = [] →
  MoveAction.animate (MoveCommand.action first) = false →
  MoveAction.animate (MoveCommand.action second) = false →
  distinctTargets (SModelRoot.index (CommandExecutionContext.root context))
    (MoveAction.moves (MoveCommand.action first)) →
  Forall (λ m, ElementMove.fromPosition m = None
               ∧ finitePoint (ElementMove.toPosition m) = true)
    (MoveAction.moves (MoveCommand.action first)) →
  Forall (λ m, finitePoint (ElementMove.toPosition m) = true
               ∧ ∃ m', m' ∈ MoveAction.moves (MoveCommand.action first)
                       ∧ ElementMove.elementId m' = ElementMove.elementId m)
    (MoveAction.moves (MoveCommand.action second)) →
  h !! element = Some obj →
  finitePoint (SModelElement.position obj) = true →
  let r1 := Move.execute first context h in
  let r2 := Move.execute second context r1.2 in
  let merged := Move.merge r1.1.2 (AMoveCommand r2.1.2) context r2.2 in
  let backward :=
    MoveAnimation.mk (CommandExecutionContext.root context)
      (MoveCommand.resolvedMoves merged.2) context true in
  let forward :=
    MoveAnimation.mk (CommandExecutionContext.root context)
      (MoveCommand.resolvedMoves merged.2) context false in
  r2.2 !! element = Some obj2 →
  (Move.redo merged.2 context (Move.tween backward Number.one r2.2).2).1.1
    = Animated (start forward)
  ∧ ∃ obj', (Move.tween forward Number.one
               (Move.tween backward Number.one r2.2).2).2 !! element = Some obj'
      ∧ same_place obj2 obj'
      ∧ (Point.x (SModelElement.position obj2) ≠ Number.negativeZero →
         Point.y (SModelElement.position obj2) ≠ Number.negativeZero →
         obj' = obj2).
Proof.
  intros Hfresh Hna Hna2 Hd HA HB Hh Hfin r1 r2 merged backward forward Ho2.
  split; [done|]. by apply (merged_drag_repeats first second context h element obj).
Qed.

Lemma merged_drag_redoes_to_end_witness :
  (Move.execute nextDrag testContext draggedHeap).2 !! 1
  = Some (SModelElement.set_position (point 120 120) node0)
  ∧ ∃ backward,
      (Move.undo
         (Move.merge dragging
            (AMoveCommand (Move.execute nextDrag testContext draggedHeap).1.2)
            testContext (Move.execute nextDrag testContext draggedHeap).2).2
         testContext (Move.execute nextDrag testContext draggedHeap).2).1.1
      = Animated (start backward)
      ∧ (Move.tween
           (MoveAnimation.mk initialModel (MoveAnimation.elementMoves backward)
              testContext false)
           Number.one
           (Move.tween backward Number.one
              (Move.execute nextDrag testContext draggedHeap).2).2).2 !! 1
        = Some (SModelElement.set_position (point 120 120) node0).
Proof.
  assert ((Move.execute nextDrag testContext draggedHeap).2 !! 1
          = Some (SModelElement.set_position (point 120 120) node0)) as Ho2
    by by vm_compute.
  split; [exact Ho2|].
  destruct (merged_drag_redoes_to_end firstDrag nextDrag testContext initialHeap 1
              node0 (SModelElement.set_position (point 120 120) node0))
    as (_ & obj' & Ho & _ & Hid).
  - reflexivity.
  - reflexivity.
  - reflexivity.
  - apply (bool_decide_unpack _). by vm_compute.
  - repeat constructor.
  - repeat constructor. exists (ElementMove.mk None "node0" (point 110 110)).
    split; [apply list_elem_of_here|reflexivity].
  - by vm_compute.
  - reflexivity.
  - exact Ho2.
  - eexists. split; [reflexivity|].
    rewrite (Hid ltac:(by vm_compute) ltac:(by vm_compute)) in Ho. exact Ho.
Defined.

(** ** The start of an animation, and a repeated id *)

Section StartFacts.
Import Number.

Lemma add_zero_r s a :
  isFinite a = true →
  add a (S754_zero s) = a
  ∨ (a = negativeZero ∧ add a (S754_zero s) = S754_zero false).
Proof.
  destruct a as [sa|?| |? ? ?]; try discriminate; intros _.
  - destruct s, sa; cbn; auto.
  - by left.
Qed.

(** [(1 - 0) * a + 0 * b] is [a] when both are finite. *)
Lemma lerp_at_zero a b :
  representable a = true → isFinite a = true → isFinite b = true →
  strictEquals ((one - ofZ 0) * a + ofZ 0 * b)%num a = true
  ∧ (a ≠ negativeZero → ((one - ofZ 0) * a + ofZ 0 * b)%num = a).
Proof.
  intros Hr Ha Hb.
  change (one - ofZ 0)%num with one. change (ofZ 0) with (S754_zero false).
  destruct (mul_zero_l false b Hb) as [s' ->].
  rewrite (mul_one_l a Hr Ha).
  destruct (add_zero_r s' a Ha) as [-> | [-> ->]].
  - split; [by apply strictEquals_refl | done].
  - split; [reflexivity | done].
Qed.

Lemma tween_position_zero (reverse : bool) elementMove :
  finitePoint (ResolvedElementMove.fromPosition elementMove) = true →
  finitePoint (ResolvedElementMove.toPosition elementMove) = true →
  let source := if reverse then ResolvedElementMove.toPosition elementMove
                else ResolvedElementMove.fromPosition elementMove in
  let p := Move.tween_position reverse (ofZ 0) elementMove in
  strictEquals (Point.x p) (Point.x source) = true
  ∧ strictEquals (Point.y p) (Point.y source) = true
  ∧ (Point.x source ≠ negativeZero → Point.y source ≠ negativeZero → p = source).
Proof.
  unfold finitePoint. intros Hf Ht.
  repeat (apply andb_prop in Hf as [Hf ?]). repeat (apply andb_prop in Ht as [Ht ?]).
  unfold Move.tween_position.
  destruct reverse; cbn [Point.x Point.y].
  - destruct (lerp_at_zero (Point.x (ResolvedElementMove.toPosition elementMove))
                (Point.x (ResolvedElementMove.fromPosition elementMove)))
      as [Ex Ix]; try done.
    destruct (lerp_at_zero (Point.y (ResolvedElementMove.toPosition elementMove))
                (Point.y (ResolvedElementMove.fromPosition elementMove)))
      as [Ey Iy]; try done.
    split; [done|]. split; [done|]. intros Nx Ny. rewrite (Ix Nx), (Iy Ny).
    by destruct (ResolvedElementMove.toPosition elementMove).
  - destruct (lerp_at_zero (Point.x (ResolvedElementMove.fromPosition elementMove))
                (Point.x (ResolvedElementMove.toPosition elementMove)))
      as [Ex Ix]; try done.
    destruct (lerp_at_zero (Point.y (ResolvedElementMove.fromPosition elementMove))
                (Point.y (ResolvedElementMove.toPosition elementMove)))
      as [Ey Iy]; try done.
    split; [done|]. split; [done|]. intros Nx Ny. rewrite (Ix Nx), (Iy Ny).
    by destruct (ResolvedElementMove.fromPosition elementMove).
Qed.

(** The first tick of an animation, at an element one of its entries
    writes: the element is at the entry's start ([===]). *)
Lemma tween_zero_stays this h element r o o' :
  lastWriter (MoveAnimation.elementMoves this) element = Some r →
  finitePoint (ResolvedElementMove.fromPosition r) = true →
  finitePoint (ResolvedElementMove.toPosition r) = true →
  h !! element = Some o' →
  same_but_position o o' →
  SModelElement.position o =
    (if MoveAnimation.reverse this then ResolvedElementMove.toPosition r
     else ResolvedElementMove.fromPosition r) →
  ∃ o'', (Move.tween this (ofZ 0) h).2 !! element = Some o''
    ∧ same_place o o''
    ∧ (Point.x (SModelElement.position o) ≠ Number.negativeZero →
       Point.y (SModelElement.position o) ≠ Number.negativeZero → o'' = o).
Proof.
  intros Hl Hf Ht Hh Hs Hp. rewrite tween_lookup, Hl, Hh.
  eexists; split; [reflexivity|].
  destruct (tween_position_zero (MoveAnimation.reverse this) r Hf Ht) as (Ex & Ey & Eid).
  rewrite <- Hp in Ex, Ey, Eid.
  split; [split|].
  - by apply same_but_position_set.
  - destruct o'. by split.
  - intros Nx Ny. rewrite (Eid Nx Ny). by apply set_position_same.
Qed.

End StartFacts.

(** X16. The animation starts in place.  An animated [execute] of a new
    command (no fromPosition given, no element named twice, finite
    points) leaves the heap as it is and starts the forward animation of
    its resolved moves, whose first tick ([t = 0]) leaves an element with
    finite coordinates where it is ([===], and the very same unless a
    coordinate is the negative zero). *)
Theorem animation_starts_in_place this context h element obj :
  MoveCommand.resolvedMoves this = [] →
  MoveAction.animate (MoveCommand.action this) = true →
  distinctTargets (SModelRoot.index (CommandExecutionContext.root context))
    (MoveAction.moves (MoveCommand.action this)) →
  Forall (λ m, ElementMove.fromPosition m = None
               ∧ finitePoint (ElementMove.toPosition m) = true)
    (MoveAction.moves (MoveCommand.action this)) →
  h !! element = Some obj →
  finitePoint (SModelElement.position obj) = true →
  let r := Move.execute this context h in
  let forward :=
    MoveAnimation.mk (CommandExecutionContext.root context)
      (MoveCommand.resolvedMoves r.1.2) context false in
  r.1.1 = Animated (start forward)
  ∧ r.2 = h
  ∧ ∃ obj', (Move.tween forward (ofZ 0) r.2).2 !! element = Some obj'
      ∧ same_place obj obj'
      ∧ (Point.x (SModelElement.position obj) ≠ Number.negativeZero →
         Point.y (SModelElement.position obj) ≠ Number.negativeZero →
         obj' = obj).
Proof.
  intros Hfresh Ha Hd Hm Hh Hfin r forward.
  assert (r.2 = h) as Eh.
  { unfold r, Move.execute. rewrite Ha. apply (execute_moves_animated _ _ (_, h)). }
  split; [unfold forward, r, Move.execute; by rewrite Ha|]. split; [done|].
  rewrite Eh.
  destruct (lastMoveTo (SModelRoot.index (CommandExecutionContext.root context))
              (MoveAction.moves (MoveCommand.action this)) element) as [m|] eqn:Hl.
  - pose proof (lastMoveTo_Some _ _ _ _ Hl) as [Hin Hi].
    destruct (proj1 (Forall_forall _ _) Hm m Hin) as [Hnone Hto].
    apply (tween_zero_stays forward h element
             (ResolvedElementMove.mk (SModelElement.position obj)
                (ElementMove.elementId m) element (ElementMove.toPosition m))
             obj obj); try done.
    unfold forward, r. simpl. rewrite execute_fresh_resolvedMoves by done.
    rewrite lastWriter_resolutions, Hl. simpl.
    rewrite (resolve_Some _ _ _ element obj) by (by apply getById_Some).
    by rewrite Hnone.
  - exists obj. split; [|split; [by apply same_place_refl|done]].
    rewrite tween_lookup. unfold forward, r. simpl.
    rewrite execute_fresh_resolvedMoves by done.
    by rewrite lastWriter_resolutions, Hl.
Qed.

Lemma animation_starts_in_place_witness :
  (Move.execute animatedDrag testContext initialHeap).2 = initialHeap
  ∧ (Move.tween
       (MoveAnimation.mk initialModel
          (MoveCommand.resolvedMoves
             (Move.execute animatedDrag testContext initialHeap).1.2)
          testContext false)
       (ofZ 0) initialHeap).2 !! 1 = Some node0.
Proof.
  destruct (animation_starts_in_place animatedDrag testContext initialHeap 1 node0)
    as (_ & Eh & obj' & Ho & _ & Hid).
  - reflexivity.
  - reflexivity.
  - apply (bool_decide_unpack _). by vm_compute.
  - repeat constructor.
  - by vm_compute.
  - reflexivity.
  - split; [exact Eh|].
    rewrite (Hid ltac:(by vm_compute) ltac:(by vm_compute)), Eh in Ho. exact Ho.
Defined.

(** X15. A batch that names an id twice.  When a new command executes two
    moves of one id, the second without fromPosition, the entry cached for
    the id has the second move's toPosition and, not animated, the first
    move's toPosition as its fromPosition: the position before [execute]
    is not kept, and [undo] leads to the first target.  Animated, the
    fromPosition is the position before [execute]. *)
Theorem repeated_id_forgets_start context h m1 m2 element obj :
  ElementMove.elementId m2 = ElementMove.elementId m1 →
  ElementMove.fromPosition m2 = None →
  getById (SModelRoot.index (CommandExecutionContext.root context)) h
    (ElementMove.elementId m1) = Some (element, obj) →
  let direct := MoveCommand.mk (MoveAction.mk [m1; m2] false) [] in
  let animated := MoveCommand.mk (MoveAction.mk [m1; m2] true) [] in
  MoveCommand.resolvedMoves (Move.execute direct context h).1.2 =
    [(ElementMove.elementId m1,
      ResolvedElementMove.mk (ElementMove.toPosition m1) (ElementMove.elementId m1)
        element (ElementMove.toPosition m2))]
  ∧ MoveCommand.resolvedMoves (Move.execute animated context h).1.2 =
    [(ElementMove.elementId m1,
      ResolvedElementMove.mk (SModelElement.position obj) (ElementMove.elementId m1)
        element (ElementMove.toPosition m2))].
Proof.
  intros Hid Hnone Hg direct animated.
  pose proof (proj1 (getById_Some _ _ _ _ _) Hg) as [Hi Hh].
  assert (∀ animate,
            (Move.execute_moves animate
               (SModelRoot.index (CommandExecutionContext.root context)) [m1; m2]
               ([], h)).1 =
            [(ElementMove.elementId m1,
              ResolvedElementMove.mk
                (if animate then SModelElement.position obj else ElementMove.toPosition m1)
                (ElementMove.elementId m1) element (ElementMove.toPosition m2))]) as E.
  { intros animate. rewrite !execute_moves_cons.
    rewrite (execute_move_resolved animate _ ([], h) m1 element obj Hg).
    rewrite (execute_move_resolved animate _ _ m2 element
               (if animate then obj
                else SModelElement.set_position (ElementMove.toPosition m1) obj)).
    - cbn [fst JSMap.set Move.execute_moves foldl]. rewrite Hid, Hnone.
      rewrite decide_True by done. by destruct animate.
    - cbn [snd]. rewrite Hid. apply getById_Some. split; [done|].
      destruct animate; [done|]. by rewrite lookup_alter_eq, Hh. }
  split.
  - unfold direct, Move.execute.
    cbn [MoveCommand.action MoveAction.moves MoveAction.animate
         MoveCommand.resolvedMoves fst snd]. apply (E false).
  - unfold animated, Move.execute.
    cbn [MoveCommand.action MoveAction.moves MoveAction.animate
         MoveCommand.resolvedMoves fst snd]. apply (E true).
Qed.

Lemma repeated_id_forgets_start_witness :
  MoveCommand.resolvedMoves
    (Move.execute
       (MoveCommand.mk
          (MoveAction.mk [ElementMove.mk None "node0" (point 110 110);
                          ElementMove.mk None "node0" (point 120 120)] false) [])
       testContext initialHeap).1.2
  = [("node0", ResolvedElementMove.mk (point 110 110) "node0" 1 (point 120 120))].
Proof.
  exact (proj1 (repeated_id_forgets_start testContext initialHeap
                  (ElementMove.mk None "node0" (point 110 110))
                  (ElementMove.mk None "node0" (point 120 120)) 1 node0
                  eq_refl eq_refl ltac:(by vm_compute))).
Defined.

(** ** The mouse listener *)

Section ListenerFacts.
Implicit Types (this : MoveMouseListener.t) (features : Features.t) (h : Heap)
  (model : SModelRoot.t) (event : MouseEvent.t) (c : MouseCall)
  (cs : list MouseCall) (a : MoveAction.t).

Lemma calls_snoc this cs c :
  calls this (cs ++ [c]) =
  ((call (calls this cs).1 c).1, (calls this cs).2 ++ (call (calls this cs).1 c).2).
Proof. unfold calls. by rewrite foldl_app. Qed.

(** What a call that returns an action was given, and leaves. *)
Lemma call_returns this c a :
  a ∈ (call this c).2 →
  ∃ features h model target event last,
    c = MouseMove features h model target event
    ∧ MouseEvent.buttons event ≠ 0%Z
    ∧ MoveMouseListener.lastDragPosition this = Some last
    ∧ (call this c).1 =
        MoveMouseListener.mk true
          (Some (Point.mk (MouseEvent.clientX event) (MouseEvent.clientY event)))
    ∧ (call this c).2 = [a]
    ∧ MoveAction.animate a = false
    ∧ MoveAction.moves a ≠ []
    ∧ MoveAction.moves a =
        omap (MoveMouseListener.nodeMove features h
                ((MouseEvent.clientX event - Point.x last)
                 / default Number.one (Features.viewportZoom features target))%num
                ((MouseEvent.clientY event - Point.y last)
                 / default Number.one (Features.viewportZoom features target))%num)
          (filter (λ element, MoveMouseListener.isSelected features h element = true)
             (all (SModelRoot.index model))).
Proof.
  destruct c as [features target event|features h model target event|target event];
    simpl.
  - unfold MoveMouseListener.mouseDown. case_decide; simpl; by intros ?%not_elem_of_nil.
  - unfold MoveMouseListener.mouseMove.
    case_decide as Hb; [simpl; by intros ?%not_elem_of_nil|].
    destruct (MoveMouseListener.lastDragPosition this) as [last|] eqn:Hl;
      [|simpl; by intros ?%not_elem_of_nil].
    cbv zeta. case_decide as Hn; simpl; [|by intros ?%not_elem_of_nil].
    intros ->%list_elem_of_singleton.
    exists features, h, model, target, event, last. split_and!; try done.
    simpl. intros E. rewrite E in Hn. simpl in Hn. lia.
  - by intros ?%not_elem_of_nil.
Qed.

Lemma nodeMove_Some features h dx dy element m :
  MoveMouseListener.nodeMove features h dx dy element = Some m →
  ∃ obj, h !! element = Some obj
    ∧ Features.isMoveable features element = true
    ∧ m = ElementMove.mk None (SModelElement.id obj)
            (Point.mk (Point.x (SModelElement.position obj) + dx)%num
                      (Point.y (SModelElement.position obj) + dy)%num).
Proof.
  unfold MoveMouseListener.nodeMove. destruct (h !! element) as [obj|]; [|done].
  destruct (Features.isMoveable features element); [|done].
  intros [= <-]. by exists obj.
Qed.

Lemma elem_of_all index element :
  element ∈ all index ↔ ∃ id, index !! id = Some element.
Proof.
  unfold all. rewrite list_elem_of_fmap. split.
  - intros ([id l] & -> & Hin%elem_of_map_to_list). by exists id.
  - intros (id & Hi). exists (id, element). split; [done|]. by apply elem_of_map_to_list.
Qed.

End ListenerFacts.

(** X6. The protocol of the mouse listener.  After any calls of
    [mouseDown], [mouseMove] and [mouseUp] on a new listener: [hasDragged]
    is set only while a drag position is recorded; if no call was a press
    of the primary button on a moveable element, then nothing was returned
    and the listener is as new; every action returned is a non-animated
    [MoveAction] with at least one move, none of which gives a
    fromPosition, so that a command made of it accepts the merge of any
    move command. *)
Theorem drag_needs_a_press cs :
  let r := calls MoveMouseListener.new cs in
  (MoveMouseListener.hasDragged r.1 = true →
   is_Some (MoveMouseListener.lastDragPosition r.1))
  ∧ (Forall (λ c, ¬ pressesMoveable c) cs → r = (MoveMouseListener.new, []))
  ∧ (∀ a, a ∈ r.2 →
       MoveAction.animate a = false
       ∧ MoveAction.moves a ≠ []
       ∧ Forall (λ m, ElementMove.fromPosition m = None) (MoveAction.moves a)
       ∧ ∀ resolvedMoves other context h,
           (Move.merge (MoveCommand.mk a resolvedMoves) (AMoveCommand other)
              context h).1 = true).
Proof.
  cbv zeta. split_and!.
  - induction cs as [|c cs IH] using rev_ind; [done|].
    rewrite calls_snoc. cbn [fst].
    destruct c as [features target event|features h model target event|target event];
      simpl.
    + unfold MoveMouseListener.mouseDown. case_decide; [done|exact IH].
    + unfold MoveMouseListener.mouseMove. case_decide; [done|].
      destruct (MoveMouseListener.lastDragPosition _) as [last|] eqn:Hl.
      * cbv zeta. case_decide; simpl; by eexists.
      * cbn [fst]. by rewrite Hl.
    + done.
  - induction cs as [|c cs IH] using rev_ind; [done|].
    intros [Hcs Hc]%Forall_app. rewrite Forall_singleton in Hc.
    rewrite calls_snoc, (IH Hcs). cbn [fst snd app].
    destruct c as [features target event|features h model target event|target event];
      simpl in *.
    + unfold MoveMouseListener.mouseDown. case_decide as Hb; [|done].
      destruct (Features.isMoveable features target) eqn:Hmv; [|done].
      by destruct Hc.
    + unfold MoveMouseListener.mouseMove. by case_decide.
    + done.
  - induction cs as [|c cs IH] using rev_ind; [by intros a ?%not_elem_of_nil|].
    intros a. rewrite calls_snoc. cbn [snd]. intros [Hin|Hin]%elem_of_app.
    + by apply IH.
    + apply call_returns in Hin
        as (features & h & model & target & event & last & _ & _ & _ & _ & _
            & Hna & Hne & Hmoves).
      split_and!; [done|done| |].
      * rewrite Hmoves. apply Forall_forall.
        intros m (element & _ & Hm)%list_elem_of_omap.
        by apply nodeMove_Some in Hm as (obj & _ & _ & ->).
      * intros resolvedMoves other context h'. unfold Move.merge. simpl. by rewrite Hna.
Qed.

Section DragGesture.
Implicit Types (this : MoveMouseListener.t) (features : Features.t) (h : Heap)
  (index : SModelIndex) (model : SModelRoot.t) (event : MouseEvent.t).

Lemma registeredById_id index h id element obj :
  registeredById index h → index !! id = Some element → h !! element = Some obj →
  SModelElement.id obj = id.
Proof. intros Hr Hi Hh. specialize (Hr id element Hi). simpl in Hr. by rewrite Hh in Hr. Qed.

Lemma NoDup_omap_inj {A B} (f : A → option B) (l : list A) :
  NoDup l →
  (∀ x y b, x ∈ l → y ∈ l → f x = Some b → f y = Some b → x = y) →
  NoDup (omap f l).
Proof.
  induction 1 as [|x l Hx Hnd IH]; intros Hinj; [constructor|].
  simpl. destruct (f x) as [b|] eqn:Hf.
  - constructor.
    + intros (y & Hy & Hfy)%list_elem_of_omap. apply Hx.
      rewrite (Hinj x y b); [done|apply list_elem_of_here|by apply list_elem_of_further|done..].
    + apply IH. intros ?????. apply Hinj; by apply list_elem_of_further.
  - apply IH. intros ?????. apply Hinj; by apply list_elem_of_further.
Qed.

Lemma omap_omap {A B C} (g : A → option B) (f : B → option C) (l : list A) :
  omap f (omap g l) = omap (λ x, g x ≫= f) l.
Proof.
  induction l as [|x l IH]; [done|]. simpl.
  destruct (g x) as [b|]; simpl; [|exact IH].
  destruct (f b); [f_equal|]; exact IH.
Qed.

Lemma filter_as_omap {A} (P : A → Prop) `{∀ x, Decision (P x)} (l : list A) :
  filter P l = omap (λ x, if decide (P x) then Some x else None) l.
Proof.
  induction l as [|x l IH]; [done|]. simpl.
  destruct (decide (P x)).
  - rewrite filter_cons_True by done. f_equal. exact IH.
  - rewrite filter_cons_False by done. exact IH.
Qed.

Lemma nodeMoves_elem_of features h index dx dy m :
  registeredById index h →
  m ∈ nodeMoves features h index dx dy ↔
  ∃ element obj,
    index !! SModelElement.id obj = Some element
    ∧ h !! element = Some obj
    ∧ SModelElement.selected obj = true
    ∧ Features.isSelectable features element = true
    ∧ Features.isMoveable features element = true
    ∧ m = ElementMove.mk None (SModelElement.id obj)
            (Point.mk (Point.x (SModelElement.position obj) + dx)%num
                      (Point.y (SModelElement.position obj) + dy)%num).
Proof.
  intros Hr. unfold nodeMoves. rewrite list_elem_of_omap. split.
  - intros (element & [Hs Hin]%list_elem_of_filter & Hm).
    apply nodeMove_Some in Hm as (obj & Hh & Hmv & ->).
    apply elem_of_all in Hin as (id & Hi).
    rewrite <- (registeredById_id _ _ _ _ _ Hr Hi Hh) in Hi.
    unfold MoveMouseListener.isSelected in Hs. rewrite Hh in Hs. simpl in Hs.
    apply andb_prop in Hs as [??]. by exists element, obj.
  - intros (element & obj & Hi & Hh & Hsel & Hs & Hmv & ->).
    exists element. split.
    + apply list_elem_of_filter. split; [|apply elem_of_all; by eexists].
      unfold MoveMouseListener.isSelected. by rewrite Hh, Hs.
    + unfold MoveMouseListener.nodeMove. by rewrite Hh, Hmv.
Qed.

Lemma nodeMoves_distinctTargets features h index dx dy :
  registeredById index h →
  distinctTargets index (nodeMoves features h index dx dy).
Proof.
  intros Hr. unfold distinctTargets, nodeMoves, all.
  rewrite filter_as_omap, list_fmap_alt, !omap_omap.
  apply NoDup_omap_inj; [apply NoDup_map_to_list|].
  assert (∀ id element b,
            (id, element) ∈ map_to_list index →
            (if decide (MoveMouseListener.isSelected features h element = true)
             then Some element else None)
            ≫= (λ x, MoveMouseListener.nodeMove features h dx dy x
                     ≫= λ m, index !! ElementMove.elementId m) = Some b →
            ∃ obj, h !! element = Some obj ∧ SModelElement.id obj = id ∧ b = element)
    as Hone.
  { intros id element b Hin%elem_of_map_to_list.
    case_decide; [|done]. simpl.
    destruct (MoveMouseListener.nodeMove _ _ _ _ element) as [m|] eqn:Hm; [|done].
    apply nodeMove_Some in Hm as (obj & Hh & _ & ->). simpl.
    pose proof (registeredById_id _ _ _ _ _ Hr Hin Hh) as Hid.
    rewrite Hid, Hin. intros [= <-]. by exists obj. }
  intros [id1 l1] [id2 l2] b H1 H2 E1 E2. simpl in E1, E2.
  destruct (Hone _ _ _ H1 E1) as (o1 & Ho1 & <- & ->).
  destruct (Hone _ _ _ H2 E2) as (o2 & Ho2 & <- & ->).
  rewrite Ho1 in Ho2. by injection Ho2 as ->.
Qed.

Lemma mouseMove_dragging this features h model target event last :
  MouseEvent.buttons event ≠ 0%Z →
  MoveMouseListener.lastDragPosition this = Some last →
  let zoom := default Number.one (Features.viewportZoom features target) in
  let moves :=
    nodeMoves features h (SModelRoot.index model)
      ((MouseEvent.clientX event - Point.x last) / zoom)%num
      ((MouseEvent.clientY event - Point.y last) / zoom)%num in
  MoveMouseListener.mouseMove this features h model target event =
    (MoveMouseListener.mk true
       (Some (Point.mk (MouseEvent.clientX event) (MouseEvent.clientY event))),
     match moves with [] => [] | _ => [MoveAction.mk moves false] end).
Proof.
  intros Hb Hl zoom moves. unfold MoveMouseListener.mouseMove.
  case_decide; [done|]. rewrite Hl. cbv zeta. fold zoom. 
  change (omap _ _) with moves.
  case_decide as Hn; destruct moves; simpl in Hn; try done; lia.
Qed.

Lemma moved_only_inv h h' element obj' :
  moved_only h h' → h' !! element = Some obj' →
  ∃ obj, h !! element = Some obj ∧ same_but_position obj obj'.
Proof.
  intros Hm Hh'. specialize (Hm element). destruct (h !! element) as [obj|].
  - destruct Hm as (o' & Ho' & Hs). rewrite Hh' in Ho'. injection Ho' as <-.
    by exists obj.
  - by rewrite Hm in Hh'.
Qed.

Lemma registeredById_moved_only index h h' :
  moved_only h h' → registeredById index h → registeredById index h'.
Proof.
  intros Hm Hr id element Hi. simpl.
  destruct (h' !! element) as [obj'|] eqn:Hh'; simpl; [|done].
  destruct (moved_only_inv _ _ _ _ Hm Hh') as (obj & Hh & (Hid & _)).
  rewrite Hid. by apply (registeredById_id index h id element).
Qed.

End DragGesture.

(** X7. What a mouse move returns.  While a position of the drag is
    recorded and a button is held, [mouseMove] sets [hasDragged] and
    records the pointer's position.  It returns at most one action, which
    is not animated and names no element twice.  Its moves are, for every
    element of the index that is selected, selectable and moveable, and
    for no other, the move of the element's id to its position plus the
    pointer's displacement divided by the zoom (1 without a viewport);
    the target decides the zoom alone.  The index holds each element
    under the element's id. *)
Theorem mouseMove_moves_the_selection this features h model target event last :
  registeredById (SModelRoot.index model) h →
  MouseEvent.buttons event ≠ 0%Z →
  MoveMouseListener.lastDragPosition this = Some last →
  let zoom := default Number.one (Features.viewportZoom features target) in
  let dx := ((MouseEvent.clientX event - Point.x last) / zoom)%num in
  let dy := ((MouseEvent.clientY event - Point.y last) / zoom)%num in
  let r := MoveMouseListener.mouseMove this features h model target event in
  r.1 = MoveMouseListener.mk true
          (Some (Point.mk (MouseEvent.clientX event) (MouseEvent.clientY event)))
  ∧ (∀ a, a ∈ r.2 →
       r.2 = [a] ∧ MoveAction.animate a = false
       ∧ distinctTargets (SModelRoot.index model) (MoveAction.moves a))
  ∧ (∀ m, (∃ a, a ∈ r.2 ∧ m ∈ MoveAction.moves a) ↔
       ∃ element obj,
         SModelRoot.index model !! SModelElement.id obj = Some element
         ∧ h !! element = Some obj
         ∧ SModelElement.selected obj = true
         ∧ Features.isSelectable features element = true
         ∧ Features.isMoveable features element = true
         ∧ m = ElementMove.mk None (SModelElement.id obj)
                 (Point.mk (Point.x (SModelElement.position obj) + dx)%num
                           (Point.y (SModelElement.position obj) + dy)%num)).
Proof.
  intros Hr Hb Hl zoom dx dy r.
  pose proof (mouseMove_dragging this features h model target event last Hb Hl) as E.
  cbv zeta in E. fold zoom dx dy r in E.
  pose proof (nodeMoves_distinctTargets features h (SModelRoot.index model) dx dy Hr)
    as Hd.
  pose proof (λ m, nodeMoves_elem_of features h (SModelRoot.index model) dx dy m Hr)
    as Hin.
  destruct (nodeMoves features h (SModelRoot.index model) dx dy) as [|m0 ms] eqn:Hn;
    rewrite E; cbn [fst snd].
  - split; [done|]. split; [by intros a ?%not_elem_of_nil|].
    intros m. rewrite <- Hin. split; [by intros (a & ?%not_elem_of_nil & _)|].
    by intros ?%not_elem_of_nil.
  - split; [done|]. split; [by intros a ->%list_elem_of_singleton|].
    intros m. rewrite <- Hin. split.
    + by intros (a & ->%list_elem_of_singleton & ?).
    + intros Hm. eexists. split; [apply list_elem_of_here|done].
Qed.

Lemma mouseMove_moves_the_selection_witness :
  registeredById initialIndex initialHeap
  ∧ MoveMouseListener.mouseMove pressed plainFeatures initialHeap initialModel 0
      (pointerAt 10 10)
    = (MoveMouseListener.mk true (Some (point 10 10)),
       [MoveCommand.action firstDrag])
  ∧ distinctTargets initialIndex (MoveAction.moves (MoveCommand.action firstDrag)).
Proof.
  assert (registeredById initialIndex initialHeap) as Hr
    by (apply (bool_decide_unpack _); by vm_compute).
  assert (MoveMouseListener.mouseMove pressed plainFeatures initialHeap initialModel 0
            (pointerAt 10 10)
          = (MoveMouseListener.mk true (Some (point 10 10)),
             [MoveCommand.action firstDrag])) as Em by by vm_compute.
  split; [exact Hr|]. split; [exact Em|].
  destruct (mouseMove_moves_the_selection pressed plainFeatures initialHeap
              initialModel 0 (pointerAt 10 10) (point 0 0) Hr)
    as (_ & Ha & _).
  - by vm_compute.
  - reflexivity.
  - apply (Ha (MoveCommand.action firstDrag)). rewrite Em. apply list_elem_of_here.
Defined.

(** X8. A drag is undone as one move.  Two calls of [mouseMove] during a
    drag return an action each; the command of the first is executed, the
    second call sees the heap it left, the command of the second is
    executed, and the first command merges the second.  With an index that
    holds each element under its id, the same moveable and selectable
    elements at both calls, and finite points: the merge is accepted, and
    the last tick of the animation that [undo] of the merged command
    starts puts an element where it was before the drag ([===]). *)
Theorem dragging_is_undone_as_one_move
    this features1 features2 target1 target2 event1 event2 context h a1 a2
    element obj :
  let model := CommandExecutionContext.root context in
  registeredById (SModelRoot.index model) h →
  (∀ l, Features.isMoveable features2 l = Features.isMoveable features1 l) →
  (∀ l, Features.isSelectable features2 l = Features.isSelectable features1 l) →
  let s1 := MoveMouseListener.mouseMove this features1 h model target1 event1 in
  s1.2 = [a1] →
  let r1 := Move.execute (MoveCommand.mk a1 []) context h in
  let s2 := MoveMouseListener.mouseMove s1.1 features2 r1.2 model target2 event2 in
  s2.2 = [a2] →
  let r2 := Move.execute (MoveCommand.mk a2 []) context r1.2 in
  Forall (λ m, finitePoint (ElementMove.toPosition m) = true)
    (MoveAction.moves a1 ++ MoveAction.moves a2) →
  h !! element = Some obj →
  finitePoint (SModelElement.position obj) = true →
  let merged := Move.merge r1.1.2 (AMoveCommand r2.1.2) context r2.2 in
  let backward :=
    MoveAnimation.mk model (MoveCommand.resolvedMoves merged.2) context true in
  merged.1 = true
  ∧ (Move.undo merged.2 context r2.2).1.1 = Animated (start backward)
  ∧ ∃ obj', (Move.tween backward Number.one r2.2).2 !! element = Some obj'
      ∧ same_place obj obj'
      ∧ (Point.x (SModelElement.position obj) ≠ Number.negativeZero →
         Point.y (SModelElement.position obj) ≠ Number.negativeZero →
         obj' = obj).
Proof.
  intros model Hr Hmv Hsl s1 E1 r1 s2 E2 r2 Hfin Hh Hfo merged backward.
  apply Forall_app in Hfin as [Hfin1 Hfin2].
  assert (a1 ∈ (call this (MouseMove features1 h model target1 event1)).2) as Hin1.
  { simpl. fold s1. rewrite E1. apply list_elem_of_here. }
  apply call_returns in Hin1
    as (? & ? & ? & ? & ? & last1 & [= <- <- <- <- <-] & Hb1 & Hl1 & Hs1 & _ & Hna1
        & _ & Hm1).
  simpl in Hs1. fold s1 in Hs1.
  assert (a2 ∈ (call s1.1 (MouseMove features2 r1.2 model target2 event2)).2) as Hin2.
  { simpl. fold s2. rewrite E2. apply list_elem_of_here. }
  apply call_returns in Hin2
    as (? & ? & ? & ? & ? & last2 & [= <- <- <- <- <-] & Hb2 & Hl2 & _ & _ & Hna2
        & _ & Hm2).
  fold (nodeMoves features1 h (SModelRoot.index model)
          ((MouseEvent.clientX event1 - Point.x last1)
           / default Number.one (Features.viewportZoom features1 target1))%num
          ((MouseEvent.clientY event1 - Point.y last1)
           / default Number.one (Features.viewportZoom features1 target1))%num) in Hm1.
  fold (nodeMoves features2 r1.2 (SModelRoot.index model)
          ((MouseEvent.clientX event2 - Point.x last2)
           / default Number.one (Features.viewportZoom features2 target2))%num
          ((MouseEvent.clientY event2 - Point.y last2)
           / default Number.one (Features.viewportZoom features2 target2))%num) in Hm2.
  assert (moved_only h r1.2) as Hmo by apply execute_moved_only.
  pose proof (registeredById_moved_only _ _ _ Hmo Hr) as Hr1.
  split.
  { assert (MoveCommand.action r1.1.2 = a1) as Ea1 by apply execute_action.
    unfold merged, Move.merge. by rewrite Ea1, Hna1. }
  split; [done|].
  apply (merged_drag_restores (MoveCommand.mk a1 []) (MoveCommand.mk a2 []) context h
           element obj); try done.
  - simpl. rewrite Hm1. by apply nodeMoves_distinctTargets.
  - simpl. apply Forall_forall. intros m Hm. split.
    + rewrite Hm1 in Hm.
      by apply (nodeMoves_elem_of _ _ _ _ _ _ Hr) in Hm as (? & ? & _ & _ & _ & _ & _ & ->).
    + exact (proj1 (Forall_forall _ _) Hfin1 m Hm).
  - simpl. apply Forall_forall. intros m Hm.
    split; [exact (proj1 (Forall_forall _ _) Hfin2 m Hm)|].
    rewrite Hm2 in Hm.
    apply (nodeMoves_elem_of _ _ _ _ _ _ Hr1) in Hm
      as (l & o2 & Hi & Ho2 & Hsel & Hs & Hv & ->).
    destruct (moved_only_inv _ _ _ _ Hmo Ho2) as (o & Ho & (Hid & Hse & _)).
    eexists. split.
    + rewrite Hm1. apply (nodeMoves_elem_of _ _ _ _ _ _ Hr).
      exists l, o. split_and!; [by rewrite <- Hid|done|by rewrite <- Hse|
        by rewrite <- Hsl|by rewrite <- Hmv|done].
    + simpl. by rewrite Hid.
Qed.

Lemma dragging_is_undone_as_one_move_witness :
  MoveMouseListener.mouseMove
    (MoveMouseListener.mouseMove pressed plainFeatures initialHeap initialModel 0
       (pointerAt 10 10)).1
    plainFeatures draggedHeap initialModel 0 (pointerAt 20 20)
  = (MoveMouseListener.mk true (Some (point 20 20)), [MoveCommand.action nextDrag])
  ∧ (Move.tween
       (MoveAnimation.mk initialModel
          (MoveCommand.resolvedMoves
             (Move.merge dragging
                (AMoveCommand (Move.execute nextDrag testContext draggedHeap).1.2)
                testContext (Move.execute nextDrag testContext draggedHeap).2).2)
          testContext true)
       Number.one (Move.execute nextDrag testContext draggedHeap).2).2 !! 1
    = Some node0.
Proof.
  assert (MoveMouseListener.mouseMove
            (MoveMouseListener.mouseMove pressed plainFeatures initialHeap initialModel 0
               (pointerAt 10 10)).1
            plainFeatures draggedHeap initialModel 0 (pointerAt 20 20)
          = (MoveMouseListener.mk true (Some (point 20 20)),
             [MoveCommand.action nextDrag])) as E2 by by vm_compute.
  split; [exact E2|].
  destruct (dragging_is_undone_as_one_move pressed plainFeatures plainFeatures 0 0
              (pointerAt 10 10) (pointerAt 20 20) testContext initialHeap
              (MoveCommand.action firstDrag) (MoveCommand.action nextDrag) 1 node0)
    as (_ & _ & obj' & Ho & _ & Hid).
  - apply (bool_decide_unpack _). by vm_compute.
  - reflexivity.
  - reflexivity.
  - by vm_compute.
  - by vm_compute.
  - repeat constructor.
  - by vm_compute.
  - reflexivity.
  - rewrite (Hid ltac:(by vm_compute) ltac:(by vm_compute)) in Ho. exact Ho.
Defined.

(** ** The model source *)

Section SourceFacts.
Implicit Types (this : LocalSource.t) (answers : Answers.t)
  (newRoot : SModelRootSchema.t) (update : Update) (r : Running.t)
  (es : list SourceEvent).

Lemma piece_quiet this this' :
  LocalSource.lastSubmittedModelType this' = LocalSource.lastSubmittedModelType this →
  LocalSource.pendingUpdates this' = LocalSource.pendingUpdates this →
  LocalSource.created this' = LocalSource.created this →
  piece this this' [] None.
Proof. intros. split; [done|]. left. split_and!; try done. by left. Qed.

(** A piece that starts from a source with the same submitted type,
    pending [Deferred]s and count. *)
Lemma piece_from this0 this this' effects awaiting :
  LocalSource.lastSubmittedModelType this = LocalSource.lastSubmittedModelType this0 →
  LocalSource.pendingUpdates this = LocalSource.pendingUpdates this0 →
  LocalSource.created this = LocalSource.created this0 →
  piece this this' effects awaiting → piece this0 this' effects awaiting.
Proof. unfold piece. by intros -> -> ->. Qed.

Lemma submit_piece this newRoot update :
  let o := LocalSource.submit this newRoot update in
  piece this o.1.1 o.1.2 o.2.
Proof.
  unfold LocalSource.submit. cbv zeta.
  destruct (LocalSource.truthy update && _) eqn:Hc; cbn [fst snd].
  - split; [done|]. right. eexists. split_and!; try done.
    intros Hn. rewrite Hn in Hc. apply andb_prop in Hc as [_ Hc].
    by apply bool_decide_eq_true in Hc.
  - split; [done|]. right. eexists. by split_and!.
Qed.

Lemma piece_log this this' effects awaiting :
  piece this this' effects awaiting → piece this this' (LogError :: effects) awaiting.
Proof. done. Qed.

Lemma doSubmitModel_piece this answers newRoot update :
  let o := LocalSource.doSubmitModel this answers newRoot update in
  piece this o.1.1 o.1.2 o.2.
Proof.
  unfold LocalSource.doSubmitModel.
  destruct (Answers.layout answers) as [[[]| | |]|]; cbv zeta; cbn [fst snd];
    try apply submit_piece; try apply piece_log, submit_piece.
  - by apply piece_quiet.
  - split; [done|]. left. split_and!; try done. by left.
Qed.

Lemma afterLayout_piece this newRoot update layoutResult :
  let o := LocalSource.afterLayout this newRoot update layoutResult in
  piece this o.1.1 o.1.2 o.2.
Proof.
  unfold LocalSource.afterLayout.
  destruct layoutResult as [?|[]]; cbv zeta; cbn [fst snd];
    try apply submit_piece; try apply piece_log, submit_piece.
  by apply piece_quiet.
Qed.

Lemma submitModel_piece this answers newRoot update :
  let o := LocalSource.submitModel this answers newRoot update in
  piece this (LocalSource.state o) (LocalSource.effects o) (LocalSource.awaiting o).
Proof.
  unfold LocalSource.submitModel.
  destruct (Answers.needsClientLayout answers); cbv zeta; cbn.
  - split; [done|]. left. split_and!; try done. by right.
  - apply doSubmitModel_piece.
Qed.

Lemma updateModel_piece this answers (newRoot : option SModelRootSchema.t) :
  let o := LocalSource.updateModel this answers newRoot in
  piece this (LocalSource.state o) (LocalSource.effects o) (LocalSource.awaiting o).
Proof.
  unfold LocalSource.updateModel. destruct newRoot as [root|]; cbv zeta.
  - eapply piece_from; [..|apply submitModel_piece]; done.
  - apply submitModel_piece.
Qed.

Lemma handle_piece this answers action :
  let o := LocalSource.handle this answers action in
  piece this (LocalSource.state o) (LocalSource.effects o) (LocalSource.awaiting o).
Proof.
  destruct action; cbv zeta; simpl.
  - unfold LocalSource.handleRequestModel. cbv zeta. cbn [LocalSource.state LocalSource.effects LocalSource.awaiting].
    eapply piece_from; [..|apply submitModel_piece];
      by destruct (Answers.getModel answers).
  - unfold LocalSource.handleComputedBounds. cbn [LocalSource.state LocalSource.effects LocalSource.awaiting]. apply doSubmitModel_piece.
  - unfold LocalSource.handleRequestPopupModel.
    destruct (Answers.getPopupModel answers) as [[popupRoot|]|]; cbn [LocalSource.state LocalSource.effects LocalSource.awaiting];
      by apply piece_quiet.
  - split; [done|]. left. split_and!; try done. by left.
  - unfold LocalSource.handleCollapseExpandAction.
    destruct (Answers.getModel answers); cbn [LocalSource.state LocalSource.effects LocalSource.awaiting]; [|by apply piece_quiet].
    eapply piece_from; [..|apply updateModel_piece]; done.
  - unfold LocalSource.handleCollapseExpandAllAction.
    destruct (Answers.getModel answers); cbn [LocalSource.state LocalSource.effects LocalSource.awaiting]; [|by apply piece_quiet].
    eapply piece_from; [..|apply updateModel_piece]; by destruct expand.
  - by apply piece_quiet.
Qed.

Lemma addElements_piece this answers elements :
  let o := LocalSource.addElements this answers elements in
  piece this (LocalSource.state o) (LocalSource.effects o) (LocalSource.awaiting o).
Proof. apply submitModel_piece. Qed.

Lemma removeElements_piece this answers index elements :
  let o := LocalSource.removeElements this answers index elements in
  piece this (LocalSource.state o) (LocalSource.effects o) (LocalSource.awaiting o).
Proof. apply submitModel_piece. Qed.

Lemma setModel_piece this answers newRoot :
  let o := LocalSource.setModel this answers newRoot in
  piece this (LocalSource.state o) (LocalSource.effects o) (LocalSource.awaiting o).
Proof. eapply piece_from; [..|apply submitModel_piece]; done. Qed.

Lemma captured_app (w1 w2 : list Awaiting) :
  captured (w1 ++ w2) = captured w1 ++ captured w2.
Proof. unfold captured. by rewrite fmap_app, join_app. Qed.

Lemma captured_delete (waiting : list Awaiting) i w :
  waiting !! i = Some w →
  captured waiting ≡ₚ
    match w with AwaitDispatch updates => updates | _ => [] end
    ++ captured (delete i waiting).
Proof.
  revert i. induction waiting as [|w0 ws IH]; intros [|i] Hi; try done.
  - injection Hi as ->. done.
  - simpl in Hi. change (delete (S i) (w0 :: ws)) with (w0 :: delete i ws).
    change (captured (w0 :: ws)) with
      (match w0 with AwaitDispatch updates => updates | _ => [] end ++ captured ws).
    change (captured (w0 :: delete i ws)) with
      (match w0 with AwaitDispatch updates => updates | _ => [] end
       ++ captured (delete i ws)).
    rewrite (IH i Hi). rewrite !app_assoc. f_equiv. apply Permutation_app_comm.
Qed.

(** What an event does: a piece runs, with the calls that wait holding
    what they held; or a dispatch settles; or nothing happens. *)
Lemma happen_cases r e :
  (∃ this' effects awaiting waiting',
     piece (Running.source r) this' effects awaiting
     ∧ captured waiting' ≡ₚ captured (Running.waiting r)
     ∧ happen r e =
         Running.mk this' (waiting' ++ option_list awaiting)
           (Running.trace r ++ effects))
  ∨ (∃ i updates dispatched,
       Running.waiting r !! i = Some (AwaitDispatch updates)
       ∧ happen r e =
           Running.mk (Running.source r) (delete i (Running.waiting r))
             (Running.trace r ++ LocalSource.afterDispatch updates dispatched))
  ∨ happen r e = r.
Proof.
  destruct e as [answers newRoot|answers newRoot|answers matches|answers elements
                |answers index elements|answers action|i layoutResult|i dispatched];
    simpl.
  - left. eexists _, _, _, _. split; [apply setModel_piece|done].
  - left. eexists _, _, _, _. split; [apply updateModel_piece|done].
  - left. eexists _, _, _, _. split; [apply submitModel_piece|done].
  - left. eexists _, _, _, _. split; [apply addElements_piece|done].
  - left. eexists _, _, _, _. split; [apply removeElements_piece|done].
  - left. eexists _, _, _, _. split; [apply handle_piece|done].
  - destruct (Running.waiting r !! i) as [[newRoot update|updates]|] eqn:Hi;
      [|by right; right..].
    left. eexists _, _, _, _. split; [apply afterLayout_piece|]. split; [|done].
    apply captured_delete in Hi. by rewrite Hi.
  - destruct (Running.waiting r !! i) as [[newRoot update|updates]|] eqn:Hi;
      [by right; right| |by right; right].
    right. left. by exists i, updates, dispatched.
Qed.

End SourceFacts.

Section RunFacts.
Implicit Types (r : Running.t) (es : list SourceEvent).

Lemma happened_snoc es e : happened (es ++ [e]) = happen (happened es) e.
Proof. unfold happened. by rewrite foldl_app. Qed.

Lemma resolved_app (t1 t2 : list Effect) : resolved (t1 ++ t2) = resolved t1 ++ resolved t2.
Proof. unfold resolved. by rewrite omap_app. Qed.

Lemma submitted_app (t1 t2 : list Effect) :
  submitted (t1 ++ t2) = submitted t1 ++ submitted t2.
Proof. unfold submitted. by rewrite filter_app. Qed.

Lemma resolved_afterDispatch updates dispatched :
  resolved (LocalSource.afterDispatch updates dispatched) =
    match dispatched with Fulfilled _ => updates | Rejected _ => [] end.
Proof.
  destruct dispatched; [|done]. simpl.
  induction updates as [|d ds IH]; [done|]. simpl. f_equal. exact IH.
Qed.

Lemma submitted_afterDispatch updates dispatched :
  submitted (LocalSource.afterDispatch updates dispatched) = [].
Proof.
  destruct dispatched; [|done]. simpl.
  induction updates as [|d ds IH]; [done|]. exact IH.
Qed.

Lemma accounted_step r e :
  NoDup (accounted r) →
  Forall (λ d, d < LocalSource.created (Running.source r)) (accounted r) →
  NoDup (accounted (happen r e))
  ∧ Forall (λ d, d < LocalSource.created (Running.source (happen r e)))
      (accounted (happen r e)).
Proof.
  intros Hnd Hlt.
  destruct (happen_cases r e)
    as [(this' & effects & awaiting & waiting' & (Hres & Hp) & Hw & ->)
       |[(i & updates & dispatched & Hi & ->)| ->]]; [| |done].
  - unfold accounted in *. cbn [Running.source Running.waiting Running.trace].
    rewrite captured_app, resolved_app, Hres, app_nil_r, Hw.
    destruct Hp as [(_ & _ & [(-> & -> & ->)|(-> & -> & ->)])
                   |(e0 & _ & _ & _ & -> & -> & ->)].
    + by rewrite app_nil_r.
    + change (captured (option_list None)) with (@nil deferred). rewrite app_nil_r.
      assert ((LocalSource.pendingUpdates (Running.source r)
               ++ [LocalSource.created (Running.source r)])
              ++ captured (Running.waiting r) ++ resolved (Running.trace r)
              ≡ₚ LocalSource.created (Running.source r)
                 :: LocalSource.pendingUpdates (Running.source r)
                 ++ captured (Running.waiting r) ++ resolved (Running.trace r))
        as Hperm.
      { rewrite <- app_assoc. symmetry. apply Permutation_middle. }
      rewrite Hperm. split.
      * apply NoDup_cons. split; [|done]. intros Hin.
        pose proof (proj1 (Forall_forall _ _) Hlt _ Hin) as Hc. simpl in Hc. lia.
      * constructor; [lia|]. eapply Forall_impl; [exact Hlt|]. simpl. lia.
    + change (captured (option_list (Some (AwaitDispatch ?u)))) with (u ++ []).
      rewrite app_nil_r, app_nil_l.
      assert ((captured (Running.waiting r)
               ++ LocalSource.pendingUpdates (Running.source r))
              ++ resolved (Running.trace r)
              ≡ₚ LocalSource.pendingUpdates (Running.source r)
                 ++ captured (Running.waiting r) ++ resolved (Running.trace r))
        as Hperm.
      { rewrite (Permutation_app_comm (captured _)). by rewrite <- app_assoc. }
      by rewrite Hperm.
  - unfold accounted in *. cbn [Running.source Running.waiting Running.trace].
    rewrite resolved_app, resolved_afterDispatch.
    apply captured_delete in Hi. rewrite Hi in Hnd, Hlt.
    destruct dispatched.
    + assert (LocalSource.pendingUpdates (Running.source r)
                ++ captured (delete i (Running.waiting r))
                ++ resolved (Running.trace r) ++ updates
              ≡ₚ LocalSource.pendingUpdates (Running.source r)
                 ++ (updates ++ captured (delete i (Running.waiting r)))
                 ++ resolved (Running.trace r)) as Hperm.
      { f_equiv. rewrite <- (app_assoc updates).
        rewrite (Permutation_app_comm updates). by rewrite <- !app_assoc. }
      by rewrite Hperm.
    + rewrite app_nil_r.
      assert (LocalSource.pendingUpdates (Running.source r)
                ++ captured (delete i (Running.waiting r))
                ++ resolved (Running.trace r)
              `sublist_of` LocalSource.pendingUpdates (Running.source r)
                 ++ (updates ++ captured (delete i (Running.waiting r)))
                 ++ resolved (Running.trace r)) as Hsub.
      { apply sublist_app; [done|]. apply sublist_app; [|done].
        by apply sublist_inserts_l. }
      split; [by eapply sublist_NoDup|].
      apply Forall_forall. intros d Hd.
      apply (proj1 (Forall_forall _ _) Hlt).
      by eapply elem_of_sublist.
Qed.

Lemma submitted_step r e :
  (LocalSource.lastSubmittedModelType (Running.source r) = None
   ↔ submitted (Running.trace r) = []) →
  (∀ e0, head (submitted (Running.trace r)) = Some e0 → setsModel e0 = true) →
  (LocalSource.lastSubmittedModelType (Running.source (happen r e)) = None
   ↔ submitted (Running.trace (happen r e)) = [])
  ∧ (∀ e0, head (submitted (Running.trace (happen r e))) = Some e0 →
           setsModel e0 = true).
Proof.
  intros Hnone Hfirst.
  destruct (happen_cases r e)
    as [(this' & effects & awaiting & waiting' & (Hres & Hp) & Hw & ->)
       |[(i & updates & dispatched & Hi & ->)| ->]]; [| |done].
  - cbn [Running.source Running.trace]. rewrite submitted_app.
    destruct Hp as [(-> & -> & _)|(e0 & -> & [ty Hty] & Hset & _)].
    + by rewrite app_nil_r.
    + rewrite Hty. split.
      * split; [done|]. by intros [_ ?]%app_eq_nil.
      * intros e1. destruct (submitted (Running.trace r)) as [|e2 t] eqn:Ht.
        -- simpl. intros [= <-]. apply Hset. by apply Hnone.
        -- simpl. intros [= <-]. by apply Hfirst.
  - cbn [Running.source Running.trace].
    rewrite submitted_app, submitted_afterDispatch, app_nil_r. done.
Qed.

End RunFacts.

(** X10. The first model is set.  Whatever methods of the model source are
    called, and whenever the promises that [doSubmitModel] waits for
    settle: [lastSubmittedModelType] is undefined exactly as long as
    neither a [SetModelAction] nor an [UpdateModelAction] was dispatched,
    and the first of these to be dispatched is a [SetModelAction]. *)
Theorem first_model_is_set es :
  let r := happened es in
  (LocalSource.lastSubmittedModelType (Running.source r) = None
   ↔ submitted (Running.trace r) = [])
  ∧ (∀ e, head (submitted (Running.trace r)) = Some e → setsModel e = true).
Proof.
  cbv zeta. induction es as [|e es IH] using rev_ind; [done|].
  rewrite happened_snoc. destruct IH as [IH1 IH2]. by apply submitted_step.
Qed.

(** X11. A [Deferred] is resolved once.  Whatever methods of the model
    source are called, and whenever the promises settle: the [Deferred]s
    that are pending, held by a call of [doSubmitModel] that waits for its
    dispatch, or resolved are all distinct, and each was made by
    [submitModel].  So none is resolved twice, and none that is pending or
    held has been resolved. *)
Theorem deferreds_resolve_once es :
  let r := happened es in
  NoDup (accounted r)
  ∧ Forall (λ d, d < LocalSource.created (Running.source r)) (accounted r).
Proof.
  cbv zeta. induction es as [|e es IH] using rev_ind.
  - split; constructor.
  - rewrite happened_snoc. destruct IH as [IH1 IH2]. by apply accounted_step.
Qed.

Section MatchFacts.

Lemma additions_map rootId (elements : list Addition) :
  LocalSource.additions rootId elements =
  (λ e, match e with
        | AddToParent element parentId =>
            ModelMatch.mk None (Some element) None (Some parentId)
        | AddElement element => ModelMatch.mk None (Some element) None (Some rootId)
        end) <$> elements.
Proof.
  unfold LocalSource.additions.
  induction elements as [|e es IH] using rev_ind; [done|].
  rewrite foldl_app, fmap_app, IH. simpl. by destruct e.
Qed.

End MatchFacts.

(** X12. With client layout, [setModel] ends in an update.  Let the last
    submitted model have the type of [newRoot], and let there be no layout
    engine.  Without client layout [setModel] dispatches a
    [SetModelAction].  With it, [setModel] dispatches a
    [RequestBoundsAction] and returns the promise of a new pending
    [Deferred]; the [ComputedBoundsAction] that follows dispatches an
    [UpdateModelAction] for the root, takes all pending [Deferred]s along
    and leaves none pending; they are resolved when that dispatch is
    fulfilled. *)
Theorem client_layout_forgets_set this answers1 answers2 newRoot :
  Answers.needsClientLayout answers1 = true →
  Answers.layout answers2 = None →
  LocalSource.lastSubmittedModelType this = Some (SModelRootSchema.type newRoot) →
  let d := LocalSource.created this in
  let o1 := LocalSource.setModel this answers1 newRoot in
  let o2 := LocalSource.handle (LocalSource.state o1) answers2 ComputedBoundsAction in
  LocalSource.effects o1 = [Dispatch (RequestBoundsAction newRoot)]
  ∧ LocalSource.awaiting o1 = None
  ∧ LocalSource.returned o1 = Some (DeferredPromise d)
  ∧ LocalSource.pendingUpdates (LocalSource.state o1)
    = LocalSource.pendingUpdates this ++ [d]
  ∧ LocalSource.effects o2 = [Dispatch (UpdateModelAction (InputRoot newRoot))]
  ∧ LocalSource.awaiting o2
    = Some (AwaitDispatch (LocalSource.pendingUpdates this ++ [d]))
  ∧ LocalSource.pendingUpdates (LocalSource.state o2) = []
  ∧ Resolve d ∈ LocalSource.afterDispatch (LocalSource.pendingUpdates this ++ [d])
                  (Fulfilled ())
  ∧ (∀ answers,
       Answers.needsClientLayout answers = false → Answers.layout answers = None →
       LocalSource.effects (LocalSource.setModel this answers newRoot)
       = [Dispatch (SetModelAction newRoot)]).
Proof.
  intros Hc Hl Hty d o1 o2.
  assert (o1 = LocalSource.outcome
                 (LocalSource.mk newRoot (NewExpansionState newRoot)
                    (Some (SModelRootSchema.type newRoot))
                    (LocalSource.pendingUpdates this ++ [d]) (S d))
                 [Dispatch (RequestBoundsAction newRoot)] None
                 (Some (DeferredPromise d))) as E1.
  { unfold o1, LocalSource.setModel, LocalSource.submitModel. rewrite Hc.
    simpl. by rewrite Hty. }
  assert (o2 = LocalSource.outcome
                 (LocalSource.mk newRoot (NewExpansionState newRoot)
                    (Some (SModelRootSchema.type newRoot)) [] (S d))
                 [Dispatch (UpdateModelAction (InputRoot newRoot))]
                 (Some (AwaitDispatch (LocalSource.pendingUpdates this ++ [d])))
                 None) as E2.
  { unfold o2. rewrite E1. simpl.
    unfold LocalSource.handleComputedBounds, LocalSource.doSubmitModel. rewrite Hl.
    unfold LocalSource.submit. simpl. by rewrite bool_decide_eq_true_2. }
  rewrite E1, E2. split_and!; try done.
  - simpl. rewrite fmap_app. apply elem_of_app. right. apply list_elem_of_here.
  - intros answers Hn Hnl.
    unfold LocalSource.setModel, LocalSource.submitModel. rewrite Hn.
    unfold LocalSource.doSubmitModel. rewrite Hnl. done.
Qed.

Lemma client_layout_forgets_set_witness :
  LocalSource.lastSubmittedModelType shown = Some "graph"
  ∧ LocalSource.effects (LocalSource.setModel shown (plainAnswers false) graphSchema)
    = [Dispatch (SetModelAction graphSchema)]
  ∧ LocalSource.effects
      (LocalSource.handle
         (LocalSource.state (LocalSource.setModel shown (plainAnswers true) graphSchema))
         (plainAnswers false) ComputedBoundsAction)
    = [Dispatch (UpdateModelAction (InputRoot graphSchema))].
Proof.
  assert (LocalSource.lastSubmittedModelType shown = Some "graph") as Hl
    by reflexivity.
  split; [exact Hl|].
  destruct (client_layout_forgets_set shown (plainAnswers true) (plainAnswers false)
              graphSchema eq_refl eq_refl Hl)
    as (_ & _ & _ & _ & Hu & _ & _ & _ & Hs).
  split; [by apply Hs|exact Hu].
Defined.

(** X14. The matches of [addElements] and [removeElements].
    [addElements] makes one match per entry, in order, with the entry's
    parent id or else the id of the current root.  [removeElements] does
    so for the entries whose id the index holds, and skips the others.
    Removing only unknown ids, like adding nothing, still submits: without
    client layout and layout engine an [UpdateModelAction] with no match
    is dispatched if the type of the current root is the last submitted
    one, and a [SetModelAction] otherwise. *)
Theorem matches_of_add_and_remove this answers index
    (adds : list Addition) (removals : list LocalModelSource.Removal) :
  let rootId := SModelRootSchema.id (LocalSource.currentRoot this) in
  LocalSource.additions rootId adds =
    (λ e, match e with
          | AddToParent element parentId =>
              ModelMatch.mk None (Some element) None (Some parentId)
          | AddElement element => ModelMatch.mk None (Some element) None (Some rootId)
          end) <$> adds
  ∧ LocalModelSource.removeElements index rootId removals =
      omap (λ e, (λ element,
                    LocalModelSource.Match.mk element
                      match e with
                      | LocalModelSource.ById _ => rootId
                      | LocalModelSource.ByIdAndParent _ parentId => parentId
                      end) <$> index !! removedId e) removals
  ∧ (Answers.needsClientLayout answers = false →
     Answers.layout answers = None →
     Forall (λ e, index !! removedId e = None) removals →
     LocalSource.effects (LocalSource.removeElements this answers index removals)
     = [Dispatch
          (if bool_decide (Some (SModelRootSchema.type (LocalSource.currentRoot this))
                           = LocalSource.lastSubmittedModelType this)
           then UpdateModelAction (InputMatches [])
           else SetModelAction (LocalSource.currentRoot this))]
     ∧ LocalSource.effects (LocalSource.addElements this answers [])
       = LocalSource.effects (LocalSource.removeElements this answers index removals)).
Proof.
  intros rootId. split; [apply additions_map|]. split; [apply removeElements_omap|].
  intros Hn Hl Hnone.
  assert (LocalModelSource.removeElements index rootId removals = []) as E.
  { rewrite removeElements_omap. apply omap_None. intros e He.
    by rewrite (proj1 (Forall_forall _ _) Hnone e He). }
  assert (∀ matches,
            LocalSource.effects (LocalSource.applyMatches this answers matches)
            = [Dispatch
                 (if bool_decide
                       (Some (SModelRootSchema.type (LocalSource.currentRoot this))
                        = LocalSource.lastSubmittedModelType this)
                  then UpdateModelAction (InputMatches matches)
                  else SetModelAction (LocalSource.currentRoot this))]) as Ha.
  { intros matches. unfold LocalSource.applyMatches, LocalSource.submitModel.
    rewrite Hn. unfold LocalSource.doSubmitModel. rewrite Hl.
    unfold LocalSource.submit. simpl. by case_bool_decide. }
  unfold LocalSource.removeElements, LocalSource.addElements. fold rootId.
  by rewrite E, !Ha.
Qed.

(** ** Computed bounds *)

Section BoundsFacts.

(** A loop that overwrites, at the element an entry names, what earlier
    entries wrote there: the last entry that names an element decides. *)
Lemma foldl_alter_last {A} (key : A → option loc)
    (f : A → SModelElementSchema.t → SModelElementSchema.t)
    (entries : list A) (s : Schemas) (element : loc) :
  (∀ a b e, f a (f b e) = f a e) →
  foldl (λ s a, match key a with
                | Some element => alter (f a) element s
                | None => s
                end) s entries !! element =
    match last (filter (λ a, key a = Some element) entries) with
    | Some a => f a <$> s !! element
    | None => s !! element
    end.
Proof.
  intros Hover. induction entries as [|a entries IH] using rev_ind; [done|].
  rewrite foldl_app, filter_app. simpl.
  destruct (decide (key a = Some element)) as [Hk|Hk].
  - rewrite filter_cons_True by done. rewrite filter_nil, last_snoc, Hk.
    rewrite lookup_alter_eq, IH. destruct (last _); [|done].
    rewrite <- option_fmap_compose. apply option_fmap_ext. intros e. apply Hover.
  - rewrite filter_cons_False by done. rewrite filter_nil, app_nil_r.
    destruct (key a) as [element'|]; [|exact IH].
    rewrite lookup_alter_ne by congruence. exact IH.
Qed.

End BoundsFacts.

(** X13. Computed bounds: the last entry decides.  After the two loops of
    [handleComputedBounds] an element has the position and the size of
    the last bounds entry whose id the index maps to it, and the alignment
    of the last such alignment entry; without such an entry, or without
    alignments in the action, it keeps what it had.  Type, id and children
    are never changed, and entries whose id the index does not hold are
    skipped. *)
Theorem computed_bounds_last_wins index action (s : Schemas) element :
  computedBounds index action s !! element =
    (λ e,
       SModelElementSchema.mk (SModelElementSchema.type e) (SModelElementSchema.id e)
         (SModelElementSchema.children e)
         match lastBounds index (ComputedBounds.bounds action) element with
         | Some b => Some (Point.mk (Bounds.x b) (Bounds.y b))
         | None => SModelElementSchema.position e
         end
         match lastBounds index (ComputedBounds.bounds action) element with
         | Some b => Some (Dimension.mk (Bounds.width b) (Bounds.height b))
         | None => SModelElementSchema.size e
         end
         match ComputedBounds.alignments action
               ≫= λ alignments, lastAlignment index alignments element with
         | Some a => Some a
         | None => SModelElementSchema.alignment e
         end)
    <$> s !! element.
Proof.
  unfold computedBounds, applyBounds, applyAlignment, lastBounds, lastAlignment.
  cbv zeta.
  pose proof (foldl_alter_last
                (λ b, index !! ElementAndBounds.elementId b)
                (λ b e, SModelElementSchema.mk (SModelElementSchema.type e)
                          (SModelElementSchema.id e) (SModelElementSchema.children e)
                          (Some (Point.mk (Bounds.x (ElementAndBounds.newBounds b))
                                          (Bounds.y (ElementAndBounds.newBounds b))))
                          (Some (Dimension.mk
                                   (Bounds.width (ElementAndBounds.newBounds b))
                                   (Bounds.height (ElementAndBounds.newBounds b))))
                          (SModelElementSchema.alignment e))
                (ComputedBounds.bounds action) s element (λ _ _ _, eq_refl)) as Hb.
  destruct (ComputedBounds.alignments action) as [alignments|]; simpl.
  - pose proof (foldl_alter_last
                  (λ a, index !! ElementAndAlignment.elementId a)
                  (λ a e, SModelElementSchema.mk (SModelElementSchema.type e)
                            (SModelElementSchema.id e) (SModelElementSchema.children e)
                            (SModelElementSchema.position e) (SModelElementSchema.size e)
                            (Some (Point.mk
                                     (Point.x (ElementAndAlignment.newAlignment a))
                                     (Point.y (ElementAndAlignment.newAlignment a)))))
                  alignments
                  (foldl (λ s b,
                            match index !! ElementAndBounds.elementId b with
                            | Some element =>
                                alter
                                  (λ e, SModelElementSchema.mk
                                          (SModelElementSchema.type e)
                                          (SModelElementSchema.id e)
                                          (SModelElementSchema.children e)
                                          (Some (Point.mk
                                                   (Bounds.x (ElementAndBounds.newBounds b))
                                                   (Bounds.y (ElementAndBounds.newBounds b))))
                                          (Some (Dimension.mk
                                                   (Bounds.width (ElementAndBounds.newBounds b))
                                                   (Bounds.height (ElementAndBounds.newBounds b))))
                                          (SModelElementSchema.alignment e))
                                  element s
                            | None => s
                            end) s (ComputedBounds.bounds action))
                  element (λ _ _ _, eq_refl)) as Ha.
    etrans; [exact Ha|]. rewrite Hb. clear Ha Hb.
    destruct (last (filter _ alignments)) as [a|],
             (last (filter _ (ComputedBounds.bounds action))) as [b|],
             (s !! element) as [e|]; simpl; try done.
    + by destruct (ElementAndAlignment.newAlignment a).
    + by destruct (ElementAndAlignment.newAlignment a).
    + by destruct e.
  - etrans; [exact Hb|]. clear Hb.
    destruct (last (filter _ (ComputedBounds.bounds action))) as [b|],
             (s !! element) as [e|]; simpl; try done.
    by destruct e.
Qed.
